(** * Streaming landmark audio fingerprinting: a shallow embedding

    The development follows the TypeScript sources of the repository:
    - [lib/fft.ts]: the radix-2 FFT engine [FFTNayuki];
    - [codegen_landmark.ts]: the [Codegen] transform stream (buffering,
      peak detection, threshold masking, pruning, landmark hashing).

    JavaScript numbers are IEEE-754 binary64 values; magnitudes, thresholds
    and window coefficients are therefore primitive floats.  Quantities the
    program only ever uses as integers (sizes, offsets, loop counters, bin
    indices, hashes) are in [Z]; they stay far below 2^53 for any
    configuration whose tables fit in memory, where JavaScript arithmetic
    on them is exact.  [Math.log], [Math.cos] and [Math.sin] are
    implementation-approximated by the language standard: they are
    parameters of the model.  Memory is not modelled: an allocation fails
    on an invalid length only.

    The engine declares a field [spectrum], which the fingerprinter reads
    after each transform, and assigns it nowhere: the field is an option
    here, [None] standing for [undefined], and a read of one of its
    entries while it is [undefined] throws a [TypeError]. *)

From Stdlib Require Import String ZArith List Bool Lia Floats Uint63 Sorted.
Import ListNotations.
Local Open Scope Z_scope.

Set Implicit Arguments.

(** ** Exceptions and results *)

Inductive exn : Type :=
| RangeError                      (* out-of-range buffer read, bad array length *)
| TypeError                       (* property access on [undefined] *)
| ThrownString (msg : string)     (* [throw '...'] *)
| Diverges.                       (* the loop budget of the model ran out *)

Inductive res (A : Type) : Type :=
| Ok (a : A)
| Err (e : exn).
Arguments Ok {A} a.
Arguments Err {A} e.

Definition bind {A B : Type} (m : res A) (k : A -> res B) : res B :=
  match m with
  | Ok a => k a
  | Err e => Err e
  end.

Notation "x <- m ;; k" := (bind m (fun x => k))
  (at level 61, m at next level, right associativity).
Notation "' p <- m ;; k" := (bind m (fun p => k))
  (at level 61, p pattern, m at next level, right associativity).

(** ** Counting loops *)

(** [Zrange lo hi] lists the values of [i] in [for (i = lo; i < hi; i += 1)]. *)
Definition Zrange (lo hi : Z) : list Z :=
  map (fun k => lo + Z.of_nat k) (seq 0 (Z.to_nat (hi - lo))).

(** [Zrange_by lo hi stride]: the values of [i] in
    [for (i = lo; i < hi; i += stride)], for a positive stride. *)
Definition Zrange_by (lo hi stride : Z) : list Z :=
  map (fun k => lo + stride * Z.of_nat k)
      (seq 0 (Z.to_nat ((hi - lo + stride - 1) / stride))).

(** [Zrange_down hi lo]: the values of [i] in [for (i = hi; i >= lo; i -= 1)]. *)
Definition Zrange_down (hi lo : Z) : list Z :=
  map (fun k => hi - Z.of_nat k) (seq 0 (Z.to_nat (hi - lo + 1))).

Definition Zfor {S : Type} (range : list Z) (body : Z -> S -> S) (s : S) : S :=
  fold_left (fun s i => body i s) range s.

(** ** JavaScript numbers and arrays *)

Definition Z2f (z : Z) : float :=
  if z <? 0 then PrimFloat.opp (PrimFloat.of_uint63 (Uint63.of_Z (- z)))
  else PrimFloat.of_uint63 (Uint63.of_Z z).

(** 32-bit views used by the bitwise operators. *)
Definition to_uint32 (z : Z) : Z := z mod 2 ^ 32.
Definition to_int32 (z : Z) : Z := (z + 2 ^ 31) mod 2 ^ 32 - 2 ^ 31.

(** [x > y] on numbers: false as soon as one side is NaN. *)
Definition js_gt (x y : float) : bool := PrimFloat.ltb y x.
Definition js_lt (x y : float) : bool := PrimFloat.ltb x y.

(** [Math.max(x, y)]: NaN if either is NaN, and [+0] is larger than [-0]. *)
Definition Math_max (x y : float) : float :=
  if PrimFloat.is_nan x || PrimFloat.is_nan y then PrimFloat.nan
  else if PrimFloat.ltb x y then y
  else if PrimFloat.ltb y x then x
  else if PrimFloat.is_zero x then PrimFloat.add x y
  else x.

(** Reading [a[i]]: a missing element is [undefined]; [d] is what
    [undefined] amounts to where the value is used (NaN for a number). *)
Definition js_get {A : Type} (d : A) (a : list A) (i : Z) : A :=
  if i <? 0 then d else nth (Z.to_nat i) a d.

(** Writing [a[i] = v] on a plain array: an index past the end extends the
    array, the holes reading back as [undefined]. *)
Definition js_set {A : Type} (d : A) (a : list A) (i : Z) (v : A) : list A :=
  if i <? 0 then a
  else if i <? Z.of_nat (length a)
       then firstn (Z.to_nat i) a ++ v :: skipn (S (Z.to_nat i)) a
       else a ++ repeat d (Z.to_nat i - length a) ++ [v].

Definition arr_get : list float -> Z -> float := js_get PrimFloat.nan.
Definition arr_set : list float -> Z -> float -> list float := js_set PrimFloat.nan.

(** The functions of [Math] that the language standard leaves
    implementation-approximated. *)
Record Platform : Type := {
  Math_log : float -> float;
  Math_cos : float -> float;
  Math_sin : float -> float
}.

(** [new Array(len)] throws unless [len] is an integer in [0, 2^32); the
    result here is the length of the array created.  An array too large
    for the memory of the host is created all the same. *)
Definition new_Array (len : Z) : res Z :=
  if (0 <=? len) && (len <? 2 ^ 32) then Ok len else Err RangeError.

(** [new Array(n / 2)]: [n / 2] is not an integer when [n] is odd. *)
Definition new_Array_half (n : Z) : res Z :=
  if Z.even n then new_Array (n / 2) else Err RangeError.

Fixpoint mapM {A B : Type} (f : A -> res B) (l : list A) : res (list B) :=
  match l with
  | [] => Ok []
  | a :: l' => b <- f a ;; bs <- mapM f l' ;; Ok (b :: bs)
  end.

Fixpoint foldM {A S : Type} (f : S -> A -> res S) (l : list A) (s : S) : res S :=
  match l with
  | [] => Ok s
  | a :: l' => s' <- f s a ;; foldM f l' s'
  end.

(** [Math.pow(2, e)] for an integer [e]: an exact power of two. *)
Definition pow2f (e : Z) : float := Z.ldexp PrimFloat.one e.

(** [Math.round(a / b)] for integers [a] and [b]: the quotient rounded to
    the nearest integer, halves upwards. *)
Definition js_round_div (a b : Z) : Z :=
  if 0 <? b then (2 * a + b) / (2 * b)
  else if b <? 0 then (- 2 * a - b) / (- 2 * b)
  else 0.

(** ** Node's [Buffer] *)

Definition byte_value (b : Byte.byte) : Z := Z.of_N (Byte.to_N b).

(** [buf.readInt16LE(offset)]: little-endian, two's complement; throws
    unless the bytes at [offset] and [offset + 1] are inside the buffer. *)
Definition readInt16LE (buf : list Byte.byte) (offset : Z) : res Z :=
  if offset <? 0 then Err RangeError
  else
    match skipn (Z.to_nat offset) buf with
    | lo :: hi :: _ =>
        let u := byte_value lo + 256 * byte_value hi in
        Ok (if u <? 32768 then u else u - 65536)
    | _ => Err RangeError
    end.

(** [buf.slice(start)]: a negative [start] counts from the end. *)
Definition Buffer_slice (buf : list Byte.byte) (start : Z) : list Byte.byte :=
  let len := Z.of_nat (length buf) in
  let start := if start <? 0 then Z.max (len + start) 0 else start in
  skipn (Z.to_nat start) buf.

(** ** The FFT engine ([lib/fft.ts]) *)

Module FFT.

Section Engine.

Variable pf : Platform.

Definition Math_PI : float := 0x1.921fb54442d18p+1%float.

Record FFTNayuki : Type := {
  n : Z;
  levels : Z;
  cosTable : list float;
  sinTable : list float;
  spectrum : option (list float);   (* declared without initialiser: [undefined] *)
  peakBand : Z;
  peak : Z
}.

(** [for (i = 0; i < 32; i++) if (1 << i === n) levels = i], from [-1]. *)
Definition find_levels (n : Z) : Z :=
  Zfor (Zrange 0 32)
       (fun i lv => if to_int32 (Z.shiftl 1 i) =? n then i else lv) (-1).

Definition trig_table (f : float -> float) (n len : Z) : list float :=
  map (fun i => f (PrimFloat.div
                     (PrimFloat.mul (PrimFloat.mul 2%float Math_PI) (Z2f i))
                     (Z2f n)))
      (Zrange 0 len).

(** [new FFTNayuki(n)]: the search for [levels], the test, and the two
    tables. *)
Definition constructor (n : Z) : res FFTNayuki :=
  let levels := find_levels n in
  if levels =? -1 then Err (ThrownString "Length is not a power of 2")
  else
    len <- new_Array_half n ;;
    Ok {| n := n;
          levels := levels;
          cosTable := trig_table (Math_cos pf) n len;
          sinTable := trig_table (Math_sin pf) n len;
          spectrum := None;
          peakBand := 0;
          peak := 0 |}.

(** [reverseBits(x, bits)]: [y = (y << 1) | (x & 1); x >>>= 1], [bits] times. *)
Definition reverseBits (x bits : Z) : Z :=
  fst (Zfor (Zrange 0 bits)
            (fun _ '(y, x) =>
               (to_int32 (Z.lor (to_int32 (Z.shiftl y 1)) (Z.land x 1)),
                Z.shiftr (to_uint32 x) 1))
            (0, x)).

Definition swap (a : list float) (i j : Z) : list float :=
  let temp := arr_get a i in
  arr_set (arr_set a i (arr_get a j)) j temp.

(** Bit-reversed addressing permutation. *)
Definition permute (this : FFTNayuki) (ri : list float * list float)
  : list float * list float :=
  Zfor (Zrange 0 (n this))
       (fun i '(real, imag) =>
          let j := reverseBits i (levels this) in
          if j >? i then (swap real i j, swap imag i j) else (real, imag))
       ri.

Definition butterfly (this : FFTNayuki) (j k halfsize : Z)
  (ri : list float * list float) : list float * list float :=
  let '(real, imag) := ri in
  let l := j + halfsize in
  let c := arr_get (cosTable this) k in
  let s := arr_get (sinTable this) k in
  let tpre := (arr_get real l * c + arr_get imag l * s)%float in
  let tpim := (- arr_get real l * s + arr_get imag l * c)%float in
  let real := arr_set real l (arr_get real j - tpre)%float in
  let imag := arr_set imag l (arr_get imag j - tpim)%float in
  let real := arr_set real j (arr_get real j + tpre)%float in
  let imag := arr_set imag j (arr_get imag j + tpim)%float in
  (real, imag).

(** One pass of [for (i = 0; i < n; i += size)] with its inner loop over
    [j = i .. i + halfsize - 1], [k] advancing by [tablestep]. *)
Definition stage (this : FFTNayuki) (size : Z)
  (ri : list float * list float) : list float * list float :=
  let halfsize := size / 2 in
  let tablestep := n this / size in
  Zfor (Zrange_by 0 (n this) size)
       (fun i ri =>
          Zfor (Zrange i (i + halfsize))
               (fun j ri => butterfly this j ((j - i) * tablestep) halfsize ri)
               ri)
       ri.

(** The sizes visited by [for (size = 2; size <= n; size *= 2)]. *)
Definition sizes (n : Z) : list Z :=
  map (fun s => 2 ^ s) (Zrange 1 (Z.log2 n + 1)).

(** [forward(real, imag)]: both arrays are modified in place and nothing
    else of the engine is written; the result is the final contents of
    the two arrays together with the engine as the call leaves it. *)
Definition forward (this : FFTNayuki) (real imag : list float)
  : FFTNayuki * (list float * list float) :=
  let ri := permute this (real, imag) in
  let ri := Zfor (sizes (n this)) (fun size ri => stage this size ri) ri in
  (this, ri).

End Engine.

End FFT.

(** ** The fingerprinter ([codegen_landmark.ts]) *)

(** What a slot of [iLocMax] can hold: the initial [NaN], a bin index
    written by the local-maximum scan, or the [-Infinity] written by
    pruning. *)
Inductive binval : Type :=
| NaNBin
| Bin (b : Z)
| NegInfBin.

(** [x !== y] on such values. *)
Definition bin_neq (x y : binval) : bool :=
  match x, y with
  | Bin a, Bin b => negb (a =? b)
  | NegInfBin, NegInfBin => false
  | _, _ => true
  end.

(** [Math.abs(x - y) < w] for an integer [w]: false when the difference is
    NaN or infinite. *)
Definition bin_dist_lt (x y : binval) (w : Z) : bool :=
  match x, y with
  | Bin a, Bin b => Z.abs (a - b) <? w
  | _, _ => false
  end.

(** [a[x]] for a slot value [x]: only an integer index names an element. *)
Definition bin_get (a : list float) (x : binval) : float :=
  match x with
  | Bin b => arr_get a b
  | _ => PrimFloat.nan
  end.

Module Mark.
Record mark : Type := {
  t : Z;
  i : list binval;
  v : list float
}.
End Mark.

Record CodegenBuffer : Type := {
  tcodes : list Z;
  hcodes : list Z
}.

Record CodegenOptions : Type := {
  verbose : bool;
  samplingRate : Z;
  bps : Z;
  mnlm : Z;
  mppp : Z;
  nfft : Z;
  step : Z;
  dt : float;
  hwin : list float;
  maskDecayLog : float;
  ifMin : Z;
  ifMax : Z;
  windowDf : Z;
  windowDt : Z;
  pruningDt : Z;
  maskDf : float;
  eww : list (list float)
}.

Record CodegenUserOpts : Type := {
  opt_verbose : option bool;
  opt_samplingRate : option Z;
  opt_bps : option Z;
  opt_mnlm : option Z;
  opt_mppp : option Z;
  opt_nfft : option Z;
  opt_step : option Z;
  opt_dt : option float;
  opt_hwin : option (list float);
  opt_maskDecayLog : option float;
  opt_ifMin : option Z;
  opt_ifMax : option Z;
  opt_windowDf : option Z;
  opt_windowDt : option Z;
  opt_pruningDt : option Z;
  opt_maskDf : option float;
  opt_eww : option (list (list float))
}.

(** [new Codegen()]: no option given. *)
Definition no_options : CodegenUserOpts :=
  {| opt_verbose := None; opt_samplingRate := None; opt_bps := None;
     opt_mnlm := None; opt_mppp := None; opt_nfft := None; opt_step := None;
     opt_dt := None; opt_hwin := None; opt_maskDecayLog := None;
     opt_ifMin := None; opt_ifMax := None; opt_windowDf := None;
     opt_windowDt := None; opt_pruningDt := None; opt_maskDf := None;
     opt_eww := None |}.

(** [x || d]: [undefined], [0] and NaN are falsy. *)
Definition orZ (x : option Z) (d : Z) : Z :=
  match x with
  | Some z => if z =? 0 then d else z
  | None => d
  end.

Definition orF (x : option float) (d : float) : float :=
  match x with
  | Some f => if PrimFloat.is_nan f || PrimFloat.is_zero f then d else f
  | None => d
  end.

Record Codegen : Type := {
  options : CodegenOptions;
  buffer : list Byte.byte;
  bufferDelta : Z;
  stepIndex : Z;
  marks : list Mark.mark;
  threshold : list float;
  fft : FFT.FFTNayuki
}.

(** The two output arrays of one call, filled together. *)
Definition codes : Type := (list Z * list Z)%type.

Definition push_code (c : codes) (tc hc : Z) : codes :=
  (fst c ++ [tc], snd c ++ [hc]).

(** What a call pushes for the output [out] of its frames:
    [if (tcodes.length > 0) this.push({tcodes, hcodes})]. *)
Definition pushed_of (out : codes) : option CodegenBuffer :=
  if 0 <? Z.of_nat (length (fst out))
  then Some {| tcodes := fst out; hcodes := snd out |}
  else None.

(** [a.splice(start, count)] for [0 <= start]: what is left in [a]. *)
Definition splice {A : Type} (a : list A) (start count : Z) : list A :=
  firstn (Z.to_nat start) a ++ skipn (Z.to_nat start + Z.to_nat count) a.

(** [a[i] = f(a[i])] for an index inside the array. *)
Definition modify {A : Type} (a : list A) (i : Z) (f : A -> A) : list A :=
  match nth_error a (Z.to_nat i) with
  | Some x => firstn (Z.to_nat i) a ++ f x :: skipn (S (Z.to_nat i)) a
  | None => a
  end.

Section Fingerprinter.

Variable pf : Platform.

Definition buildOptions (options : CodegenUserOpts) : res CodegenOptions :=
  let verbose := match opt_verbose options with Some b => b | None => false end in
  let samplingRate := orZ (opt_samplingRate options) 22050 in
  let bps := orZ (opt_bps options) 2 in
  let mnlm := orZ (opt_mnlm options) 5 in
  let mppp := orZ (opt_mppp options) 3 in
  let nfft := orZ (opt_nfft options) 512 in
  (* [nfft / 2] is an integer for every size the FFT engine accepts *)
  let step := orZ (opt_step options) (nfft / 2) in
  let dt := orF (opt_dt options)
                (PrimFloat.div 1 (PrimFloat.div (Z2f samplingRate) (Z2f step))) in
  hwin <- match opt_hwin options with
          | Some w => Ok w
          | None =>
              len <- new_Array nfft ;;
              Ok (map (fun i =>
                         (0.5 * (1 - Math_cos pf
                                       ((2 * FFT.Math_PI * Z2f i) / Z2f (nfft - 1))))%float)
                      (Zrange 0 len))
          end ;;
  let maskDecayLog := orF (opt_maskDecayLog options)
                          (Math_log pf 0x1.fd70a3d70a3d7p-1%float) in
  let ifMin := orZ (opt_ifMin options) 0 in
  let ifMax := orZ (opt_ifMax options) (nfft / 2) in
  let windowDf := orZ (opt_windowDf options) 60 in
  let windowDt := orZ (opt_windowDt options) 96 in
  let pruningDt := orZ (opt_pruningDt options) 24 in
  let maskDf := orF (opt_maskDf options) 3 in
  eww <- match opt_eww options with
         | Some e => Ok e
         | None =>
             len <- new_Array_half nfft ;;
             Ok (map (fun i =>
                        map (fun j =>
                               let x := (Z2f (j - i) / maskDf
                                         / PrimFloat.sqrt (Z2f (i + 3)))%float in
                               (-0.5 * (x * x))%float)
                            (Zrange 0 len))
                     (Zrange 0 len))
         end ;;
  Ok {| verbose := verbose; samplingRate := samplingRate; bps := bps;
        mnlm := mnlm; mppp := mppp; nfft := nfft; step := step; dt := dt;
        hwin := hwin; maskDecayLog := maskDecayLog; ifMin := ifMin;
        ifMax := ifMax; windowDf := windowDf; windowDt := windowDt;
        pruningDt := pruningDt; maskDf := maskDf; eww := eww |}.

Definition constructor (options : CodegenUserOpts) : res Codegen :=
  opts <- buildOptions options ;;
  len <- new_Array (nfft opts) ;;
  engine <- FFT.constructor pf (nfft opts) ;;
  Ok {| options := opts;
        buffer := [];
        bufferDelta := 0;
        stepIndex := 0;
        marks := [];
        threshold := repeat (-3)%float (Z.to_nat len);
        fft := engine |}.

(** *** One frame

    The functions below are the successive blocks of the body of the
    [while] loop of [_transform]; [o] is the destructured [this.options]. *)

Variable o : CodegenOptions.

(** The windowed, scaled samples of the frame at [stepIndex]. *)
Definition window_data (this : Codegen) : res (list float) :=
  _ <- new_Array (nfft o) ;;
  mapM (fun i =>
          s <- readInt16LE (buffer this)
                           ((stepIndex this + i) * bps o - bufferDelta this) ;;
          Ok ((arr_get (hwin o) i * Z2f s) / pow2f (8 * bps o - 1))%float)
       (Zrange 0 (nfft o)).

(** The log-normal surface: [spectrum[i] = |spectrum[i]| * sqrt(i + 16)]. *)
Definition log_normal_surface (spectrum : list float) : list float :=
  Zfor (Zrange (ifMin o) (ifMax o))
       (fun i sp =>
          arr_set sp i (PrimFloat.abs (arr_get sp i)
                        * PrimFloat.sqrt (Z2f (i + 16)))%float)
       spectrum.

(** Positive values of the difference between log spectrum and threshold. *)
Definition positive_diff (spectrum threshold : list float) : res (list float) :=
  len <- new_Array_half (nfft o) ;;
  Ok (Zfor (Zrange (ifMin o) (ifMax o))
           (fun i diff =>
              arr_set diff i
                (Math_max
                   (Math_log pf (Math_max 0x1.0c6f7a0b5ed8dp-20 (arr_get spectrum i))
                    - arr_get threshold i)%float
                   0%float))
           (repeat PrimFloat.nan (Z.to_nat len))).

(** Insertion of a local maximum at bin [i], of magnitude [x], in the
    ordered tables: the loop over [j] with its [continue] and [break]. *)
Definition insert_peak (i : Z) (x : float) (loc : list binval * list float)
  : list binval * list float :=
  snd (Zfor (Zrange_down (mnlm o - 1) 0)
            (fun j '(done, (iLocMax, vLocMax)) =>
               if (done : bool) then (done, (iLocMax, vLocMax))
               else if (1 <=? j) && js_gt x (arr_get vLocMax (j - 1))
                    then (false, (iLocMax, vLocMax))
                    else
                      let '(iL, vL) :=
                        Zfor (Zrange_down (mnlm o - 1) (j + 1))
                             (fun k '(iL, vL) =>
                                (js_set NaNBin iL k (js_get NaNBin iL (k - 1)),
                                 arr_set vL k (arr_get vL (k - 1))))
                             (iLocMax, vLocMax) in
                      (true, (js_set NaNBin iL j (Bin i), arr_set vL j x)))
            (false, loc)).

(** At most [mnlm] local maxima of the frame, by decreasing magnitude. *)
Definition local_maxima (spectrum diff : list float)
  : res (list binval * list float) :=
  len <- new_Array (mnlm o) ;;
  Ok (Zfor (Zrange (ifMin o + 1) (ifMax o - 1))
           (fun i '(iLocMax, vLocMax) =>
              if js_gt (arr_get diff i) (arr_get diff (i - 1))
                 && js_gt (arr_get diff i) (arr_get diff (i + 1))
                 && js_gt (arr_get spectrum i) (arr_get vLocMax (mnlm o - 1))
              then insert_peak i (arr_get spectrum i) (iLocMax, vLocMax)
              else (iLocMax, vLocMax))
           (repeat NaNBin (Z.to_nat len),
            repeat PrimFloat.neg_infinity (Z.to_nat len))).

(** [eww[b][j]]: reading a row that does not exist throws. *)
Definition eww_at (b : binval) (j : Z) : res float :=
  match b with
  | Bin r =>
      match (if r <? 0 then None else nth_error (eww o) (Z.to_nat r)) with
      | Some row => Ok (arr_get row j)
      | None => Err TypeError
      end
  | _ => Err TypeError
  end.

(** The mask of one peak: [threshold[j] = max(threshold[j], log(...) + eww[b][j])]. *)
Definition raise_threshold (spectrum : list float) (b : binval)
  (threshold : list float) : res (list float) :=
  foldM (fun thr j =>
           e <- eww_at b j ;;
           Ok (arr_set thr j
                 (Math_max (arr_get thr j)
                           (Math_log pf (bin_get spectrum b) + e)%float)))
        (Zrange (ifMin o) (ifMax o)) threshold.

(** The loop over the [mnlm] slots: masks for the slots in use, and both
    tables cut at the first unused slot. *)
Fixpoint update_threshold (slots : list Z) (spectrum : list float)
  (iLocMax : list binval) (vLocMax threshold : list float)
  : res (list binval * list float * list float) :=
  match slots with
  | [] => Ok (iLocMax, vLocMax, threshold)
  | i :: rest =>
      if js_gt (arr_get vLocMax i) PrimFloat.neg_infinity
      then
        thr <- raise_threshold spectrum (js_get NaNBin iLocMax i) threshold ;;
        update_threshold rest spectrum iLocMax vLocMax thr
      else
        Ok (splice iLocMax i (mnlm o - i), splice vLocMax i (mnlm o - i), threshold)
  end.

(** The test of the pruning loop on a slot holding bin [b] and magnitude
    [x], in a frame [age = nm - 1 - i] frames old:
    [b !== 0 && Math.log(x) < threshold[b] + maskDecayLog * age]. *)
Definition prune_test (threshold : list float) (age : Z) (b : binval) (x : float)
  : bool :=
  bin_neq b (Bin 0)
  && js_lt (Math_log pf x) (bin_get threshold b + maskDecayLog o * Z2f age)%float.

(** Pruning of the slots of one frame. *)
Definition prune_mark (threshold : list float) (age : Z) (m : Mark.mark)
  : Mark.mark :=
  Zfor (Zrange 0 (Z.of_nat (length (Mark.v m))))
       (fun j m =>
          if prune_test threshold age (js_get NaNBin (Mark.i m) j)
                        (arr_get (Mark.v m) j)
          then {| Mark.t := Mark.t m;
                  Mark.i := js_set NaNBin (Mark.i m) j NegInfBin;
                  Mark.v := arr_set (Mark.v m) j PrimFloat.neg_infinity |}
          else m)
       m.

(** Removal of the earlier maxima that the current threshold dominates. *)
Definition prune (marks : list Mark.mark) (threshold : list float)
  : list Mark.mark :=
  let nm := Z.of_nat (length marks) in
  let t0 := nm - pruningDt o - 1 in
  Zfor (Zrange_down (nm - 1) (Z.max (t0 + 1) 0))
       (fun i marks => modify marks i (prune_mark threshold (nm - 1 - i)))
       marks.

(** [m2.i[k] + (nfft / 2) * (m.i[i] + (nfft / 2) * (t0 - j))]. *)
Definition hash (earlier later : binval) (delta : Z) : Z :=
  match earlier, later with
  | Bin k, Bin a => k + (nfft o / 2) * (a + (nfft o / 2) * delta)
  | _, _ => 0
  end.

(** The loop over the slots [k] of frame [m2] for the anchor slot [i] of
    [m]; the state is ([continue loopCurrentPeaks] taken, [nFingers],
    output so far). *)
Definition pair_frame (m m2 : Mark.mark) (i delta : Z)
  (st : bool * Z * codes) : bool * Z * codes :=
  Zfor (Zrange 0 (Z.of_nat (length (Mark.i m2))))
       (fun k '(stop, nFingers, out) =>
          if (stop : bool) then (stop, nFingers, out)
          else
            let a := js_get NaNBin (Mark.i m) i in
            let b := js_get NaNBin (Mark.i m2) k in
            if bin_neq b a && bin_dist_lt b a (windowDf o)
            then (mppp o <=? nFingers + 1, nFingers + 1,
                  push_code out (Mark.t m) (hash b a delta))
            else (stop, nFingers, out))
       st.

(** The hashes of one anchor slot [i] of frame [t0]. *)
Definition pair_anchor (marks : list Mark.mark) (t0 : Z) (m : Mark.mark)
  (i : Z) (out : codes) : codes :=
  snd (Zfor (Zrange_down t0 (Z.max 0 (t0 - windowDt o)))
            (fun j (st : bool * Z * codes) =>
               if fst (fst st) then st
               else pair_frame m (nth (Z.to_nat j) marks m) i (t0 - j) st)
            (false, 0, out)).

(** Hashes for the peaks of frame [t0], which can no longer be pruned. *)
Definition generate_hashes (marks : list Mark.mark) (t0 : Z) (out : codes)
  : res codes :=
  if 0 <=? t0 then
    match nth_error marks (Z.to_nat t0) with
    | None => Err TypeError
    | Some m =>
        Ok (Zfor (Zrange 0 (Z.of_nat (length (Mark.i m))))
                 (fun i out => pair_anchor marks t0 m i out) out)
    end
  else Ok out.

(** The loop of the log-normal surface on the engine's own field,
    [this.fft.spectrum[i] = Math.abs(this.fft.spectrum[i]) * Math.sqrt(i + 16)]
    for the bins of the band.  When the field is [undefined] the first
    turn of the loop throws a [TypeError]; with a band that holds no bin
    the loop does not run and the field is not read. *)
Definition scale_spectrum (engine : FFT.FFTNayuki) : res FFT.FFTNayuki :=
  match FFT.spectrum engine with
  | Some spectrum =>
      Ok {| FFT.n := FFT.n engine;
            FFT.levels := FFT.levels engine;
            FFT.cosTable := FFT.cosTable engine;
            FFT.sinTable := FFT.sinTable engine;
            FFT.spectrum := Some (log_normal_surface spectrum);
            FFT.peakBand := FFT.peakBand engine;
            FFT.peak := FFT.peak engine |}
  | None => if ifMin o <? ifMax o then Err TypeError else Ok engine
  end.

(** The array that the statements after the log-normal loop read as
    [this.fft.spectrum].  They do so at bins of the band only, and the
    loop has thrown before them unless the field holds an array or the
    band holds no bin, so that nothing is read where the field is
    [undefined]: the empty array stands for it there. *)
Definition spectrum_of (engine : FFT.FFTNayuki) : list float :=
  match FFT.spectrum engine with
  | Some spectrum => spectrum
  | None => []
  end.

(** The first half of the body of the [while] loop, down to
    [this.marks.push(...)]: the history with the record of the new frame,
    the threshold raised by the masks of its peaks, and the engine. *)
Definition analyse (this : Codegen)
  : res (list Mark.mark * list float * FFT.FFTNayuki) :=
  data <- window_data this ;;
  let image := repeat 0%float (Z.to_nat (nfft o)) in
  let stepIndex' := stepIndex this + step o in
  let '(engine, _) := FFT.forward (fft this) data image in
  engine <- scale_spectrum engine ;;
  let spectrum := spectrum_of engine in
  diff <- positive_diff spectrum (threshold this) ;;
  '(iLocMax, vLocMax) <- local_maxima spectrum diff ;;
  '(iLocMax, vLocMax, thr) <-
     update_threshold (Zrange 0 (mnlm o)) spectrum iLocMax vLocMax (threshold this) ;;
  Ok (marks this ++ [ {| Mark.t := js_round_div stepIndex' (step o);
                         Mark.i := iLocMax;
                         Mark.v := vLocMax |} ],
      thr, engine).

(** The body of the [while] loop. *)
Definition process_frame (this : Codegen) (out : codes) : res (Codegen * codes) :=
  '(marks1, thr, engine) <- analyse this ;;
  let nm := Z.of_nat (length marks1) in
  let t0 := nm - pruningDt o - 1 in
  let marks2 := prune marks1 thr in
  out' <- generate_hashes marks2 t0 out ;;
  let marks3 := skipn (Z.to_nat (t0 + 1 - windowDt o)) marks2 in
  let thr' := map (fun x => (x + maskDecayLog o)%float) thr in
  Ok ({| options := options this;
         buffer := buffer this;
         bufferDelta := bufferDelta this;
         stepIndex := stepIndex this + step o;
         marks := marks3;
         threshold := thr';
         fft := engine |}, out').

(** [while ((stepIndex + nfft) * bps < buffer.length + bufferDelta)]. *)
Fixpoint frames_loop (fuel : nat) (this : Codegen) (out : codes)
  : res (Codegen * codes) :=
  if (stepIndex this + nfft o) * bps o
     <? Z.of_nat (length (buffer this)) + bufferDelta this
  then
    match fuel with
    | O => Err Diverges
    | S fuel' =>
        '(this', out') <- process_frame this out ;;
        frames_loop fuel' this' out'
    end
  else Ok (this, out).

(** [this.buffer = Buffer.concat([this.buffer, chunk])]. *)
Definition append_chunk (this : Codegen) (chunk : list Byte.byte) : Codegen :=
  {| options := options this;
     buffer := buffer this ++ chunk;
     bufferDelta := bufferDelta this;
     stepIndex := stepIndex this;
     marks := marks this;
     threshold := threshold this;
     fft := fft this |}.

(** The buffer drop at the end of a call, for a cap on the buffer size. *)
Definition compact (cap : Z) (this : Codegen) : Codegen :=
  if cap <? Z.of_nat (length (buffer this)) then
    let delta := Z.of_nat (length (buffer this)) - 20000 in
    {| options := options this;
       buffer := Buffer_slice (buffer this) delta;
       bufferDelta := bufferDelta this + delta;
       stepIndex := stepIndex this;
       marks := marks this;
       threshold := threshold this;
       fft := fft this |}
  else this.

(** The first part of a call of [_transform]: the chunk is appended and
    the loop runs, from empty [tcodes] and [hcodes].  A turn of the loop
    that completes has read two bytes of the buffer at the offset
    [stepIndex * bps - bufferDelta], which moves by [step * bps] from one
    turn to the next: no more than [buffer.length] turns complete when
    [step] and [bps] are not zero, and they are not in the options that
    [buildOptions] returns.  The loop is given one turn more. *)
Definition call_frames (this : Codegen) (chunk : list Byte.byte)
  : res (Codegen * codes) :=
  let this := append_chunk this chunk in
  let turns := S (length (buffer this)) in
  frames_loop turns this ([], []).

(** One call of [_transform], for a cap on the buffer size; the second
    component is the object pushed downstream, if any. *)
Definition transform_with (cap : Z) (this : Codegen) (chunk : list Byte.byte)
  : res (Codegen * option CodegenBuffer) :=
  '(this, out) <- call_frames this chunk ;;
  let this := compact cap this in
  Ok (this, pushed_of out).

End Fingerprinter.

(** [_transform(chunk, enc, next)]: the cap is 1,000,000 bytes. *)
Definition _transform (pf : Platform)
  (this : Codegen) (chunk : list Byte.byte)
  : res (Codegen * option CodegenBuffer) :=
  transform_with pf (options this) 1000000 this chunk.

(** A stream fed with successive chunks under a given cap: the objects
    pushed downstream, and the final state or the error that stopped the
    stream. *)
Fixpoint run_with (pf : Platform)
  (cap : Z) (this : Codegen) (chunks : list (list Byte.byte))
  : list CodegenBuffer * res Codegen :=
  match chunks with
  | [] => ([], Ok this)
  | chunk :: rest =>
      match transform_with pf (options this) cap this chunk with
      | Err e => ([], Err e)
      | Ok (this', pushed) =>
          let '(more, final) := run_with pf cap this' rest in
          (match pushed with Some b => b :: more | None => more end, final)
      end
  end.

Definition run (pf : Platform)
  : Codegen -> list (list Byte.byte) -> list CodegenBuffer * res Codegen :=
  run_with pf 1000000.

(** All timestamps and all hashes of a sequence of pushed objects. *)
Definition all_tcodes (bs : list CodegenBuffer) : list Z := flat_map tcodes bs.

(** ** Vocabulary of the statements *)

(** The states a fingerprinter goes through: the state left by the
    constructor, and the states after a chunk is appended to the buffer,
    after each turn of the [while] loop, and after the buffer drop. *)
Inductive reachable (pf : Platform) : Codegen -> Prop :=
| reach_new user st :
    constructor pf user = Ok st -> reachable pf st
| reach_append st chunk :
    reachable pf st ->
    reachable pf (append_chunk st chunk)
| reach_frame st out st' out' :
    reachable pf st ->
    process_frame pf (options st) st out = Ok (st', out') ->
    reachable pf st'
| reach_compact cap st :
    reachable pf st ->
    reachable pf (compact cap st).

(** The slot [j] of a record, as the pair (bin, magnitude). *)
Definition slot (m : Mark.mark) (j : Z) : binval * float :=
  (js_get NaNBin (Mark.i m) j, arr_get (Mark.v m) j).

(** The sizes the engine accepts. *)
Definition accepted_size (n : Z) : Prop := exists k, 1 <= k <= 30 /\ n = 2 ^ k.

(** The invariant of the counter [nFingers] of the pairing loops. *)
Definition counter_ok (o : CodegenOptions) (st : bool * Z * codes) : Prop :=
  0 <= snd (fst st)
  /\ (fst (fst st) = false -> snd (fst st) < mppp o)
  /\ (fst (fst st) = true -> snd (fst st) <= mppp o).

(** Two outputs, one after the other. *)
Definition codes_app (a b : codes) : codes := (fst a ++ fst b, snd a ++ snd b).

(** The state of the pairing loops with [out] put before its output. *)
Definition with_prefix (out : codes) (st : bool * Z * codes) : bool * Z * codes :=
  (fst (fst st), snd (fst st), codes_app out (snd st)).

(** The three fields packed in a hash, for [N = nfft]. *)
Definition bin_earlier (o : CodegenOptions) (h : Z) : Z := h mod (nfft o / 2).
Definition bin_later (o : CodegenOptions) (h : Z) : Z :=
  (h / (nfft o / 2)) mod (nfft o / 2).
Definition frameDelta (o : CodegenOptions) (h : Z) : Z :=
  h / ((nfft o / 2) * (nfft o / 2)).

Definition well_packed (o : CodegenOptions) (h : Z) : Prop :=
  0 <= frameDelta o h <= windowDt o
  /\ 0 <= bin_earlier o h < nfft o / 2
  /\ 0 <= bin_later o h < nfft o / 2
  /\ bin_earlier o h <> bin_later o h
  /\ Z.abs (bin_earlier o h - bin_later o h) < windowDf o.

(** A slot value is in the band when, if it is a bin index at all, it is
    one the local-maximum scan visits. *)
Definition in_band (o : CodegenOptions) (x : binval) : Prop :=
  match x with
  | Bin b => ifMin o < b < ifMax o - 1
  | _ => True
  end.

Definition marks_in_band (o : CodegenOptions) (marks : list Mark.mark) : Prop :=
  Forall (fun m => Forall (in_band o) (Mark.i m)) marks.

(** What the two tables of local maxima hold at a slot: a bin of the band
    with its magnitude, or no bin and a magnitude that is not above
    [-Infinity]. *)
Definition slot_ok (o : CodegenOptions) (b : binval) (x : float) : Prop :=
  match b with
  | Bin k => ifMin o < k < ifMax o - 1
  | NaNBin => js_gt x PrimFloat.neg_infinity = false
  | NegInfBin => False
  end.

(** A record without peaks: both tables empty. *)
Definition no_peak (m : Mark.mark) : Prop := Mark.i m = [] /\ Mark.v m = [].

(** A fingerprinter whose engine has no spectrum and whose history holds
    records without peaks only. *)
Definition mute (st : Codegen) : Prop :=
  FFT.spectrum (fft st) = None /\ Forall no_peak (marks st).

(** ** A reference platform

    One admissible choice for the implementation-approximated functions
    (series expansions, accurate to a few units in the last place on the
    arguments the program uses), so that the model runs on concrete
    inputs.  No theorem depends on this choice. *)

Module Reference.

Definition ln2 : float := 0x1.62e42fefa39efp-1%float.

(** [sum_{k < terms} t^(2k+1) / (2k+1)], from the highest term down. *)
Fixpoint atanh_series (terms : nat) (t2 : float) : float :=
  match terms with
  | O => 0%float
  | S k => (atanh_series k t2 * t2
            + 1 / Z2f (2 * Z.of_nat (12 - terms) + 1))%float
  end.

Definition log (x : float) : float :=
  if PrimFloat.is_nan x || PrimFloat.ltb x 0 then PrimFloat.nan
  else if PrimFloat.is_zero x then PrimFloat.neg_infinity
  else if PrimFloat.is_infinity x then PrimFloat.infinity
  else
    let '(m, e) := Z.frexp x in
    let '(m, e) := if PrimFloat.ltb m 0x1.6a09e667f3bcdp-1
                   then ((m * 2)%float, e - 1) else (m, e) in
    let t := ((m - 1) / (m + 1))%float in
    (Z2f e * ln2 + 2 * t * atanh_series 12 (t * t))%float.

(** Brings the argument into [-pi, pi] by whole turns. *)
Fixpoint reduce (fuel : nat) (x : float) : float :=
  match fuel with
  | O => x
  | S k =>
      if PrimFloat.ltb FFT.Math_PI x then reduce k (x - 2 * FFT.Math_PI)%float
      else if PrimFloat.ltb x (- FFT.Math_PI) then reduce k (x + 2 * FFT.Math_PI)%float
      else x
  end.

(** [sum_k (-1)^k x^(2k+s) / (2k+s)!] with [s = 0] (cosine) or [1] (sine),
    accumulated term by term. *)
Fixpoint trig_series (terms : nat) (k : Z) (term acc x2 : float) : float :=
  match terms with
  | O => acc
  | S n =>
      let term' := (- term * x2 / (Z2f (k + 1) * Z2f (k + 2)))%float in
      trig_series n (k + 2) term' (acc + term')%float x2
  end.

Definition cos (x : float) : float :=
  let r := reduce 4096 x in
  trig_series 16 0 1 1 (r * r)%float.

Definition sin (x : float) : float :=
  let r := reduce 4096 x in
  trig_series 16 1 r r (r * r)%float.

Definition platform : Platform :=
  {| Math_log := log; Math_cos := cos; Math_sin := sin |}.

(** The bytes of a sequence of 16-bit samples, little-endian. *)
Definition pcm16 (samples : list Z) : list Byte.byte :=
  flat_map (fun s =>
              let u := s mod 65536 in
              match Byte.of_N (Z.to_N (u mod 256)), Byte.of_N (Z.to_N (u / 256)) with
              | Some lo, Some hi => [lo; hi]
              | _, _ => []
              end)
           samples.

(** A small configuration and a short signal (a tone in bin 2 followed by
    a tone in bin 4, for frames of 16 samples), to run the model on. *)
Definition demo_options : CodegenUserOpts :=
  {| opt_verbose := None; opt_samplingRate := None; opt_bps := None;
     opt_mnlm := Some 2; opt_mppp := None; opt_nfft := Some 16;
     opt_step := None; opt_dt := None; opt_hwin := None;
     opt_maskDecayLog := None; opt_ifMin := None; opt_ifMax := None;
     opt_windowDf := None; opt_windowDt := Some 2; opt_pruningDt := Some 1;
     opt_maskDf := None; opt_eww := None |}.

Definition wave16 : list Z :=
  [10000; 9000; 7000; 4000; 0; -4000; -7000; -9000;
   -10000; -9000; -7000; -4000; 0; 4000; 7000; 9000].

Definition tone16 (bin count : Z) : list Z :=
  map (fun k => nth (Z.to_nat ((bin * k) mod 16)) wave16 0) (Zrange 0 count).

Definition demo_signal : list Byte.byte :=
  pcm16 (tone16 2 24 ++ tone16 4 200).

(** A configuration written out in full, with exactly representable
    coefficients, and a short history for it. *)
Definition small_config : CodegenOptions :=
  {| verbose := false; samplingRate := 22050; bps := 2; mnlm := 3; mppp := 3;
     nfft := 16; step := 8; dt := 0x1p-11%float;
     hwin := [0; 0.25; 0.5; 0.75; 1; 1; 1; 1; 1; 1; 1; 1; 0.75; 0.5; 0.25; 0]%float;
     maskDecayLog := (-0.0078125)%float;
     ifMin := 0; ifMax := 8; windowDf := 60; windowDt := 2; pruningDt := 1;
     maskDf := 3%float;
     eww := map (fun i => map (fun j => (-0.5 * Z2f ((j - i) * (j - i)))%float)
                              (Zrange 0 8))
                (Zrange 0 8) |}.

Definition small_marks : list Mark.mark :=
  [ {| Mark.t := 1; Mark.i := [Bin 2; Bin 5]; Mark.v := [8; 4]%float |};
    {| Mark.t := 2; Mark.i := [Bin 3; Bin 4; Bin 6]; Mark.v := [16; 2; 1]%float |} ].

Definition small_threshold : list float :=
  [0; 0; 0; 0; 1; 0; 0.5; 0]%float.

(** The same configuration with a band that holds no bin
    ([ifMin = ifMax = 8]): the frames of such a configuration never read
    the engine's spectrum. *)
Definition bandless_options : CodegenUserOpts :=
  {| opt_verbose := None; opt_samplingRate := None; opt_bps := None;
     opt_mnlm := Some 2; opt_mppp := None; opt_nfft := Some 16;
     opt_step := None; opt_dt := None; opt_hwin := None;
     opt_maskDecayLog := None; opt_ifMin := Some 8; opt_ifMax := None;
     opt_windowDf := None; opt_windowDt := Some 2; opt_pruningDt := Some 1;
     opt_maskDf := None; opt_eww := None |}.

(** Silence: [count] bytes, all zero. *)
Definition silence (count : Z) : list Byte.byte :=
  repeat Byte.x00 (Z.to_nat count).

(** A configuration whose frames (16 samples, one every 65,536 bytes)
    take more than the 1,000,000 bytes the buffer may hold at the end of
    a call. *)
Definition tall_options : CodegenUserOpts :=
  {| opt_verbose := None; opt_samplingRate := None; opt_bps := Some 65536;
     opt_mnlm := None; opt_mppp := None; opt_nfft := Some 16;
     opt_step := None; opt_dt := None; opt_hwin := None;
     opt_maskDecayLog := None; opt_ifMin := None; opt_ifMax := None;
     opt_windowDf := None; opt_windowDt := None; opt_pruningDt := None;
     opt_maskDf := None; opt_eww := None |}.

End Reference.

(** ** Vocabulary of the further properties *)

(** [k] frames have been processed. *)
Definition counted (o : CodegenOptions) (k : Z) (st : Codegen) : Prop :=
  0 <= k /\ stepIndex st = k * step o.

(** [k] frames have been processed and the history holds the records of
    the last ones, with the frame numbers for timestamps. *)
Definition stamped (o : CodegenOptions) (k : Z) (st : Codegen) : Prop :=
  counted o k st
  /\ Z.of_nat (length (marks st)) <= k
  /\ map Mark.t (marks st)
     = Zrange (k + 1 - Z.of_nat (length (marks st))) (k + 1).

(** The state between two calls: [T] bytes written, [k] frames processed,
    which are all the complete frames of these bytes. *)
Definition between_calls (o : CodegenOptions) (T k : Z) (st : Codegen) : Prop :=
  counted o k st
  /\ (k = 0 \/ ((k - 1) * step o + nfft o) * bps o < T)
  /\ ~ (k * step o + nfft o) * bps o < T
  /\ T = bufferDelta st + Z.of_nat (length (buffer st)).

(** Timestamps emitted so far, when [k] frames have been processed with
    a pruning delay of [p] frames: in increasing order, from [1] to
    [k - p]. *)
Definition ordered_stamps (p k : Z) (emitted : list Z) : Prop :=
  StronglySorted Z.le emitted /\ Forall (fun tc => 1 <= tc <= k - p) emitted.

(** A slot of a record of the history: a bin strictly inside the band
    with its magnitude, or the pair of sentinels left by pruning; never
    the initial [NaN]. *)
Definition slot_kept (o : CodegenOptions) (b : binval) (x : float) : Prop :=
  match b with
  | Bin k => ifMin o < k < ifMax o - 1
  | NegInfBin => x = PrimFloat.neg_infinity
  | NaNBin => False
  end.

(** A record of the history: two tables of the same length, at most
    [mnlm], slot by slot as above. *)
Definition record_ok (o : CodegenOptions) (m : Mark.mark) : Prop :=
  Forall2 (slot_kept o) (Mark.i m) (Mark.v m)
  /\ Z.of_nat (length (Mark.i m)) <= mnlm o.

(** [k] turns of the loop of [reverseBits] on exact integers. *)
Fixpoint reverse_steps (k : nat) (y x : Z) : Z :=
  match k with
  | O => y
  | S k' => reverse_steps k' (2 * y + x mod 2) (x / 2)
  end.

(** The array [a], from [a0], once the turns [i < k] of the permutation
    loop of an engine of size [2^levels] are done. *)
Definition permuted_upto (levels k : Z) (a0 a : list float) : Prop :=
  length a = length a0
  /\ forall m, 0 <= m < 2 ^ levels ->
       arr_get a m
       = if (m <? k) || (FFT.reverseBits m levels <? k)
         then arr_get a0 (FFT.reverseBits m levels) else arr_get a0 m.

(** A table of magnitudes in which no entry is greater than the one
    before it. *)
Definition descending (v : list float) : Prop :=
  forall j, 0 <= j -> j + 1 < Z.of_nat (length v) ->
    js_gt (arr_get v (j + 1)) (arr_get v j) = false.

(** [v'] is [v] with [x] inserted at slot [p], the slots from [p] on moved
    down by one and the last one dropped. *)
Definition placed (x : float) (p : Z) (v v' : list float) : Prop :=
  length v' = length v
  /\ (p = 0 \/ js_gt x (arr_get v (p - 1)) = false)
  /\ (forall m, p <= m -> m + 1 < Z.of_nat (length v) ->
        js_gt x (arr_get v m) = true)
  /\ forall m, 0 <= m < Z.of_nat (length v) ->
       arr_get v' m
       = if m <? p then arr_get v m else if m =? p then x else arr_get v (m - 1).

(** The same insertion in a table of any kind, read with [js_get]. *)
Definition placed_at {A : Type} (d x : A) (p : Z) (l l' : list A) : Prop :=
  length l' = length l
  /\ forall m, 0 <= m < Z.of_nat (length l) ->
       js_get d l' m
       = if m <? p then js_get d l m else if m =? p then x else js_get d l (m - 1).

(** A slot of the table of local maxima against the surface and the
    excess over the threshold it was read from: a bin holds a strict
    local maximum of the excess, with the value of the surface there. *)
Definition peak_of (spectrum diff : list float) (b : binval) (x : float) : Prop :=
  match b with
  | Bin k =>
      x = arr_get spectrum k
      /\ js_gt (arr_get diff k) (arr_get diff (k - 1)) = true
      /\ js_gt (arr_get diff k) (arr_get diff (k + 1)) = true
  | _ => True
  end.

(** The buffer of [st] holds the bytes of the stream [all] from
    [bufferDelta] on, and at least the last 20,000 of them once bytes
    have been dropped. *)
Definition holds_tail (all : list Byte.byte) (st : Codegen) : Prop :=
  0 <= bufferDelta st <= Z.of_nat (length all)
  /\ buffer st = skipn (Z.to_nat (bufferDelta st)) all
  /\ (0 < bufferDelta st -> 20000 <= Z.of_nat (length (buffer st))).

(** What the statements of the fingerprinter throw. *)
Definition thrown (e : exn) : Prop := e = RangeError \/ e = TypeError.

(** The entry [c] of a threshold is not below the entry [x] it comes
    from: it is NaN, or [x <= c]. *)
Definition raised (x c : float) : Prop :=
  PrimFloat.is_nan c = true \/ PrimFloat.leb x c = true.

(** The same for the entry [m], which changes only inside the band. *)
Definition raised_in (o : CodegenOptions) (x : float) (m : Z) (c : float) : Prop :=
  raised x c /\ (~ ifMin o <= m < ifMax o -> c = x).

(** An entry of the array of excesses: the value the loop writes at [m],
    or NaN where nothing was written. *)
Definition excess_at (pf : Platform) (spectrum threshold : list float) (m : Z)
  (x : float) : Prop :=
  x = Math_max
        (Math_log pf (Math_max 0x1.0c6f7a0b5ed8dp-20 (arr_get spectrum m))
         - arr_get threshold m)%float 0%float
  \/ PrimFloat.is_nan x = true.

(** The bin of a slot stands strictly above the threshold:
    [Math.log(Math.max(1e-6, spectrum[k])) - threshold[k] > 0]. *)
Definition above_threshold (pf : Platform) (spectrum threshold : list float)
  (b : binval) : Prop :=
  match b with
  | Bin k =>
      js_gt (Math_log pf (Math_max 0x1.0c6f7a0b5ed8dp-20 (arr_get spectrum k))
             - arr_get threshold k)%float 0%float = true
  | _ => True
  end.

(** The bins a table of slots holds, in order. *)
Definition bins_of (l : list binval) : list Z :=
  flat_map (fun b => match b with Bin k => [k] | _ => [] end) l.

(** The hash [h] pairs a peak of the record [m] (frame [t0] of the
    history) with a peak of a record at most [windowDt] frames earlier:
    two bins that differ, by less than [windowDf]. *)
Definition landmark (o : CodegenOptions) (marks : list Mark.mark) (t0 : Z)
  (m : Mark.mark) (h : Z) : Prop :=
  exists j m2 a b,
    Z.max 0 (t0 - windowDt o) <= j <= t0
    /\ nth_error marks (Z.to_nat j) = Some m2
    /\ In (Bin a) (Mark.i m)
    /\ In (Bin b) (Mark.i m2)
    /\ a <> b
    /\ Z.abs (b - a) < windowDf o
    /\ h = b + (nfft o / 2) * (a + (nfft o / 2) * (t0 - j)).

(** The hashes of the pairs that pass the test, for the anchor slot [i]
    of [m] against the slots of [m2], in the order of the loop. *)
Definition pairs_with (o : CodegenOptions) (m m2 : Mark.mark) (i delta : Z)
  : list Z :=
  flat_map (fun k =>
              let a := js_get NaNBin (Mark.i m) i in
              let b := js_get NaNBin (Mark.i m2) k in
              if bin_neq b a && bin_dist_lt b a (windowDf o)
              then [hash o b a delta] else [])
           (Zrange 0 (Z.of_nat (length (Mark.i m2)))).

(** The same over the frames of the window, from [t0] back. *)
Definition candidates (o : CodegenOptions) (marks : list Mark.mark) (t0 : Z)
  (m : Mark.mark) (i : Z) : list Z :=
  flat_map (fun j => pairs_with o m (nth (Z.to_nat j) marks m) i (t0 - j))
           (Zrange_down t0 (Z.max 0 (t0 - windowDt o))).

(** How many hashes an anchor slot gets at most: [mppp], and one when
    [mppp] is below one. *)
Definition fanout (o : CodegenOptions) : nat := Z.to_nat (Z.max 1 (mppp o)).

(** The state of the pairing loops of an anchor slot once the candidates
    [seen] have been met. *)
Definition scanned (o : CodegenOptions) (tc : Z) (seen : list Z)
  (st : bool * Z * codes) : Prop :=
  snd (snd st) = firstn (fanout o) seen
  /\ fst (snd st) = repeat tc (length (snd (snd st)))
  /\ snd (fst st) = Z.of_nat (length (snd (snd st)))
  /\ fst (fst st) = (fanout o <=? length seen)%nat.

(** A surface of eight bins and its excess over a threshold, for the
    table of local maxima of a frame under [Reference.small_config]. *)
Definition sample_surface : list float := [1; 5; 2; 7; 3; 6; 1; 0]%float.

Definition sample_excess : list float := [0; 4; 1; 6; 2; 5; 0; 0]%float.

(** Two arrays of eight numbers, for an engine of size [8]. *)
Definition sample_real : list float := [1; 2; 3; 4; 5; 6; 7; 8]%float.

Definition sample_imag : list float := [0; 1; 0; -1; 0; 1; 0; -1]%float.

(** The second record of [Reference.small_marks]. *)
Definition second_record : Mark.mark :=
  {| Mark.t := 2; Mark.i := [Bin 3; Bin 4; Bin 6]; Mark.v := [16; 2; 1]%float |}.

(** * Properties *)

Unset Implicit Arguments.

(** ** Loops, arrays and results *)

Lemma Zrange_length lo hi : length (Zrange lo hi) = Z.to_nat (hi - lo).
Proof. unfold Zrange. now rewrite length_map, length_seq. Qed.

Lemma Zrange_In lo hi i : In i (Zrange lo hi) <-> lo <= i < hi.
Proof.
  unfold Zrange. rewrite in_map_iff. split.
  - intros (k & <- & Hk). apply in_seq in Hk. lia.
  - intros H. exists (Z.to_nat (i - lo)). split; [lia|]. apply in_seq. lia.
Qed.

Lemma Zrange_down_In hi lo i : In i (Zrange_down hi lo) <-> lo <= i <= hi.
Proof.
  unfold Zrange_down. rewrite in_map_iff. split.
  - intros (k & <- & Hk). apply in_seq in Hk. lia.
  - intros H. exists (Z.to_nat (hi - i)). split; [lia|]. apply in_seq. lia.
Qed.

Lemma Zrange_nil lo hi : hi <= lo -> Zrange lo hi = [].
Proof.
  intros H. unfold Zrange. replace (Z.to_nat (hi - lo)) with 0%nat by lia.
  reflexivity.
Qed.

Lemma Zrange_cons lo hi : lo < hi -> Zrange lo hi = lo :: Zrange (lo + 1) hi.
Proof.
  intros H. unfold Zrange.
  replace (Z.to_nat (hi - lo)) with (S (Z.to_nat (hi - (lo + 1)))) by lia.
  cbn [seq map]. f_equal; [lia|].
  rewrite <- seq_shift, map_map. apply map_ext. intros k. lia.
Qed.

Lemma Zrange_snoc lo hi : lo <= hi -> Zrange lo (hi + 1) = Zrange lo hi ++ [hi].
Proof.
  intros H. unfold Zrange.
  replace (Z.to_nat (hi + 1 - lo)) with (Z.to_nat (hi - lo) + 1)%nat by lia.
  rewrite seq_app, map_app. cbn [seq map]. do 2 f_equal. lia.
Qed.

(** An invariant of a counting loop holds when it ends. *)
Lemma Zfor_invariant {S : Type} (P : S -> Prop) range (body : Z -> S -> S) s :
  P s -> (forall i s, In i range -> P s -> P (body i s)) -> P (Zfor range body s).
Proof.
  unfold Zfor. revert s.
  induction range as [|i range IH]; intros s Hs Hbody; cbn [fold_left]; [exact Hs|].
  apply IH.
  - apply Hbody; [now left | exact Hs].
  - intros j s' Hj. apply Hbody. now right.
Qed.

Lemma js_set_length_in {A : Type} (d : A) a i x :
  0 <= i < Z.of_nat (length a) -> length (js_set d a i x) = length a.
Proof.
  intros H. unfold js_set.
  destruct (Z.ltb_spec i 0); [lia|].
  destruct (Z.ltb_spec i (Z.of_nat (length a))); [|lia].
  rewrite length_app. cbn [length]. rewrite length_firstn, length_skipn. lia.
Qed.

Lemma js_get_set_same {A : Type} (d : A) a i x :
  0 <= i < Z.of_nat (length a) -> js_get d (js_set d a i x) i = x.
Proof.
  intros H. unfold js_get, js_set.
  destruct (Z.ltb_spec i 0); [lia|].
  destruct (Z.ltb_spec i (Z.of_nat (length a))); [|lia].
  rewrite app_nth2; rewrite length_firstn; [|lia].
  replace (Z.to_nat i - Nat.min (Z.to_nat i) (length a))%nat with 0%nat by lia.
  reflexivity.
Qed.

Lemma js_get_set_other {A : Type} (d : A) a i j x :
  0 <= i < Z.of_nat (length a) -> i <> j -> js_get d (js_set d a i x) j = js_get d a j.
Proof.
  intros H Hij. unfold js_get, js_set.
  destruct (Z.ltb_spec j 0); [reflexivity|].
  destruct (Z.ltb_spec i 0); [lia|].
  destruct (Z.ltb_spec i (Z.of_nat (length a))); [|lia].
  destruct (Z_lt_le_dec j i).
  - rewrite app_nth1 by (rewrite length_firstn; lia).
    rewrite nth_firstn.
    destruct (Nat.ltb_spec (Z.to_nat j) (Z.to_nat i)); [reflexivity | lia].
  - rewrite app_nth2; rewrite length_firstn; [|lia].
    replace (Nat.min (Z.to_nat i) (length a)) with (Z.to_nat i) by lia.
    replace (Z.to_nat j - Z.to_nat i)%nat with (S (Z.to_nat j - Z.to_nat i - 1))
      by lia.
    cbn [nth]. rewrite nth_skipn. f_equal. lia.
Qed.

Lemma bind_Ok {A B : Type} (m : res A) (k : A -> res B) b :
  bind m k = Ok b -> exists a, m = Ok a /\ k a = Ok b.
Proof. destruct m as [a|e]; cbn; [eauto | discriminate]. Qed.

(** ** The FFT engine *)

Lemma find_levels_cases n :
  (FFT.find_levels n = -1 /\ forall k, 0 <= k <= 30 -> n <> 2 ^ k)
  \/ (exists k, 0 <= k <= 30 /\ n = 2 ^ k /\ FFT.find_levels n = k)
  \/ (n = - 2 ^ 31 /\ FFT.find_levels n = 31).
Proof.
  unfold FFT.find_levels, Zfor.
  let l := eval vm_compute in (Zrange 0 32) in change (Zrange 0 32) with l.
  cbn [fold_left].
  repeat match goal with
         | |- context [to_int32 (Z.shiftl 1 ?i)] =>
             let c := eval vm_compute in (to_int32 (Z.shiftl 1 i)) in
             change (to_int32 (Z.shiftl 1 i)) with c
         end.
  repeat match goal with
         | |- context [Z.eqb ?c n] =>
             destruct (Z.eqb_spec c n) as [<-|?];
             [ first
                 [ right; right; split; reflexivity
                 | right; left;
                   match goal with
                   | |- exists k, _ /\ _ /\ ?chain = k =>
                       let x := eval vm_compute in chain in
                       exists x; split; [lia | split; reflexivity]
                   end ]
             | ]
         end.
  left. split; [reflexivity|].
  intros k Hk.
  assert (Hcase : k = 0 \/ k = 1 \/ k = 2 \/ k = 3 \/ k = 4 \/ k = 5 \/ k = 6
                  \/ k = 7 \/ k = 8 \/ k = 9 \/ k = 10 \/ k = 11 \/ k = 12
                  \/ k = 13 \/ k = 14 \/ k = 15 \/ k = 16 \/ k = 17 \/ k = 18
                  \/ k = 19 \/ k = 20 \/ k = 21 \/ k = 22 \/ k = 23 \/ k = 24
                  \/ k = 25 \/ k = 26 \/ k = 27 \/ k = 28 \/ k = 29 \/ k = 30)
    by lia.
  repeat (destruct Hcase as [->|Hcase]; [intros ->; cbn in *; congruence|]).
  subst k. intros ->. cbn in *. congruence.
Qed.

Section EngineFacts.

Variable pf : Platform.

Lemma pow2_bounds k : 1 <= k <= 30 -> 2 <= 2 ^ k <= 2 ^ 30 /\ 2 ^ k = 2 * 2 ^ (k - 1).
Proof.
  intros Hk. split; [split|].
  - change 2 with (2 ^ 1) at 1. apply Z.pow_le_mono_r; lia.
  - apply Z.pow_le_mono_r; lia.
  - rewrite <- Z.pow_succ_r by lia. f_equal. lia.
Qed.

Lemma find_levels_accepted k : 0 <= k <= 30 -> FFT.find_levels (2 ^ k) = k.
Proof.
  intros Hk.
  destruct (find_levels_cases (2 ^ k)) as [[_ H]|[(k' & Hk' & He & Hl)|[He _]]].
  - exfalso. now apply (H k).
  - apply Z.pow_inj_r in He; [congruence | lia | lia | lia].
  - pose proof (Z.pow_nonneg 2 k). lia.
Qed.

Lemma new_Array_half_accepted k :
  1 <= k <= 30 -> new_Array_half (2 ^ k) = Ok (2 ^ (k - 1)).
Proof.
  intros Hk. destruct (pow2_bounds k Hk) as [[H1 H2] H3].
  unfold new_Array_half, new_Array.
  rewrite Z.even_pow by lia. cbn [Z.even].
  replace (2 ^ k / 2) with (2 ^ (k - 1))
    by (rewrite H3, Z.mul_comm, Z.div_mul; lia).
  assert (0 < 2 ^ (k - 1)) by (apply Z.pow_pos_nonneg; lia).
  destruct (Z.leb_spec 0 (2 ^ (k - 1))); [|lia].
  destruct (Z.ltb_spec (2 ^ (k - 1)) (2 ^ 32)); [reflexivity|lia].
Qed.

(** What the constructor builds for an accepted size, memory permitting. *)
Lemma constructor_accepted k :
  1 <= k <= 30 ->
  FFT.constructor pf (2 ^ k)
  = Ok {| FFT.n := 2 ^ k;
          FFT.levels := k;
          FFT.cosTable := FFT.trig_table (Math_cos pf) (2 ^ k) (2 ^ (k - 1));
          FFT.sinTable := FFT.trig_table (Math_sin pf) (2 ^ k) (2 ^ (k - 1));
          FFT.spectrum := None;
          FFT.peakBand := 0;
          FFT.peak := 0 |}.
Proof.
  intros Hk. unfold FFT.constructor.
  rewrite find_levels_accepted by lia.
  destruct (Z.eqb_spec k (-1)); [lia|].
  rewrite new_Array_half_accepted by lia. reflexivity.
Qed.

Lemma constructor_Ok_inv n this :
  FFT.constructor pf n = Ok this ->
  exists k, 1 <= k <= 30 /\ n = 2 ^ k /\ FFT.n this = n /\ FFT.levels this = k
            /\ FFT.spectrum this = None.
Proof.
  intros H.
  destruct (find_levels_cases n) as [[Hl _]|[(k & Hk & -> & Hl)|[-> Hl]]].
  - unfold FFT.constructor in H. rewrite Hl in H. discriminate.
  - destruct (Z.eq_dec k 0) as [->|Hk0].
    + vm_compute in H. discriminate.
    + rewrite constructor_accepted in H by lia. injection H as <-.
      exists k. cbn. repeat split; lia.
  - vm_compute in H. discriminate.
Qed.


(** What the two allocations of the constructors throw. *)
Lemma new_Array_Err len e : new_Array len = Err e -> e = RangeError.
Proof. unfold new_Array. destruct (_ && _); congruence. Qed.

Lemma new_Array_half_Err n e : new_Array_half n = Err e -> e = RangeError.
Proof.
  unfold new_Array_half. destruct (Z.even n); [apply new_Array_Err|congruence].
Qed.

(** What the constructor throws. *)
Lemma constructor_Err_inv n e :
  FFT.constructor pf n = Err e ->
  e = RangeError \/ e = ThrownString "Length is not a power of 2".
Proof.
  unfold FFT.constructor. intros E.
  destruct (FFT.find_levels n =? -1); [injection E as <-; now right|].
  destruct (new_Array_half n) as [len|e0] eqn:Ea; cbn [bind] in E;
    [discriminate|].
  injection E as <-. left. exact (new_Array_half_Err _ _ Ea).
Qed.


End EngineFacts.


(** C3.  On the engine of size 2, [forward] turns [(1, 0)] into its
    transform [(1, 1)], and [spectrum], which no statement of the engine
    assigns, is still [undefined] afterwards. *)
Theorem forward_leaves_spectrum_undefined :
  exists this,
    FFT.constructor Reference.platform 2 = Ok this
    /\ FFT.forward this [1; 0]%float [0; 0]%float
       = (this, ([1; 1]%float, [0; 0]%float))
    /\ FFT.spectrum (fst (FFT.forward this [1; 0]%float [0; 0]%float)) = None.
Proof.
  eexists. split; [vm_compute; reflexivity|].
  split; vm_compute; reflexivity.
Qed.

(** ** The threshold array *)

Section ThresholdFacts.

Variable pf : Platform.

Lemma constructor_inv (user : CodegenUserOpts) (st : Codegen) :
  constructor pf user = Ok st ->
  buildOptions pf user = Ok (options st)
  /\ FFT.constructor pf (nfft (options st)) = Ok (fft st)
  /\ buffer st = [] /\ bufferDelta st = 0 /\ stepIndex st = 0 /\ marks st = []
  /\ threshold st = repeat (-3)%float (Z.to_nat (nfft (options st))).
Proof.
  unfold constructor. intros H.
  apply bind_Ok in H as (opts & Hopts & H).
  apply bind_Ok in H as (len & Hlen & H).
  apply bind_Ok in H as (engine & Hengine & H).
  injection H as <-. cbn.
  unfold new_Array in Hlen.
  destruct ((0 <=? nfft opts) && (nfft opts <? 2 ^ 32)); [|discriminate].
  injection Hlen as <-. repeat split; auto.
Qed.

(** The constructor allocates [nfft] entries, whatever the options. *)
Lemma constructor_threshold_length (user : CodegenUserOpts) (st : Codegen) :
  constructor pf user = Ok st ->
  Z.of_nat (length (threshold st)) = nfft (options st).
Proof.
  intros H.
  destruct (constructor_inv user st H) as (_ & Hfft & _ & _ & _ & _ & ->).
  destruct (constructor_Ok_inv pf _ _ Hfft) as (k & Hk & Hn & _).
  rewrite repeat_length. pose proof (Z.pow_nonneg 2 k). lia.
Qed.

End ThresholdFacts.

(** C4.  With the default options ([nfft = 512]) the threshold array built
    by the constructor has 512 entries, not [nfft / 2 = 256]. *)
Theorem threshold_length_is_nfft :
  match constructor Reference.platform no_options with
  | Ok st =>
      nfft (options st) = 512
      /\ length (threshold st) = 512%nat
      /\ length (threshold st) <> Z.to_nat (nfft (options st) / 2)
  | Err _ => False
  end.
Proof. vm_compute. repeat split. discriminate. Qed.

(** ** The history of peak records *)

Section HistoryFacts.

Variable pf : Platform.

Lemma modify_length {A : Type} (a : list A) i f : length (modify a i f) = length a.
Proof.
  unfold modify. destruct (nth_error a (Z.to_nat i)) eqn:E; [|reflexivity].
  assert (Z.to_nat i < length a)%nat by (apply nth_error_Some; congruence).
  rewrite length_app. cbn [length]. rewrite length_firstn, length_skipn. lia.
Qed.

Lemma prune_length o marks thr : length (prune pf o marks thr) = length marks.
Proof.
  unfold prune. apply Zfor_invariant with (P := fun l => length l = length marks).
  - reflexivity.
  - intros i l _ Hl. now rewrite modify_length.
Qed.

(** [forward] writes to the two arrays only: the engine that [analyse]
    goes on with is the one of the fingerprinter. *)
Lemma analyse_inv o this marks1 thr engine :
  analyse pf o this = Ok (marks1, thr, engine) ->
  exists data diff iL vL iL' vL',
    window_data o this = Ok data
    /\ scale_spectrum o (fft this) = Ok engine
    /\ positive_diff pf o (spectrum_of engine) (threshold this) = Ok diff
    /\ local_maxima o (spectrum_of engine) diff = Ok (iL, vL)
    /\ update_threshold pf o (Zrange 0 (mnlm o)) (spectrum_of engine) iL vL
         (threshold this) = Ok (iL', vL', thr)
    /\ marks1
       = marks this
         ++ [ {| Mark.t := js_round_div (stepIndex this + step o) (step o);
                 Mark.i := iL'; Mark.v := vL' |} ].
Proof.
  unfold analyse. intros H.
  apply bind_Ok in H as (data & Hdata & H).
  unfold FFT.forward in H.
  apply bind_Ok in H as (engine' & Hs & H).
  apply bind_Ok in H as (diff & Hd & H).
  apply bind_Ok in H as ([iL vL] & Hl & H).
  apply bind_Ok in H as ([[iL' vL'] thr'] & Hu & H).
  injection H as <- <- <-.
  exists data, diff, iL, vL, iL', vL'. repeat split; assumption.
Qed.

Lemma analyse_pushes o this marks1 thr engine :
  analyse pf o this = Ok (marks1, thr, engine) ->
  exists m, marks1 = marks this ++ [m].
Proof.
  intros H. apply analyse_inv in H as (? & ? & ? & ? & ? & ? & H).
  destruct H as (_ & _ & _ & _ & _ & ->). eauto.
Qed.

Lemma process_frame_inv o this out this' out' :
  process_frame pf o this out = Ok (this', out') ->
  exists marks1 thr engine,
    analyse pf o this = Ok (marks1, thr, engine)
    /\ generate_hashes o (prune pf o marks1 thr)
         (Z.of_nat (length marks1) - pruningDt o - 1) out = Ok out'
    /\ options this' = options this
    /\ buffer this' = buffer this
    /\ bufferDelta this' = bufferDelta this
    /\ stepIndex this' = stepIndex this + step o
    /\ marks this'
       = skipn (Z.to_nat (Z.of_nat (length marks1) - pruningDt o - 1 + 1 - windowDt o))
               (prune pf o marks1 thr)
    /\ threshold this' = map (fun x => (x + maskDecayLog o)%float) thr
    /\ fft this' = engine.
Proof.
  unfold process_frame. intros H.
  apply bind_Ok in H as ([[marks1 thr] engine] & Ha & H).
  apply bind_Ok in H as (out1 & Hg & H).
  injection H as <- <-. exists marks1, thr, engine. cbn. repeat split; auto.
Qed.

Lemma process_frame_marks_length o this out this' out' :
  0 <= pruningDt o -> 0 <= windowDt o ->
  process_frame pf o this out = Ok (this', out') ->
  Z.of_nat (length (marks this'))
  = Z.min (Z.of_nat (length (marks this)) + 1) (windowDt o + pruningDt o).
Proof.
  intros Hp Hw H.
  apply process_frame_inv in H
    as (marks1 & thr & engine & Ha & _ & _ & _ & _ & _ & -> & _).
  apply analyse_pushes in Ha as (m & ->).
  rewrite length_skipn, prune_length, length_app. cbn [length]. lia.
Qed.

Lemma reachable_marks_length st :
  reachable pf st ->
  0 <= pruningDt (options st) -> 0 <= windowDt (options st) ->
  Z.of_nat (length (marks st)) <= windowDt (options st) + pruningDt (options st).
Proof.
  induction 1 as [user st Hc|st chunk Hr IH|st out st' out' Hr IH Hf|cap st Hr IH];
    intros Hp Hw.
  - apply constructor_inv in Hc as (_ & _ & _ & _ & _ & -> & _). cbn. lia.
  - cbn. auto.
  - pose proof (process_frame_inv _ _ _ _ _ Hf) as (_ & _ & _ & _ & _ & Ho & _).
    rewrite Ho in *.
    rewrite (process_frame_marks_length _ _ _ _ _ Hp Hw Hf). lia.
  - unfold compact in *.
    destruct (cap <? Z.of_nat (length (buffer st))); cbn in *; auto.
Qed.

(** C6.  In every state the fingerprinter goes through (after every turn
    of the frame loop and at the end of every call) the history holds at
    most [windowDt + pruningDt] records, and so at most
    [windowDt + pruningDt + 1]; the one moment it is longer is right
    after the push of a new record, where it holds at most
    [windowDt + pruningDt + 1]. *)
Theorem marks_bounded st :
  reachable pf st ->
  0 <= pruningDt (options st) -> 0 <= windowDt (options st) ->
  Z.of_nat (length (marks st)) <= windowDt (options st) + pruningDt (options st) + 1
  /\ forall marks1 thr engine,
       analyse pf (options st) st = Ok (marks1, thr, engine) ->
       Z.of_nat (length marks1)
       <= windowDt (options st) + pruningDt (options st) + 1.
Proof.
  intros Hr Hp Hw.
  pose proof (reachable_marks_length st Hr Hp Hw) as Hlen.
  split; [lia|].
  intros marks1 thr engine Ha. apply analyse_pushes in Ha as (m & ->).
  rewrite length_app. cbn [length]. lia.
Qed.

End HistoryFacts.

(** ** Calls and runs stay among the reachable states *)

Section Runs.

Variable pf : Platform.

Lemma frames_loop_inv fuel st out st' out' :
  frames_loop pf (options st) fuel st out = Ok (st', out') ->
  reachable pf st ->
  reachable pf st' /\ options st' = options st.
Proof.
  revert st out. induction fuel as [|fuel IH]; intros st out H Hr; cbn in H.
  - destruct (_ <? _); [discriminate|]. injection H as <- _. auto.
  - destruct (_ <? _); [|injection H as <- _; auto].
    apply bind_Ok in H as ([st1 out1] & Hf & H).
    pose proof (process_frame_inv _ _ _ _ _ _ Hf) as (_ & _ & _ & _ & _ & Ho & _).
    rewrite <- Ho in H. apply IH in H as [H1 H2].
    + split; [exact H1 | congruence].
    + eapply reach_frame; eauto.
Qed.

Lemma transform_with_inv cap st chunk st' pushed :
  transform_with pf (options st) cap st chunk = Ok (st', pushed) ->
  reachable pf st ->
  reachable pf st' /\ options st' = options st.
Proof.
  unfold transform_with, call_frames. intros H Hr.
  apply bind_Ok in H as ([st1 out1] & Hl & H). injection H as <- _.
  change (options st) with (options (append_chunk st chunk)) in Hl.
  apply frames_loop_inv in Hl as [H1 H2]; [|now apply reach_append].
  split.
  - now apply reach_compact.
  - unfold compact. destruct (_ <? _); exact H2.
Qed.

Lemma run_with_reachable cap st chunks pushed st' :
  run_with pf cap st chunks = (pushed, Ok st') ->
  reachable pf st ->
  reachable pf st' /\ options st' = options st.
Proof.
  revert st pushed. induction chunks as [|chunk rest IH]; intros st pushed H Hr;
    cbn in H.
  - injection H as _ <-. auto.
  - destruct (transform_with _ _ _ _ _) as [[st1 p1]|e] eqn:Ht; [|discriminate].
    apply transform_with_inv in Ht as [H1 H2]; [|exact Hr].
    destruct (run_with _ _ st1 rest) as [more final] eqn:Hrun.
    injection H as _ ->.
    apply IH in Hrun as [H3 H4]; [|exact H1].
    split; [exact H3 | congruence].
Qed.

End Runs.

(** The bound of C6 on a run: the demonstration signal, fed in two chunks
    to a fingerprinter whose band holds no bin. *)
Lemma marks_bounded_witness :
  match constructor Reference.platform Reference.bandless_options with
  | Ok st0 =>
      match run Reference.platform st0
                [firstn 100 Reference.demo_signal; skipn 100 Reference.demo_signal]
      with
      | (_, Ok st) =>
          Z.of_nat (length (marks st))
          <= windowDt (options st) + pruningDt (options st) + 1
          /\ forall marks1 thr engine,
               analyse Reference.platform (options st) st
               = Ok (marks1, thr, engine) ->
               Z.of_nat (length marks1)
               <= windowDt (options st) + pruningDt (options st) + 1
      | (_, Err _) => False
      end
  | Err _ => False
  end.
Proof.
  destruct (constructor Reference.platform Reference.bandless_options)
    as [st0|e] eqn:E0; [|vm_compute in E0; discriminate].
  destruct (run _ st0 _) as [pushed [st|e]] eqn:R.
  - destruct (run_with_reachable _ _ _ _ _ _ R (@reach_new _ _ _ E0)) as [Hr Ho].
    apply marks_bounded; [exact Hr | |]; rewrite Ho;
      vm_compute in E0; injection E0 as <-; vm_compute; discriminate.
  - vm_compute in E0. injection E0 as <-. vm_compute in R. discriminate.
Defined.

(** ** Pruning *)

Section PruneFacts.

Variable pf : Platform.
Variable o : CodegenOptions.

Lemma Zfor_app {S : Type} (r1 r2 : list Z) (body : Z -> S -> S) s :
  Zfor (r1 ++ r2) body s = Zfor r2 body (Zfor r1 body s).
Proof. unfold Zfor. apply fold_left_app. Qed.

(** What the loop of [prune_mark] has done after its first [k] turns. *)
Lemma prune_mark_prefix thr age m (k : nat) :
  length (Mark.i m) = length (Mark.v m) ->
  (k <= length (Mark.v m))%nat ->
  let m' :=
    Zfor (Zrange 0 (Z.of_nat k))
         (fun j m =>
            if prune_test pf o thr age (js_get NaNBin (Mark.i m) j)
                          (arr_get (Mark.v m) j)
            then {| Mark.t := Mark.t m;
                    Mark.i := js_set NaNBin (Mark.i m) j NegInfBin;
                    Mark.v := arr_set (Mark.v m) j PrimFloat.neg_infinity |}
            else m) m in
  Mark.t m' = Mark.t m
  /\ length (Mark.i m') = length (Mark.i m)
  /\ length (Mark.v m') = length (Mark.v m)
  /\ forall j, 0 <= j ->
       slot m' j
       = if (j <? Z.of_nat k)
            && prune_test pf o thr age (fst (slot m j)) (snd (slot m j))
         then (NegInfBin, PrimFloat.neg_infinity)
         else slot m j.
Proof.
  intros Hlen. induction k as [|k IH]; intros Hk m'.
  - subst m'. cbn. repeat split; auto.
    intros j Hj. destruct (Z.ltb_spec j 0); [lia|reflexivity].
  - subst m'. rewrite Nat2Z.inj_succ, <- Z.add_1_r, Zrange_snoc, Zfor_app by lia.
    specialize (IH ltac:(lia)). cbv zeta in IH.
    set (mk := Zfor (Zrange 0 (Z.of_nat k)) _ m) in *.
    destruct IH as (Ht & Hi & Hv & Hs).
    cbn [Zfor fold_left].
    assert (Hsk : slot mk (Z.of_nat k) = slot m (Z.of_nat k)).
    { rewrite Hs by lia. destruct (Z.ltb_spec (Z.of_nat k) (Z.of_nat k)); [lia|].
      reflexivity. }
    unfold slot in Hsk. injection Hsk as Hbk Hxk. rewrite Hbk, Hxk.
    destruct (prune_test pf o thr age _ _) eqn:Ht'.
    + cbn [Mark.t Mark.i Mark.v]. unfold arr_set.
      rewrite !js_set_length_in by lia.
      repeat split; auto.
      intros j Hj. unfold slot at 1. cbn [Mark.i Mark.v]. unfold arr_get.
      destruct (Z.eq_dec j (Z.of_nat k)) as [->|Hne].
      * rewrite !js_get_set_same by lia.
        destruct (Z.ltb_spec (Z.of_nat k) (Z.of_nat k + 1)); [|lia].
        unfold slot. cbn [fst snd andb]. now rewrite Ht'.
      * rewrite !js_get_set_other by lia.
        specialize (Hs j Hj). unfold slot at 1 in Hs. unfold arr_get in Hs.
        rewrite Hs.
        destruct (Z.ltb_spec j (Z.of_nat k)), (Z.ltb_spec j (Z.of_nat k + 1));
          try lia; reflexivity.
    + repeat split; auto.
      intros j Hj. rewrite Hs by lia.
      destruct (Z.eq_dec j (Z.of_nat k)) as [->|Hne].
      * destruct (Z.ltb_spec (Z.of_nat k) (Z.of_nat k)); [lia|].
        destruct (Z.ltb_spec (Z.of_nat k) (Z.of_nat k + 1)); [|lia].
        unfold slot. cbn [fst snd andb]. now rewrite Ht'.
      * destruct (Z.ltb_spec j (Z.of_nat k)), (Z.ltb_spec j (Z.of_nat k + 1));
          try lia; reflexivity.
Qed.

(** Pruning a record: each slot on its own. *)
Lemma prune_mark_slots thr age m :
  length (Mark.i m) = length (Mark.v m) ->
  Mark.t (prune_mark pf o thr age m) = Mark.t m
  /\ length (Mark.i (prune_mark pf o thr age m)) = length (Mark.i m)
  /\ length (Mark.v (prune_mark pf o thr age m)) = length (Mark.v m)
  /\ forall j, 0 <= j < Z.of_nat (length (Mark.v m)) ->
       slot (prune_mark pf o thr age m) j
       = if prune_test pf o thr age (fst (slot m j)) (snd (slot m j))
         then (NegInfBin, PrimFloat.neg_infinity)
         else slot m j.
Proof.
  intros Hlen.
  destruct (prune_mark_prefix thr age m (length (Mark.v m)) Hlen (le_n _))
    as (Ht & Hi & Hv & Hs).
  unfold prune_mark. repeat split; auto.
  intros j Hj. rewrite Hs by lia.
  destruct (Z.ltb_spec j (Z.of_nat (length (Mark.v m)))); [reflexivity|lia].
Qed.

Lemma modify_nth_error {A : Type} (a : list A) i f (j : nat) :
  0 <= i ->
  nth_error (modify a i f) j
  = if Nat.eqb j (Z.to_nat i) then option_map f (nth_error a j) else nth_error a j.
Proof.
  intros Hi. unfold modify.
  destruct (nth_error a (Z.to_nat i)) as [x|] eqn:E.
  - assert (Hlt : (Z.to_nat i < length a)%nat) by (apply nth_error_Some; congruence).
    destruct (Nat.eqb_spec j (Z.to_nat i)) as [->|Hne].
    + rewrite E. cbn. rewrite nth_error_app2; rewrite length_firstn; [|lia].
      replace (Z.to_nat i - Nat.min (Z.to_nat i) (length a))%nat with 0%nat by lia.
      reflexivity.
    + destruct (Nat.lt_ge_cases j (Z.to_nat i)).
      * rewrite nth_error_app1 by (rewrite length_firstn; lia).
        rewrite nth_error_firstn.
        destruct (Nat.ltb_spec j (Z.to_nat i)); [reflexivity | lia].
      * rewrite nth_error_app2; rewrite length_firstn; [|lia].
        replace (Nat.min (Z.to_nat i) (length a)) with (Z.to_nat i) by lia.
        replace (j - Z.to_nat i)%nat with (S (j - Z.to_nat i - 1)) by lia.
        cbn [nth_error]. rewrite nth_error_skipn. f_equal. lia.
  - destruct (Nat.eqb_spec j (Z.to_nat i)) as [->|Hne]; [|reflexivity].
    now rewrite E.
Qed.

Lemma Zrange_down_cons hi lo :
  lo <= hi -> Zrange_down hi lo = hi :: Zrange_down (hi - 1) lo.
Proof.
  intros H. unfold Zrange_down.
  replace (Z.to_nat (hi - lo + 1)) with (S (Z.to_nat (hi - 1 - lo + 1))) by lia.
  cbn [seq map]. f_equal; [lia|].
  rewrite <- seq_shift, map_map. apply map_ext. intros k. lia.
Qed.

Lemma Zrange_down_nil hi lo : hi < lo -> Zrange_down hi lo = [].
Proof.
  intros H. unfold Zrange_down.
  replace (Z.to_nat (hi - lo + 1)) with 0%nat by lia. reflexivity.
Qed.

(** The loop over the frames [hi, hi - 1, ..., lo]. *)
Lemma prune_loop_nth_error thr nm lo (count : nat) :
  0 <= lo ->
  forall hi marks (k : nat),
    Z.to_nat (hi - lo + 1) = count ->
    nth_error
      (Zfor (Zrange_down hi lo)
            (fun i marks => modify marks i (prune_mark pf o thr (nm - 1 - i)))
            marks) k
    = option_map
        (fun m => if (lo <=? Z.of_nat k) && (Z.of_nat k <=? hi)
                  then prune_mark pf o thr (nm - 1 - Z.of_nat k) m else m)
        (nth_error marks k).
Proof.
  intros Hlo. induction count as [|count IH]; intros hi marks k Hc.
  - rewrite Zrange_down_nil by lia. cbn.
    destruct (Z.leb_spec lo (Z.of_nat k)), (Z.leb_spec (Z.of_nat k) hi);
      try lia; cbn; now destruct (nth_error marks k).
  - rewrite Zrange_down_cons by lia. cbn [Zfor fold_left].
    change (fold_left _ (Zrange_down (hi - 1) lo) ?s)
      with (Zfor (Zrange_down (hi - 1) lo)
                 (fun i marks => modify marks i (prune_mark pf o thr (nm - 1 - i))) s).
    rewrite IH by lia. rewrite modify_nth_error by lia.
    destruct (Nat.eqb_spec k (Z.to_nat hi)) as [->|Hne].
    + rewrite Z2Nat.id by lia.
      destruct (Z.leb_spec lo hi), (Z.leb_spec hi (hi - 1)), (Z.leb_spec hi hi);
        try lia.
      cbn. now destruct (nth_error marks (Z.to_nat hi)).
    + destruct (Z.leb_spec lo (Z.of_nat k)), (Z.leb_spec (Z.of_nat k) (hi - 1)),
        (Z.leb_spec (Z.of_nat k) hi); try lia; reflexivity.
Qed.

(** C5.  With [nm] records in the history and [t0 = nm - pruningDt - 1],
    pruning turns the slot [j] of every frame [i] in
    [[max(t0 + 1, 0), nm - 1]] into the pair of sentinels exactly when its
    bin is not [0] and [log(magnitude) < threshold[bin] + maskDecayLog *
    (nm - 1 - i)], and leaves it as it was otherwise; a slot whose bin is
    [0] is therefore never changed. *)
Theorem prune_slot_spec marks thr i j m :
  nth_error marks (Z.to_nat i) = Some m ->
  length (Mark.i m) = length (Mark.v m) ->
  Z.max (Z.of_nat (length marks) - pruningDt o - 1 + 1) 0 <= i
    <= Z.of_nat (length marks) - 1 ->
  0 <= j < Z.of_nat (length (Mark.v m)) ->
  exists m',
    nth_error (prune pf o marks thr) (Z.to_nat i) = Some m'
    /\ slot m' j
       = (if bin_neq (fst (slot m j)) (Bin 0)
             && js_lt (Math_log pf (snd (slot m j)))
                      (bin_get thr (fst (slot m j))
                       + maskDecayLog o * Z2f (Z.of_nat (length marks) - 1 - i))%float
          then (NegInfBin, PrimFloat.neg_infinity)
          else slot m j)
    /\ (fst (slot m j) = Bin 0 -> slot m' j = slot m j).
Proof.
  intros Hm Hlen Hi Hj.
  exists (prune_mark pf o thr (Z.of_nat (length marks) - 1 - i) m).
  assert (Hslot := prune_mark_slots thr (Z.of_nat (length marks) - 1 - i) m Hlen).
  destruct Hslot as (_ & _ & _ & Hs). specialize (Hs j Hj).
  split; [|split].
  - unfold prune.
    rewrite (prune_loop_nth_error thr (Z.of_nat (length marks)) _
               (Z.to_nat (Z.of_nat (length marks) - 1
                          - Z.max (Z.of_nat (length marks) - pruningDt o - 1 + 1) 0 + 1)))
      by lia.
    rewrite Hm. cbn [option_map]. rewrite Z2Nat.id by lia.
    destruct (Z.leb_spec (Z.max (Z.of_nat (length marks) - pruningDt o - 1 + 1) 0) i),
      (Z.leb_spec i (Z.of_nat (length marks) - 1)); try lia.
    reflexivity.
  - exact Hs.
  - intros Hb. rewrite Hs. unfold prune_test. rewrite Hb. reflexivity.
Qed.

End PruneFacts.

(** ** Landmark pairs *)

Section HashFacts.

Variable o : CodegenOptions.

Lemma Zfor_commute {S T : Type} (h : S -> T) range
  (bodyS : Z -> S -> S) (bodyT : Z -> T -> T) s :
  (forall k s, In k range -> bodyT k (h s) = h (bodyS k s)) ->
  Zfor range bodyT (h s) = h (Zfor range bodyS s).
Proof.
  unfold Zfor. revert s.
  induction range as [|k range IH]; intros s H; cbn [fold_left]; [reflexivity|].
  rewrite H by now left. apply IH. intros k' s' Hk'. apply H. now right.
Qed.

Lemma codes_app_nil_l out : codes_app ([], []) out = out.
Proof. now destruct out. Qed.

Lemma codes_app_nil_r out : codes_app out ([], []) = out.
Proof. destruct out. unfold codes_app. cbn. now rewrite !app_nil_r. Qed.

Lemma codes_app_assoc a b c :
  codes_app (codes_app a b) c = codes_app a (codes_app b c).
Proof. unfold codes_app. cbn. now rewrite !app_assoc. Qed.

Lemma push_code_app out new tc hc :
  push_code (codes_app out new) tc hc = codes_app out (push_code new tc hc).
Proof. unfold push_code, codes_app. cbn. now rewrite !app_assoc. Qed.

Lemma pair_frame_prefix m m2 i delta out st :
  pair_frame o m m2 i delta (with_prefix out st)
  = with_prefix out (pair_frame o m m2 i delta st).
Proof.
  unfold pair_frame. apply Zfor_commute.
  intros k [[stop n] new] _. unfold with_prefix. cbn [fst snd].
  destruct stop; [reflexivity|].
  destruct (bin_neq _ _ && bin_dist_lt _ _ _); [|reflexivity].
  now rewrite push_code_app.
Qed.

Lemma pair_anchor_prefix marks t0 m i out :
  pair_anchor o marks t0 m i out
  = codes_app out (pair_anchor o marks t0 m i ([], [])).
Proof.
  unfold pair_anchor.
  replace (false, 0, out) with (with_prefix out (false, 0, ([], [])))
    by (unfold with_prefix; cbn [fst snd]; now rewrite codes_app_nil_r).
  rewrite Zfor_commute with (bodyS := fun j (st : bool * Z * codes) =>
     if fst (fst st) then st
     else pair_frame o m (nth (Z.to_nat j) marks m) i (t0 - j) st).
  - reflexivity.
  - intros j [[stop n] new] _. cbn [with_prefix fst snd].
    destruct stop; [reflexivity|].
    apply (pair_frame_prefix m _ i (t0 - j) out (false, n, new)).
Qed.

Lemma anchors_prefix marks t0 m range out :
  Zfor range (fun i out => pair_anchor o marks t0 m i out) out
  = codes_app out
      (Zfor range (fun i out => pair_anchor o marks t0 m i out) ([], [])).
Proof.
  rewrite <- (codes_app_nil_r out) at 1.
  apply Zfor_commute with (h := codes_app out).
  intros i new _.
  rewrite (pair_anchor_prefix _ _ _ _ (codes_app out new)).
  rewrite (pair_anchor_prefix _ _ _ _ new).
  apply codes_app_assoc.
Qed.

Lemma generate_hashes_prefix marks t0 out :
  generate_hashes o marks t0 out
  = match generate_hashes o marks t0 ([], []) with
    | Ok new => Ok (codes_app out new)
    | Err e => Err e
    end.
Proof.
  unfold generate_hashes. destruct (0 <=? t0).
  - destruct (nth_error marks (Z.to_nat t0)) as [m|]; [|reflexivity].
    f_equal. apply anchors_prefix.
  - now rewrite codes_app_nil_r.
Qed.

Ltac splits := repeat match goal with |- _ /\ _ => split end.

(** What one pass over the slots of [m2] adds to the output: timestamps
    of [m], and hashes of pairs that passed the test. *)
Lemma pair_frame_emits (Q : Z -> Prop) m m2 i delta st :
  (forall k, 0 <= k < Z.of_nat (length (Mark.i m2)) ->
     bin_neq (js_get NaNBin (Mark.i m2) k) (js_get NaNBin (Mark.i m) i)
     && bin_dist_lt (js_get NaNBin (Mark.i m2) k) (js_get NaNBin (Mark.i m) i)
                    (windowDf o) = true ->
     Q (hash o (js_get NaNBin (Mark.i m2) k) (js_get NaNBin (Mark.i m) i) delta)) ->
  exists nt nh,
    snd (pair_frame o m m2 i delta st) = codes_app (snd st) (nt, nh)
    /\ length nt = length nh
    /\ snd (fst (pair_frame o m m2 i delta st))
       = snd (fst st) + Z.of_nat (length nh)
    /\ Forall Q nh
    /\ Forall (eq (Mark.t m)) nt
    /\ (counter_ok o st -> counter_ok o (pair_frame o m m2 i delta st)).
Proof.
  intros HQ. unfold pair_frame.
  apply Zfor_invariant with
    (P := fun st' : bool * Z * codes =>
            exists nt nh,
              snd st' = codes_app (snd st) (nt, nh)
              /\ length nt = length nh
              /\ snd (fst st') = snd (fst st) + Z.of_nat (length nh)
              /\ Forall Q nh
              /\ Forall (eq (Mark.t m)) nt
              /\ (counter_ok o st -> counter_ok o st')).
  - exists [], []. rewrite codes_app_nil_r. cbn [length Z.of_nat].
    splits; auto. lia.
  - intros k [[stop n] out] Hk (nt & nh & Hout & Hlen & Hn & HQh & Ht & Hc).
    apply Zrange_In in Hk. cbn [fst snd] in *.
    destruct stop; [exists nt, nh; splits; auto|].
    destruct (bin_neq _ _ && bin_dist_lt _ _ _) eqn:Htest;
      [|exists nt, nh; splits; auto].
    exists (nt ++ [Mark.t m]),
      (nh ++ [hash o (js_get NaNBin (Mark.i m2) k) (js_get NaNBin (Mark.i m) i) delta]).
    cbn [fst snd]. rewrite Hout, !length_app. cbn [length].
    splits.
    + unfold push_code, codes_app. cbn. now rewrite !app_assoc.
    + lia.
    + lia.
    + apply Forall_app. split; [exact HQh|]. constructor; [|constructor].
      apply HQ; [lia | exact Htest].
    + apply Forall_app. split; [exact Ht|]. repeat constructor.
    + intros Hst. specialize (Hc Hst). unfold counter_ok in *. cbn [fst snd] in *.
      destruct Hc as (H0 & Hlt & _). specialize (Hlt eq_refl).
      splits; [lia | |].
      * intros E. apply Z.leb_gt in E. lia.
      * intros E. lia.
Qed.

(** The hashes of one anchor slot. *)
Lemma pair_anchor_emits (Q : Z -> Prop) marks t0 m i :
  (forall j k,
     Z.max 0 (t0 - windowDt o) <= j <= t0 ->
     0 <= k < Z.of_nat (length (Mark.i (nth (Z.to_nat j) marks m))) ->
     bin_neq (js_get NaNBin (Mark.i (nth (Z.to_nat j) marks m)) k)
             (js_get NaNBin (Mark.i m) i)
     && bin_dist_lt (js_get NaNBin (Mark.i (nth (Z.to_nat j) marks m)) k)
                    (js_get NaNBin (Mark.i m) i) (windowDf o) = true ->
     Q (hash o (js_get NaNBin (Mark.i (nth (Z.to_nat j) marks m)) k)
               (js_get NaNBin (Mark.i m) i) (t0 - j))) ->
  exists nt nh,
    pair_anchor o marks t0 m i ([], []) = (nt, nh)
    /\ length nt = length nh
    /\ Forall Q nh
    /\ Forall (eq (Mark.t m)) nt
    /\ (1 <= mppp o -> Z.of_nat (length nh) <= mppp o).
Proof.
  intros HQ. unfold pair_anchor.
  assert (H : exists nt nh,
             snd (Zfor (Zrange_down t0 (Z.max 0 (t0 - windowDt o)))
                   (fun j (st : bool * Z * codes) =>
                      if fst (fst st) then st
                      else pair_frame o m (nth (Z.to_nat j) marks m) i (t0 - j) st)
                   (false, 0, ([], []))) = (nt, nh)
             /\ length nt = length nh
             /\ snd (fst (Zfor (Zrange_down t0 (Z.max 0 (t0 - windowDt o)))
                   (fun j (st : bool * Z * codes) =>
                      if fst (fst st) then st
                      else pair_frame o m (nth (Z.to_nat j) marks m) i (t0 - j) st)
                   (false, 0, ([], [])))) = Z.of_nat (length nh)
             /\ Forall Q nh
             /\ Forall (eq (Mark.t m)) nt
             /\ (1 <= mppp o ->
                 counter_ok o (Zfor (Zrange_down t0 (Z.max 0 (t0 - windowDt o)))
                   (fun j (st : bool * Z * codes) =>
                      if fst (fst st) then st
                      else pair_frame o m (nth (Z.to_nat j) marks m) i (t0 - j) st)
                   (false, 0, ([], []))))).
  { apply Zfor_invariant with
      (P := fun st' : bool * Z * codes =>
              exists nt nh,
                snd st' = (nt, nh)
                /\ length nt = length nh
                /\ snd (fst st') = Z.of_nat (length nh)
                /\ Forall Q nh
                /\ Forall (eq (Mark.t m)) nt
                /\ (1 <= mppp o -> counter_ok o st')).
    - exists [], []. cbn. splits; auto; unfold counter_ok; cbn; intros;
        try lia; discriminate.
    - intros j [[stop n] out] Hj (nt & nh & Hout & Hlen & Hn & HQh & Ht & Hc).
      apply Zrange_down_In in Hj. cbn [fst snd] in *.
      destruct stop; [exists nt, nh; splits; auto|].
      destruct (pair_frame_emits Q m (nth (Z.to_nat j) marks m) i (t0 - j)
                  (false, n, out))
        as (nt' & nh' & Hout' & Hlen' & Hn' & HQ' & Ht' & Hc').
      { intros k Hk Htest. apply HQ; [lia | exact Hk | exact Htest]. }
      cbn [fst snd] in *. subst out.
      exists (nt ++ nt'), (nh ++ nh'). rewrite Hout', !length_app.
      splits; auto.
      + lia.
      + now apply Forall_app.
      + now apply Forall_app. }
  destruct H as (nt & nh & Hout & Hlen & Hn & HQh & Ht & Hc).
  exists nt, nh. splits; auto.
  intros Hm. specialize (Hc Hm). unfold counter_ok in Hc. rewrite Hn in Hc.
  destruct Hc as (_ & Hf & Ht').
  destruct (fst (fst _)); [apply Ht' | specialize (Hf eq_refl)]; auto; lia.
Qed.

End HashFacts.

Section FanOut.

Variable o : CodegenOptions.

Lemma Zfor_ext {S : Type} range (f g : Z -> S -> S) s :
  (forall i s, In i range -> f i s = g i s) -> Zfor range f s = Zfor range g s.
Proof.
  unfold Zfor. revert s.
  induction range as [|i range IH]; intros s H; cbn [fold_left]; [reflexivity|].
  rewrite H by now left. apply IH. intros j s' Hj. apply H. now right.
Qed.

(** C8.  With [mppp >= 1], the pairing of one anchor slot appends at most
    [mppp] hashes (and as many timestamps) to the output, whatever the
    output so far; and the generator for a frame is the succession of
    these pairings over all the anchor slots of the frame, each one
    starting its own count: after an anchor has reached [mppp], the
    generation goes on with the next anchor. *)
Theorem anchor_fanout_bounded marks t0 m out :
  1 <= mppp o ->
  (forall i,
     exists nt nh,
       pair_anchor o marks t0 m i out = codes_app out (nt, nh)
       /\ length nt = length nh
       /\ Z.of_nat (length nh) <= mppp o)
  /\ (0 <= t0 -> nth_error marks (Z.to_nat t0) = Some m ->
      generate_hashes o marks t0 out
      = Ok (Zfor (Zrange 0 (Z.of_nat (length (Mark.i m))))
                 (fun i acc => codes_app acc (pair_anchor o marks t0 m i ([], [])))
                 out)).
Proof.
  intros Hm. split.
  - intros i.
    destruct (pair_anchor_emits o (fun _ => True) marks t0 m i)
      as (nt & nh & E & Hlen & _ & _ & Hcap); [auto|].
    exists nt, nh. rewrite pair_anchor_prefix, E. auto.
  - intros Ht0 Hnth. unfold generate_hashes.
    destruct (Z.leb_spec 0 t0); [|lia]. rewrite Hnth. f_equal.
    apply Zfor_ext. intros i acc _. apply pair_anchor_prefix.
Qed.

End FanOut.

(** The cap of C8 at work: the first anchor of the second record of the
    short history meets two partners in its own frame and a third in the
    frame before; pairing stops there, with three hashes. *)
Lemma anchor_fanout_bounded_witness :
  1 <= mppp Reference.small_config
  /\ pair_anchor Reference.small_config Reference.small_marks 1
        (nth 1 Reference.small_marks
             {| Mark.t := 0; Mark.i := []; Mark.v := [] |}) 0 ([7], [9])
     = ([7; 2; 2; 2], [9; 28; 30; 90])
  /\ exists nt nh,
       pair_anchor Reference.small_config Reference.small_marks 1
         (nth 1 Reference.small_marks
              {| Mark.t := 0; Mark.i := []; Mark.v := [] |}) 0 ([7], [9])
       = codes_app ([7], [9]) (nt, nh)
       /\ length nt = length nh
       /\ Z.of_nat (length nh) <= mppp Reference.small_config.
Proof.
  split; [vm_compute; discriminate|].
  split; [vm_compute; reflexivity|].
  refine (proj1 (anchor_fanout_bounded Reference.small_config Reference.small_marks 1
                   _ ([7], [9]) _) 0).
  vm_compute. discriminate.
Defined.

(** The pruning rule of C5 on the short history: the slot of bin 4 in the
    last record ([log 2 < 1]) is invalidated. *)
Lemma prune_slot_spec_witness :
  exists m',
    nth_error (prune Reference.platform Reference.small_config
                     Reference.small_marks Reference.small_threshold) 1
    = Some m'
    /\ slot m' 1 = (NegInfBin, PrimFloat.neg_infinity)
    /\ slot m' 0 = (Bin 3, 16%float).
Proof.
  destruct (prune_slot_spec Reference.platform Reference.small_config
              Reference.small_marks Reference.small_threshold 1 1
              (nth 1 Reference.small_marks
                   {| Mark.t := 0; Mark.i := []; Mark.v := [] |}))
    as (m' & Hm' & Hs & _).
  - reflexivity.
  - reflexivity.
  - vm_compute. split; discriminate.
  - vm_compute. split; [discriminate | reflexivity].
  - exists m'. split; [exact Hm'|]. split.
    + rewrite Hs. vm_compute. reflexivity.
    + vm_compute in Hm'. injection Hm' as <-. vm_compute. reflexivity.
Defined.

(** ** Bins stay in the band *)

Section BandFacts.

Variable pf : Platform.
Variable o : CodegenOptions.

Lemma Forall_firstn {A : Type} (P : A -> Prop) n (l : list A) :
  Forall P l -> Forall P (firstn n l).
Proof.
  intros H. revert n. induction H; intros [|n]; cbn; constructor; auto.
Qed.

Lemma Forall_skipn {A : Type} (P : A -> Prop) n (l : list A) :
  Forall P l -> Forall P (skipn n l).
Proof.
  intros H. revert n. induction H; intros [|n]; cbn; auto.
Qed.

Lemma Forall_repeat {A : Type} (P : A -> Prop) x n : P x -> Forall P (repeat x n).
Proof. intros H. induction n; cbn; constructor; auto. Qed.

Lemma js_set_Forall {A : Type} (P : A -> Prop) d a i x :
  Forall P a -> P d -> P x -> Forall P (js_set d a i x).
Proof.
  intros Ha Hd Hx. unfold js_set.
  destruct (i <? 0); [exact Ha|].
  destruct (i <? Z.of_nat (length a)).
  - apply Forall_app. split; [now apply Forall_firstn|].
    constructor; [exact Hx | now apply Forall_skipn].
  - apply Forall_app. split; [exact Ha|].
    apply Forall_app. split; [now apply Forall_repeat | now repeat constructor].
Qed.

Lemma js_get_Forall {A : Type} (P : A -> Prop) d a i :
  Forall P a -> P d -> P (js_get d a i).
Proof.
  intros Ha Hd. unfold js_get. destruct (i <? 0); [exact Hd|].
  destruct (Nat.lt_ge_cases (Z.to_nat i) (length a)).
  - apply Forall_nth; assumption.
  - now rewrite nth_overflow.
Qed.

Lemma insert_peak_band i x loc :
  ifMin o < i < ifMax o - 1 ->
  Forall (in_band o) (fst loc) ->
  Forall (in_band o) (fst (insert_peak o i x loc)).
Proof.
  intros Hi Hloc. unfold insert_peak.
  apply Zfor_invariant with
    (P := fun st : bool * (list binval * list float) =>
            Forall (in_band o) (fst (snd st))); [exact Hloc|].
  intros j [done [iL vL]] _ H. cbn [fst snd] in *.
  destruct done; [exact H|].
  destruct (_ && _); [exact H|].
  destruct (Zfor _ _ (iL, vL)) as [iL' vL'] eqn:E. cbn [fst snd].
  apply js_set_Forall; [|exact I|exact Hi].
  change iL' with (fst (iL', vL')). rewrite <- E.
  apply Zfor_invariant with
    (P := fun p : list binval * list float => Forall (in_band o) (fst p));
    [exact H|].
  intros k [iL1 vL1] _ H1. cbn [fst snd] in *.
  apply js_set_Forall; [exact H1 | exact I|].
  apply js_get_Forall; [exact H1 | exact I].
Qed.

Lemma local_maxima_band spectrum diff iL vL :
  local_maxima o spectrum diff = Ok (iL, vL) -> Forall (in_band o) iL.
Proof.
  unfold local_maxima. intros H.
  apply bind_Ok in H as (len & _ & H). injection H as H.
  change iL with (fst (iL, vL)). rewrite <- H.
  apply Zfor_invariant with
    (P := fun p : list binval * list float => Forall (in_band o) (fst p)).
  - cbn. apply Forall_repeat. exact I.
  - intros i [iL1 vL1] Hi H1. apply Zrange_In in Hi.
    destruct (_ && _); [|exact H1].
    apply insert_peak_band; [lia | exact H1].
Qed.

Lemma update_threshold_band slots spectrum iL vL thr iL' vL' thr' :
  update_threshold pf o slots spectrum iL vL thr = Ok (iL', vL', thr') ->
  Forall (in_band o) iL -> Forall (in_band o) iL'.
Proof.
  revert thr. induction slots as [|s slots IH]; intros thr H Hb;
    cbn [update_threshold] in H.
  - injection H as <- _ _. exact Hb.
  - destruct (js_gt _ _).
    + apply bind_Ok in H as (thr1 & _ & H). eapply IH; eauto.
    + injection H as <- _ _. unfold splice.
      apply Forall_app. split; [now apply Forall_firstn | now apply Forall_skipn].
Qed.

Lemma analyse_band this marks1 thr engine :
  analyse pf o this = Ok (marks1, thr, engine) ->
  marks_in_band o (marks this) -> marks_in_band o marks1.
Proof.
  intros H Hb.
  apply analyse_inv in H
    as (data & diff & iL & vL & iL' & vL' & _ & _ & _ & Hloc & Hup & ->).
  apply Forall_app. split; [exact Hb|]. constructor; [|constructor].
  cbn. eapply update_threshold_band; [exact Hup|].
  eapply local_maxima_band; exact Hloc.
Qed.

Lemma prune_mark_band thr age m :
  Forall (in_band o) (Mark.i m) ->
  Forall (in_band o) (Mark.i (prune_mark pf o thr age m)).
Proof.
  intros H. unfold prune_mark.
  apply Zfor_invariant with (P := fun m' => Forall (in_band o) (Mark.i m'));
    [exact H|].
  intros j m' _ H'. destruct (prune_test _ _ _ _ _ _); [|exact H'].
  cbn. apply js_set_Forall; [exact H' | exact I | exact I].
Qed.

Lemma modify_Forall {A : Type} (P : A -> Prop) a i f :
  Forall P a -> (forall x, P x -> P (f x)) -> Forall P (modify a i f).
Proof.
  intros Ha Hf. unfold modify.
  destruct (nth_error a (Z.to_nat i)) as [x|] eqn:E; [|exact Ha].
  apply Forall_app. split; [now apply Forall_firstn|].
  constructor; [|now apply Forall_skipn].
  apply Hf. apply nth_error_In in E. rewrite Forall_forall in Ha. auto.
Qed.

Lemma prune_band marks thr :
  marks_in_band o marks -> marks_in_band o (prune pf o marks thr).
Proof.
  intros H. unfold prune.
  apply Zfor_invariant with (P := marks_in_band o); [exact H|].
  intros i l _ Hl. apply modify_Forall; [exact Hl|].
  intros m. apply prune_mark_band.
Qed.

Lemma process_frame_band this out this' out' :
  process_frame pf o this out = Ok (this', out') ->
  marks_in_band o (marks this) -> marks_in_band o (marks this').
Proof.
  intros H Hb.
  apply process_frame_inv in H
    as (marks1 & thr & engine & Ha & _ & _ & _ & _ & _ & -> & _).
  apply Forall_skipn. apply prune_band. eapply analyse_band; eauto.
Qed.

End BandFacts.

Lemma reachable_band pf st :
  reachable pf st -> marks_in_band (options st) (marks st).
Proof.
  induction 1 as [user st Hc|st chunk Hr IH|st out st' out' Hr IH Hf|cap st Hr IH].
  - apply constructor_inv in Hc as (_ & _ & _ & _ & _ & -> & _). constructor.
  - exact IH.
  - pose proof (process_frame_inv _ _ _ _ _ _ Hf) as (_ & _ & _ & _ & _ & Ho & _).
    rewrite Ho. eapply process_frame_band; eauto.
  - unfold compact. destruct (_ <? _); exact IH.
Qed.

(** ** Frames and the engine's spectrum *)

Lemma js_gt_irrefl x : js_gt x x = false.
Proof.
  unfold js_gt. rewrite FloatAxioms.ltb_spec. unfold SFltb, SFcompare.
  destruct (Prim2SF x) as [s|s| |s m e]; try reflexivity.
  - destruct s; reflexivity.
  - destruct s; rewrite Z.compare_refl, Pos.compare_cont_refl; reflexivity.
Qed.

Lemma new_Array_Ok len n : new_Array len = Ok n -> n = len /\ 0 <= len < 2 ^ 32.
Proof.
  unfold new_Array.
  destruct (Z.leb_spec 0 len); destruct (Z.ltb_spec len (2 ^ 32)); cbn;
    intros E; try discriminate.
  injection E as <-. lia.
Qed.

Lemma arr_get_repeat x n i :
  0 <= i < Z.of_nat n -> arr_get (repeat x n) i = x.
Proof.
  intros H. unfold arr_get, js_get.
  destruct (Z.ltb_spec i 0); [lia|].
  apply nth_error_nth. rewrite nth_error_repeat; [reflexivity | lia].
Qed.

Section SpectrumFacts.

Variable pf : Platform.
Variable o : CodegenOptions.

(** With a band that holds no bin the scan for local maxima visits no
    bin, and both tables stay as they were allocated. *)
Lemma local_maxima_bandless spectrum diff loc :
  ifMax o <= ifMin o ->
  local_maxima o spectrum diff = Ok loc ->
  0 <= mnlm o
  /\ loc = (repeat NaNBin (Z.to_nat (mnlm o)),
            repeat PrimFloat.neg_infinity (Z.to_nat (mnlm o))).
Proof.
  intros Hb H. unfold local_maxima in H.
  apply bind_Ok in H as (len & Hlen & H).
  apply new_Array_Ok in Hlen as [-> Hm]. injection H as <-.
  split; [lia|]. rewrite Zrange_nil by lia. reflexivity.
Qed.

(** With no local maximum, no mask is added and both tables end empty. *)
Lemma update_threshold_blank spectrum thr :
  0 <= mnlm o ->
  update_threshold pf o (Zrange 0 (mnlm o)) spectrum
    (repeat NaNBin (Z.to_nat (mnlm o)))
    (repeat PrimFloat.neg_infinity (Z.to_nat (mnlm o))) thr
  = Ok ([], [], thr).
Proof.
  intros Hm. destruct (Z.eq_dec (mnlm o) 0) as [E|E].
  - rewrite E. reflexivity.
  - rewrite Zrange_cons by lia. cbn [update_threshold].
    rewrite arr_get_repeat by lia. rewrite js_gt_irrefl.
    unfold splice. rewrite Z.sub_0_r. cbn [Z.to_nat firstn app Nat.add].
    rewrite !skipn_all2 by (rewrite repeat_length; lia). reflexivity.
Qed.

(** The statements that follow the log-normal loop do not read the
    spectrum when the band holds no bin: whatever array stands for it,
    they compute the same. *)
Lemma bandless_reads_nothing spectrum spectrum' thr :
  ifMax o <= ifMin o ->
  positive_diff pf o spectrum thr = positive_diff pf o spectrum' thr
  /\ (forall diff, local_maxima o spectrum diff = local_maxima o spectrum' diff)
  /\ (forall iL vL,
        local_maxima o spectrum [] = Ok (iL, vL) ->
        update_threshold pf o (Zrange 0 (mnlm o)) spectrum iL vL thr
        = update_threshold pf o (Zrange 0 (mnlm o)) spectrum' iL vL thr).
Proof.
  intros Hb. split; [|split].
  - unfold positive_diff. now rewrite Zrange_nil by lia.
  - intros diff. unfold local_maxima. now rewrite Zrange_nil by lia.
  - intros iL vL H. apply local_maxima_bandless in H as [Hm H]; [|exact Hb].
    injection H as -> ->. now rewrite !update_threshold_blank.
Qed.

(** The analysis of a frame by a fingerprinter whose engine has no
    spectrum: it returns only if the band holds no bin, and then with a
    record without peaks, the threshold and the engine as they were. *)
Lemma analyse_undefined st marks1 thr engine :
  FFT.spectrum (fft st) = None ->
  analyse pf o st = Ok (marks1, thr, engine) ->
  ifMax o <= ifMin o
  /\ marks1
     = marks st
       ++ [ {| Mark.t := js_round_div (stepIndex st + step o) (step o);
               Mark.i := []; Mark.v := [] |} ]
  /\ thr = threshold st
  /\ engine = fft st.
Proof.
  intros Hn H.
  apply analyse_inv in H
    as (data & diff & iL & vL & iL' & vL' & _ & Hs & _ & Hl & Hu & ->).
  unfold scale_spectrum in Hs. rewrite Hn in Hs.
  destruct (Z.ltb_spec (ifMin o) (ifMax o)) as [|Hb]; [discriminate|].
  injection Hs as <-.
  apply local_maxima_bandless in Hl as [Hm Hl]; [|exact Hb].
  injection Hl as -> ->.
  rewrite update_threshold_blank in Hu by exact Hm. injection Hu as <- <- <-.
  auto.
Qed.

(** With a bin in the band, the frame throws as soon as its samples are
    read: [this.fft.spectrum[ifMin]] is a read on [undefined]. *)
Lemma analyse_throws st data :
  FFT.spectrum (fft st) = None ->
  ifMin o < ifMax o ->
  window_data o st = Ok data ->
  analyse pf o st = Err TypeError.
Proof.
  intros Hn Hb Hd. unfold analyse, FFT.forward, scale_spectrum.
  rewrite Hd, Hn. cbn [bind].
  destruct (Z.ltb_spec (ifMin o) (ifMax o)); [reflexivity|lia].
Qed.

Lemma prune_mark_no_peak thr age m : no_peak m -> prune_mark pf o thr age m = m.
Proof. intros [_ Hv]. unfold prune_mark. rewrite Hv. reflexivity. Qed.

Lemma prune_no_peak marks thr :
  Forall no_peak marks -> Forall no_peak (prune pf o marks thr).
Proof.
  intros H. unfold prune.
  apply Zfor_invariant with (P := Forall no_peak); [exact H|].
  intros i l _ Hl. apply modify_Forall; [exact Hl|].
  intros m Hm. now rewrite prune_mark_no_peak.
Qed.

(** A history without peaks gives no hash. *)
Lemma generate_hashes_no_peak marks t0 out out' :
  Forall no_peak marks -> generate_hashes o marks t0 out = Ok out' -> out' = out.
Proof.
  intros Hm. unfold generate_hashes.
  destruct (0 <=? t0); [|intros E; now injection E].
  destruct (nth_error marks (Z.to_nat t0)) as [m|] eqn:E; [|discriminate].
  apply nth_error_In in E. rewrite Forall_forall in Hm.
  destruct (Hm m E) as [Hi _]. rewrite Hi. intros E'. now injection E'.
Qed.

(** A frame that completes leaves the fingerprinter mute and the output
    as it was; the threshold has only decayed. *)
Lemma process_frame_mute st out st' out' :
  mute st ->
  process_frame pf o st out = Ok (st', out') ->
  mute st' /\ out' = out
  /\ ifMax o <= ifMin o
  /\ threshold st' = map (fun x => (x + maskDecayLog o)%float) (threshold st).
Proof.
  intros [Hn Hm] H.
  apply process_frame_inv in H
    as (marks1 & thr & e & Ha & Hg & _ & _ & _ & _ & Hm' & Ht & He).
  destruct (analyse_undefined _ _ _ _ Hn Ha) as (Hb & Hm1 & -> & ->).
  assert (Hp : Forall no_peak marks1).
  { rewrite Hm1. apply Forall_app. split; [exact Hm|]. repeat constructor. }
  pose proof (prune_no_peak _ (threshold st) Hp) as Hm2.
  split; [split|].
  - now rewrite He.
  - rewrite Hm'. now apply Forall_skipn.
  - split; [exact (generate_hashes_no_peak _ _ _ _ Hm2 Hg)|]. auto.
Qed.

Lemma frames_loop_mute fuel st out st' out' :
  mute st ->
  frames_loop pf o fuel st out = Ok (st', out') ->
  mute st' /\ out' = out.
Proof.
  revert st out. induction fuel as [|fuel IH]; intros st out Hs H;
    cbn [frames_loop] in H.
  - destruct (_ <? _); [discriminate|]. injection H as <- <-. auto.
  - destruct (_ <? _); [|injection H as <- <-; auto].
    apply bind_Ok in H as ([st1 out1] & Hf & H).
    destruct (process_frame_mute _ _ _ _ Hs Hf) as (Hs1 & -> & _).
    exact (IH _ _ Hs1 H).
Qed.

(** The loop of a call leaves [tcodes] and [hcodes] empty. *)
Lemma call_frames_mute st chunk st' out :
  mute st -> call_frames pf o st chunk = Ok (st', out) ->
  mute st' /\ out = ([], []).
Proof.
  intros Hs H. exact (frames_loop_mute _ (append_chunk st chunk) _ _ _ Hs H).
Qed.

(** A call pushes nothing. *)
Lemma transform_mute cap st chunk st' pushed :
  mute st ->
  transform_with pf o cap st chunk = Ok (st', pushed) ->
  mute st' /\ pushed = None.
Proof.
  intros Hs H. unfold transform_with in H.
  apply bind_Ok in H as ([st1 out1] & Hl & H).
  apply call_frames_mute in Hl as [Hs1 ->]; [|exact Hs].
  injection H as <- <-. split; [|reflexivity].
  unfold compact. destruct (_ <? _); exact Hs1.
Qed.

End SpectrumFacts.

Lemma constructor_mute pf user st0 : constructor pf user = Ok st0 -> mute st0.
Proof.
  intros H. apply constructor_inv in H as (_ & Hf & _ & _ & _ & Hm & _).
  apply constructor_Ok_inv in Hf as (k & _ & _ & _ & _ & Hs).
  split; [exact Hs|]. rewrite Hm. constructor.
Qed.

(** Every state a fingerprinter goes through is mute. *)
Lemma reachable_mute pf st : reachable pf st -> mute st.
Proof.
  induction 1 as [user st Hc|st chunk Hr IH|st out st' out' Hr IH Hf|cap st Hr IH].
  - exact (constructor_mute _ _ _ Hc).
  - exact IH.
  - exact (proj1 (process_frame_mute _ _ _ _ _ _ IH Hf)).
  - unfold compact. destruct (_ <? _); exact IH.
Qed.

(** Nothing is pushed, whether the calls return or throw. *)
Lemma run_mute pf cap chunks :
  forall st, mute st -> fst (run_with pf cap st chunks) = [].
Proof.
  induction chunks as [|chunk rest IH]; intros st Hs; [reflexivity|].
  cbn [run_with].
  destruct (transform_with _ _ _ _ _) as [[st1 pushed]|e] eqn:E; [|reflexivity].
  destruct (transform_mute _ _ _ _ _ _ _ Hs E) as [Hs1 ->].
  specialize (IH st1 Hs1).
  destruct (run_with _ _ st1 rest) as [more final]. exact IH.
Qed.

(** ** Hash packing *)

Section PackingFacts.

Variable pf : Platform.
Variable o : CodegenOptions.

Lemma well_packed_hash kb ka d :
  0 <= kb < nfft o / 2 -> 0 <= ka < nfft o / 2 ->
  kb <> ka -> Z.abs (kb - ka) < windowDf o -> 0 <= d <= windowDt o ->
  well_packed o (kb + (nfft o / 2) * (ka + (nfft o / 2) * d)).
Proof.
  set (half := nfft o / 2). intros Hb Ha Hne Hdist Hd.
  assert (E1 : (kb + half * (ka + half * d)) mod half = kb).
  { rewrite (Z.mul_comm half), Z_mod_plus_full. apply Z.mod_small. lia. }
  assert (E2 : (kb + half * (ka + half * d)) / half = ka + half * d).
  { rewrite (Z.mul_comm half (ka + _)), Z.div_add by lia.
    rewrite (Z.div_small kb) by lia. lia. }
  assert (E3 : (ka + half * d) mod half = ka).
  { rewrite (Z.mul_comm half), Z_mod_plus_full. apply Z.mod_small. lia. }
  assert (E4 : (kb + half * (ka + half * d)) / (half * half) = d).
  { rewrite <- Z.div_div by lia. rewrite E2.
    rewrite (Z.mul_comm half), Z.div_add by lia.
    rewrite (Z.div_small ka) by lia. lia. }
  unfold well_packed, bin_earlier, bin_later, frameDelta. fold half.
  rewrite E1, E2, E3, E4. lia.
Qed.

Lemma bin_test_inv b a w :
  bin_neq b a && bin_dist_lt b a w = true ->
  exists kb ka, b = Bin kb /\ a = Bin ka /\ kb <> ka /\ Z.abs (kb - ka) < w.
Proof.
  destruct b as [|kb|], a as [|ka|]; cbn; try discriminate.
  intros H. apply andb_true_iff in H as [H1 H2].
  exists kb, ka. repeat split.
  - apply negb_true_iff, Z.eqb_neq in H1. exact H1.
  - now apply Z.ltb_lt.
Qed.

Lemma generate_hashes_well_packed marks t0 new :
  0 <= ifMin o -> ifMax o <= nfft o / 2 ->
  marks_in_band o marks ->
  generate_hashes o marks t0 ([], []) = Ok new ->
  Forall (well_packed o) (snd new).
Proof.
  intros Hmin Hmax Hb H. unfold generate_hashes in H.
  destruct (0 <=? t0); [|injection H as <-; constructor].
  destruct (nth_error marks (Z.to_nat t0)) as [m|] eqn:Hm; [|discriminate].
  injection H as <-.
  assert (Hmb : Forall (in_band o) (Mark.i m)).
  { apply nth_error_In in Hm. unfold marks_in_band in Hb.
    rewrite Forall_forall in Hb. auto. }
  apply Zfor_invariant with (P := fun acc : codes => Forall (well_packed o) (snd acc));
    [constructor|].
  intros i acc _ Hacc. rewrite pair_anchor_prefix.
  destruct (pair_anchor_emits o (well_packed o) marks t0 m i)
    as (nt & nh & E & _ & HQ & _).
  - intros j k Hj Hk Htest.
    apply bin_test_inv in Htest as (kb & ka & Eb & Ea & Hne & Hdist).
    assert (Hm2 : Forall (in_band o) (Mark.i (nth (Z.to_nat j) marks m))).
    { destruct (nth_in_or_default (Z.to_nat j) marks m) as [Hin| ->]; [|exact Hmb].
      unfold marks_in_band in Hb. rewrite Forall_forall in Hb. auto. }
    pose proof (js_get_Forall (in_band o) NaNBin _ k Hm2 I) as Bb.
    pose proof (js_get_Forall (in_band o) NaNBin _ i Hmb I) as Ba.
    rewrite Eb in *. rewrite Ea in *. cbn in Bb, Ba. cbn [hash].
    apply well_packed_hash; lia.
  - rewrite E. cbn. apply Forall_app. split; assumption.
Qed.

(** C2.  The pair generator (the loops of [_transform] that fill [tcodes]
    and [hcodes] for frame [t0]), on a history whose peaks have their bins
    in the band, as the peaks of every record the program builds have, for
    a band within the [nfft / 2] bins ([0 <= ifMin], [ifMax <= nfft / 2]):
    every hash it appends decodes to a frame delta in [[0, windowDt]] and
    two different bins in [[0, nfft / 2)], less than [windowDf] apart. *)
Theorem emitted_hashes_well_packed marks t0 out out' :
  0 <= ifMin o -> ifMax o <= nfft o / 2 ->
  marks_in_band o marks ->
  generate_hashes o marks t0 out = Ok out' ->
  exists nt nh,
    out' = codes_app out (nt, nh) /\ Forall (well_packed o) nh.
Proof.
  intros Hmin Hmax Hb H. rewrite generate_hashes_prefix in H.
  destruct (generate_hashes o marks t0 ([], [])) as [[nt nh]|e] eqn:G;
    [|discriminate].
  injection H as <-. exists nt, nh. split; [reflexivity|].
  exact (generate_hashes_well_packed marks t0 (nt, nh) Hmin Hmax Hb G).
Qed.

End PackingFacts.

(** C2 on the history [small_marks], for the hashes of its second
    record. *)
Lemma emitted_hashes_well_packed_witness :
  match generate_hashes Reference.small_config Reference.small_marks 1 ([], []) with
  | Ok out' =>
      exists nt nh,
        out' = codes_app ([], []) (nt, nh)
        /\ Forall (well_packed Reference.small_config) nh
  | Err _ => False
  end.
Proof.
  destruct (generate_hashes _ _ _ _) as [out'|e] eqn:G.
  - apply (emitted_hashes_well_packed Reference.small_config
             Reference.small_marks 1 ([], []) out'); [| | |exact G].
    + vm_compute. discriminate.
    + vm_compute. discriminate.
    + repeat constructor; cbn; lia.
  - revert G. vm_compute. discriminate.
Defined.

(** ** Chunk boundaries, buffer drops and silence *)

Section StreamTheorems.

Variable pf : Platform.


Lemma frames_loop_buffer o fuel st out st' out' :
  frames_loop pf o fuel st out = Ok (st', out') ->
  buffer st' = buffer st /\ bufferDelta st' = bufferDelta st.
Proof.
  revert st out. induction fuel as [|fuel IH]; intros st out H; cbn [frames_loop] in H.
  - destruct (_ <? _); [discriminate|]. injection H as <- _. auto.
  - destruct (_ <? _); [|injection H as <- _; auto].
    apply bind_Ok in H as ([st1 out1] & Hf & H).
    apply process_frame_inv in Hf as (_ & _ & _ & _ & _ & _ & Hb & Hd & _).
    apply IH in H as [H1 H2]. split; congruence.
Qed.

(** The buffer and the count of dropped bytes after a call. *)
Lemma transform_buffer o cap st chunk st' pushed :
  transform_with pf o cap st chunk = Ok (st', pushed) ->
  let len := Z.of_nat (length (buffer st ++ chunk)) in
  (cap < len ->
   buffer st' = Buffer_slice (buffer st ++ chunk) (len - 20000)
   /\ bufferDelta st' = bufferDelta st + (len - 20000))
  /\ (len <= cap ->
      buffer st' = buffer st ++ chunk /\ bufferDelta st' = bufferDelta st).
Proof.
  unfold transform_with, call_frames. intros H.
  apply bind_Ok in H as ([st1 out1] & Hl & H). injection H as <- _.
  apply frames_loop_buffer in Hl as [Hb Hd]. cbn in Hb, Hd.
  unfold compact. rewrite Hb, Hd. cbv zeta.
  destruct (Z.ltb_spec cap (Z.of_nat (length (buffer st ++ chunk)))); cbn;
    split; intros; try lia; auto.
Qed.






End StreamTheorems.

(** The demonstration signal, in one chunk and in two, for the
    configuration whose band holds no bin: both runs return after 26
    frames, with nothing pushed. *)
Example bandless_runs_return :
  match constructor Reference.platform Reference.bandless_options with
  | Ok st0 =>
      match run Reference.platform st0 [Reference.demo_signal],
            run Reference.platform st0
                [firstn 100 Reference.demo_signal;
                 skipn 100 Reference.demo_signal]
      with
      | (pushed, Ok st), (pushed', Ok st') =>
          pushed = [] /\ pushed' = []
          /\ stepIndex st = 26 * 8 /\ stepIndex st' = 26 * 8
      | _, _ => False
      end
  | Err _ => False
  end.
Proof. vm_compute. repeat split. Qed.


(** The first call of a fingerprinter whose frames take 1,048,576 bytes,
    on 1,000,001 bytes: no frame is complete, and the call ends with a
    drop of 980,001 bytes. *)
Example tall_call_drops :
  match constructor Reference.platform Reference.tall_options with
  | Ok st0 =>
      match _transform Reference.platform st0 (Reference.silence 1000001) with
      | Ok (st, pushed) =>
          pushed = None /\ bufferDelta st = 980001
          /\ Z.of_nat (length (buffer st)) = 20000
      | Err _ => False
      end
  | Err _ => False
  end.
Proof. vm_compute. repeat split. Qed.



(** Silence with the first configuration: the call that holds the first
    complete frame throws, with nothing pushed. *)
Example silence_throws_on_band :
  match constructor Reference.platform Reference.demo_options with
  | Ok st0 =>
      run Reference.platform st0 [Reference.silence 20; Reference.silence 80]
      = ([], Err TypeError)
  | Err _ => False
  end.
Proof. vm_compute. reflexivity. Qed.


(** * Further properties of the code *)

(** ** Building a fingerprinter *)

Section ConstructionFacts.

Variable pf : Platform.

Lemma buildOptions_nfft user o :
  buildOptions pf user = Ok o -> nfft o = orZ (opt_nfft user) 512.
Proof.
  unfold buildOptions. intros H.
  apply bind_Ok in H as (w & _ & H). apply bind_Ok in H as (e & _ & H).
  injection H as <-. reflexivity.
Qed.

(** What [buildOptions] throws: its two allocations can fail. *)
Lemma buildOptions_Err user e : buildOptions pf user = Err e -> e = RangeError.
Proof.
  unfold buildOptions, new_Array_half, new_Array. intros Eo.
  repeat match type of Eo with
         | context [match ?x with _ => _ end] => destruct x; cbn [bind] in Eo
         | context [if ?x then _ else _] => destruct x; cbn [bind] in Eo
         end; congruence.
Qed.

(** X1.  [new Codegen(options)] returns a fingerprinter only when [nfft]
    (512 when the option is absent or [0]) is a power of two from [2] to
    [2^30], and then one with that size for its frames and its engine, an
    empty buffer and an empty history, and an engine without spectrum;
    what it throws is a [RangeError] or the engine's string.  That it
    does return at such a size is not part of the statement: it also
    takes the memory for the tables. *)
Theorem constructor_succeeds_only user :
  match constructor pf user with
  | Ok st =>
      accepted_size (orZ (opt_nfft user) 512)
      /\ nfft (options st) = orZ (opt_nfft user) 512
      /\ FFT.n (fft st) = nfft (options st)
      /\ FFT.spectrum (fft st) = None
      /\ buffer st = [] /\ bufferDelta st = 0 /\ stepIndex st = 0
      /\ marks st = []
  | Err e => e = RangeError \/ e = ThrownString "Length is not a power of 2"
  end.
Proof.
  destruct (constructor pf user) as [st|e] eqn:E.
  - destruct (constructor_inv pf user st E) as (Hb & Hf & Hbuf & Hd & Hs & Hm & _).
    apply buildOptions_nfft in Hb.
    destruct (constructor_Ok_inv pf _ _ Hf) as (k & Hk & Hn & Hn' & _ & Hsp).
    rewrite <- Hb. repeat split; auto. now exists k.
  - unfold constructor in E.
    destruct (buildOptions pf user) as [o|e0] eqn:Eo; cbn [bind] in E.
    + destruct (new_Array (nfft o)) as [len|e1] eqn:Ea; cbn [bind] in E;
        [|injection E as <-; left; exact (new_Array_Err _ _ Ea)].
      destruct (FFT.constructor pf (nfft o)) as [engine|e2] eqn:Ef;
        cbn [bind] in E; [discriminate|].
      injection E as <-. exact (constructor_Err_inv pf _ _ Ef).
    + injection E as <-. left. exact (buildOptions_Err _ _ Eo).
Qed.

End ConstructionFacts.

Lemma new_Array_accepted n : accepted_size n -> new_Array n = Ok n.
Proof.
  intros (k & Hk & ->). unfold new_Array.
  pose proof (Z.pow_pos_nonneg 2 k).
  assert (2 ^ k <= 2 ^ 30) by (apply Z.pow_le_mono_r; lia).
  destruct (Z.leb_spec 0 (2 ^ k)); [|lia].
  destruct (Z.ltb_spec (2 ^ k) (2 ^ 32)); [reflexivity|lia].
Qed.

Section TableFacts.

Variable pf : Platform.

(** X2.  The tables [buildOptions] computes when the caller gives none:
    a window of [nfft] coefficients, and [nfft / 2] masks of [nfft / 2]
    entries each. *)
Theorem default_tables user st :
  constructor pf user = Ok st ->
  (opt_hwin user = None ->
   Z.of_nat (length (hwin (options st))) = nfft (options st))
  /\ (opt_eww user = None ->
      Z.of_nat (length (eww (options st))) = nfft (options st) / 2
      /\ Forall (fun row => Z.of_nat (length row) = nfft (options st) / 2)
                (eww (options st))).
Proof.
  intros Hc. destruct (constructor_inv pf user st Hc) as (Hb & Hf & _).
  destruct (constructor_Ok_inv pf _ _ Hf) as (k & Hk & Hn & _).
  pose proof (buildOptions_nfft pf user _ Hb) as Hnfft.
  assert (Ha : accepted_size (orZ (opt_nfft user) 512))
    by (rewrite <- Hnfft; now exists k).
  destruct (pow2_bounds k Hk) as [[H2 H30] Hhalf].
  assert (Hh : nfft (options st) / 2 = 2 ^ (k - 1)).
  { rewrite Hn, Hhalf, Z.mul_comm, Z.div_mul; lia. }
  assert (Hpos : 0 < 2 ^ (k - 1)) by (apply Z.pow_pos_nonneg; lia).
  unfold buildOptions in Hb.
  rewrite (new_Array_accepted _ Ha) in Hb.
  rewrite <- Hnfft, Hn, (new_Array_half_accepted k Hk) in Hb.
  split; intros Hnone; rewrite Hnone in Hb; cbn [bind] in Hb.
  - destruct (opt_eww user); cbn [bind] in Hb; injection Hb as Hb;
      rewrite <- Hb; cbn [hwin nfft]; rewrite length_map, Zrange_length;
      rewrite Hnfft, <- Hn in *; lia.
  - destruct (opt_hwin user); cbn [bind] in Hb; injection Hb as Hb;
      rewrite <- Hb; cbn [eww nfft]; rewrite length_map, Zrange_length;
      (split; [rewrite Hnfft, <- Hn in *; lia|]);
      apply Forall_forall; intros row Hrow; apply in_map_iff in Hrow as (i & <- & _);
      rewrite length_map, Zrange_length; rewrite Hnfft, <- Hn in *; lia.
Qed.

End TableFacts.

(** ** Hashes *)

(** X3.  The hash of a pair of bins below [nfft / 2] and a frame distance
    packs the three numbers without loss: the earlier bin, the later bin
    and the distance are read back from it by remainders and quotients by
    [nfft / 2]. *)
Theorem hash_round_trip o kb ka d :
  0 <= kb < nfft o / 2 -> 0 <= ka < nfft o / 2 -> 0 <= d ->
  bin_earlier o (hash o (Bin kb) (Bin ka) d) = kb
  /\ bin_later o (hash o (Bin kb) (Bin ka) d) = ka
  /\ frameDelta o (hash o (Bin kb) (Bin ka) d) = d.
Proof.
  set (half := nfft o / 2). intros Hb Ha Hd.
  unfold bin_earlier, bin_later, frameDelta, hash. fold half.
  assert (E2 : (kb + half * (ka + half * d)) / half = ka + half * d).
  { rewrite (Z.mul_comm half (ka + _)), Z.div_add by lia.
    rewrite (Z.div_small kb) by lia. lia. }
  split; [|split].
  - rewrite (Z.mul_comm half), Z_mod_plus_full. apply Z.mod_small. lia.
  - rewrite E2, (Z.mul_comm half), Z_mod_plus_full. apply Z.mod_small. lia.
  - rewrite <- Z.div_div by lia. rewrite E2.
    rewrite (Z.mul_comm half), Z.div_add by lia.
    rewrite (Z.div_small ka) by lia. lia.
Qed.

(** ** Calls *)

Section CallShape.

Variable pf : Platform.

Lemma frames_loop_idle o fuel st out st' out' :
  frames_loop pf o fuel st out = Ok (st', out') ->
  ~ (stepIndex st' + nfft o) * bps o
    < Z.of_nat (length (buffer st')) + bufferDelta st'.
Proof.
  revert st out. induction fuel as [|fuel IH]; intros st out H; cbn [frames_loop] in H.
  - destruct (Z.ltb_spec ((stepIndex st + nfft o) * bps o)
                (Z.of_nat (length (buffer st)) + bufferDelta st));
      [discriminate|]. injection H as <- _. lia.
  - destruct (Z.ltb_spec ((stepIndex st + nfft o) * bps o)
                (Z.of_nat (length (buffer st)) + bufferDelta st)).
    + apply bind_Ok in H as ([st1 out1] & _ & H). eapply IH; eauto.
    + injection H as <- _. lia.
Qed.

(** The buffer drop keeps the count of bytes received, and what is
    left is within the cap. *)
Lemma compact_bounds st :
  Z.of_nat (length (buffer (compact 1000000 st))) <= 1000000
  /\ Z.of_nat (length (buffer (compact 1000000 st))) + bufferDelta (compact 1000000 st)
     = Z.of_nat (length (buffer st)) + bufferDelta st
  /\ stepIndex (compact 1000000 st) = stepIndex st
  /\ options (compact 1000000 st) = options st.
Proof.
  unfold compact.
  destruct (Z.ltb_spec 1000000 (Z.of_nat (length (buffer st)))); cbn;
    [|repeat split; lia].
  unfold Buffer_slice.
  destruct (Z.ltb_spec (Z.of_nat (length (buffer st)) - 20000) 0); [lia|].
  rewrite length_skipn. repeat split; lia.
Qed.

(** X5.  A call that returns leaves at most 1,000,000 bytes in the
    buffer, and no complete frame unprocessed. *)
Theorem call_leaves_bounded_buffer st chunk st' pushed :
  _transform pf st chunk = Ok (st', pushed) ->
  Z.of_nat (length (buffer st')) <= 1000000
  /\ Z.of_nat (length (buffer st')) + bufferDelta st'
     <= (stepIndex st' + nfft (options st)) * bps (options st).
Proof.
  unfold _transform, transform_with, call_frames. intros H.
  apply bind_Ok in H as ([st1 out1] & Hl & H). injection H as <- _.
  apply frames_loop_idle in Hl.
  destruct (compact_bounds st1) as (Hlen & Hsum & Hs & _).
  rewrite Hs. split; [exact Hlen | lia].
Qed.

Lemma append_nothing st : append_chunk st [] = st.
Proof. destruct st. unfold append_chunk. cbn. now rewrite app_nil_r. Qed.

Lemma frames_loop_options o fuel st out st' out' :
  frames_loop pf o fuel st out = Ok (st', out') ->
  options st' = options st.
Proof.
  revert st out. induction fuel as [|fuel IH]; intros st out H; cbn [frames_loop] in H.
  - destruct (_ <? _); [discriminate|]. now injection H as <- _.
  - destruct (_ <? _); [|now injection H as <- _].
    apply bind_Ok in H as ([st1 out1] & Hf & H).
    apply process_frame_inv in Hf as (_ & _ & _ & _ & _ & Ho & _).
    apply IH in H. congruence.
Qed.

(** X6.  After a call that returned, a write of no bytes changes nothing
    and pushes nothing. *)
Theorem empty_write_is_noop st chunk st' pushed :
  _transform pf st chunk = Ok (st', pushed) ->
  _transform pf st' [] = Ok (st', None).
Proof.
  intros H.
  unfold _transform, transform_with, call_frames in H.
  apply bind_Ok in H as ([st1 out1] & Hl & H). injection H as <- _.
  pose proof (frames_loop_options _ _ _ _ _ _ Hl) as Ho1. cbn in Ho1.
  apply frames_loop_idle in Hl.
  destruct (compact_bounds st1) as (Hlen & Hsum & Hs & Ho).
  assert (Hidle : Z.of_nat (length (buffer (compact 1000000 st1)))
                  + bufferDelta (compact 1000000 st1)
                  <= (stepIndex (compact 1000000 st1) + nfft (options st))
                     * bps (options st)) by (rewrite Hs; lia).
  rewrite Ho1 in Ho. clear Hsum Hs Hl Ho1.
  revert Ho Hlen Hidle. generalize (compact 1000000 st1). intros st' Ho Hlen Hidle.
  unfold _transform, transform_with, call_frames. rewrite append_nothing, Ho.
  assert (Hstop : forall fuel,
             frames_loop pf (options st) fuel st' ([], [])
             = Ok (st', ([], []))).
  { intros [|fuel]; cbn [frames_loop];
      destruct (Z.ltb_spec ((stepIndex st' + nfft (options st)) * bps (options st))
                  (Z.of_nat (length (buffer st')) + bufferDelta st'));
      try lia; reflexivity. }
  rewrite Hstop. cbn [bind]. unfold compact.
  destruct (Z.ltb_spec 1000000 (Z.of_nat (length (buffer st')))); [lia|].
  reflexivity.
Qed.

End CallShape.

(** ** Exceptions *)

Lemma bind_Err {A B : Type} (m : res A) (k : A -> res B) e :
  bind m k = Err e -> m = Err e \/ exists a, m = Ok a /\ k a = Err e.
Proof.
  destruct m as [a|e0]; cbn; intros H; [right; eauto | left; congruence].
Qed.

Lemma mapM_Err {A B : Type} (P : exn -> Prop) (f : A -> res B) l e :
  (forall a e, In a l -> f a = Err e -> P e) -> mapM f l = Err e -> P e.
Proof.
  induction l as [|a l IH]; intros Hf H; cbn in H; [discriminate|].
  apply bind_Err in H as [H|(b & _ & H)]; [apply (Hf a); [now left | exact H]|].
  apply bind_Err in H as [H|(bs & _ & H)]; [|discriminate].
  apply IH; [|exact H]. intros a' e' Ha'. apply Hf. now right.
Qed.

Lemma foldM_Err {A S : Type} (P : exn -> Prop) (f : S -> A -> res S) l s e :
  (forall s a e, In a l -> f s a = Err e -> P e) -> foldM f l s = Err e -> P e.
Proof.
  revert s. induction l as [|a l IH]; intros s Hf H; cbn in H; [discriminate|].
  apply bind_Err in H as [H|(s1 & _ & H)]; [apply (Hf s a); [now left | exact H]|].
  apply (IH s1); [|exact H]. intros s' a' e' Ha'. apply Hf. now right.
Qed.

Lemma readInt16LE_Err buf offset e :
  readInt16LE buf offset = Err e -> e = RangeError.
Proof.
  unfold readInt16LE. destruct (offset <? 0); [intros [= <-]; reflexivity|].
  destruct (skipn _ buf) as [|lo [|hi rest]]; intros [= <-]; reflexivity.
Qed.

Section Exceptions.

Variable pf : Platform.
Variable o : CodegenOptions.

Lemma window_data_Err st e : window_data o st = Err e -> e = RangeError.
Proof.
  unfold window_data. intros H.
  apply bind_Err in H as [H|(len & _ & H)]; [now apply new_Array_Err in H|].
  apply (mapM_Err (fun e => e = RangeError)) in H; [exact H|].
  intros i e' _ Hi.
  apply bind_Err in Hi as [Hi|(s & _ & Hi)]; [|discriminate].
  now apply readInt16LE_Err in Hi.
Qed.

Lemma raise_threshold_Err spectrum b thr e :
  raise_threshold pf o spectrum b thr = Err e -> e = TypeError.
Proof.
  unfold raise_threshold.
  apply (foldM_Err (fun e => e = TypeError)).
  intros s j e' _ H.
  apply bind_Err in H as [H|(x & _ & H)]; [|discriminate].
  unfold eww_at in H. destruct b; try (now injection H as <-).
  destruct (if _ <? 0 then None else nth_error (eww o) _);
    [discriminate | now injection H as <-].
Qed.

Lemma update_threshold_Err slots spectrum iL vL :
  forall thr e,
    update_threshold pf o slots spectrum iL vL thr = Err e -> e = TypeError.
Proof.
  induction slots as [|i slots IH]; intros thr e H; cbn [update_threshold] in H;
    [discriminate|].
  destruct (js_gt _ _); [|discriminate].
  apply bind_Err in H as [H|(thr1 & _ & H)];
    [now apply raise_threshold_Err in H | now apply IH in H].
Qed.

Lemma analyse_Err st e :
  analyse pf o st = Err e -> thrown e.
Proof.
  unfold analyse, FFT.forward. intros H.
  apply bind_Err in H as [H|(data & _ & H)];
    [left; now apply window_data_Err in H|].
  apply bind_Err in H as [H|(engine & _ & H)].
  { right. unfold scale_spectrum in H.
    destruct (FFT.spectrum (fft st)); [discriminate|].
    destruct (_ <? _); [now injection H as <- | discriminate]. }
  apply bind_Err in H as [H|(diff & _ & H)].
  { left. unfold positive_diff in H.
    apply bind_Err in H as [H|(len & _ & H)]; [|discriminate].
    now apply new_Array_half_Err in H. }
  apply bind_Err in H as [H|([iL vL] & _ & H)].
  { left. unfold local_maxima in H.
    apply bind_Err in H as [H|(len & _ & H)]; [|discriminate].
    now apply new_Array_Err in H. }
  apply bind_Err in H as [H|([[iL' vL'] thr] & _ & H)]; [|discriminate].
  right. now apply update_threshold_Err in H.
Qed.

Lemma process_frame_Err st out e :
  process_frame pf o st out = Err e -> thrown e.
Proof.
  unfold process_frame. intros H.
  apply bind_Err in H as [H|([[marks1 thr] engine] & _ & H)];
    [now apply analyse_Err in H|].
  apply bind_Err in H as [H|(out' & _ & H)]; [|discriminate].
  right. unfold generate_hashes in H.
  destruct (0 <=? _); [|discriminate].
  destruct (nth_error _ _); [discriminate | now injection H as <-].
Qed.

(** A frame that completes has read its first sample in the buffer. *)
Lemma process_frame_reads st out st' out' :
  1 <= nfft o ->
  process_frame pf o st out = Ok (st', out') ->
  0 <= stepIndex st * bps o - bufferDelta st
    <= Z.of_nat (length (buffer st)) - 2.
Proof.
  intros Hn H.
  apply process_frame_inv in H as (marks1 & thr & engine & Ha & _).
  apply analyse_inv in Ha as (data & ? & ? & ? & ? & ? & Hd & _).
  unfold window_data in Hd. apply bind_Ok in Hd as (len & _ & Hd).
  rewrite Zrange_cons in Hd by lia. cbn [mapM] in Hd.
  apply bind_Ok in Hd as (y & Hy & _). apply bind_Ok in Hy as (s & Hs & _).
  rewrite Z.add_0_r in Hs. unfold readInt16LE in Hs.
  destruct (Z.ltb_spec (stepIndex st * bps o - bufferDelta st) 0);
    [discriminate|].
  pose proof (length_skipn (Z.to_nat (stepIndex st * bps o - bufferDelta st))
                (buffer st)) as Hl.
  destruct (skipn _ (buffer st)) as [|lo [|hi rest]]; try discriminate.
  cbn [length] in Hl. lia.
Qed.

Hypothesis Hstep : step o <> 0.
Hypothesis Hbps : bps o <> 0.
Hypothesis Hnfft : 1 <= nfft o.

(** The offset of the first sample of a frame moves by [step * bps] from
    one turn to the next, and a turn completes only if the offset is in
    the buffer: with as many turns as the buffer holds bytes, left or
    right of the offset, the loop stops by its own condition or by an
    exception of a frame. *)
Lemma frames_loop_Err fuel :
  forall st out e,
    (1 <= fuel)%nat ->
    (0 <= stepIndex st * bps o - bufferDelta st
       <= Z.of_nat (length (buffer st)) - 2 ->
     (0 < step o * bps o ->
      Z.of_nat (length (buffer st)) - (stepIndex st * bps o - bufferDelta st)
      <= Z.of_nat fuel)
     /\ (step o * bps o < 0 ->
         stepIndex st * bps o - bufferDelta st + 2 <= Z.of_nat fuel)) ->
    frames_loop pf o fuel st out = Err e -> thrown e.
Proof.
  induction fuel as [|fuel IH]; intros st out e H1 Hfuel H; [lia|].
  cbn [frames_loop] in H.
  destruct (Z.ltb_spec ((stepIndex st + nfft o) * bps o)
              (Z.of_nat (length (buffer st)) + bufferDelta st)) as [Hc|Hc];
    [|discriminate].
  apply bind_Err in H as [H|([st1 out1] & Hf & H)];
    [now apply process_frame_Err in H|].
  pose proof (process_frame_reads _ _ _ _ Hnfft Hf) as Hoff.
  destruct (Hfuel Hoff) as [Hpos Hneg].
  apply process_frame_inv in Hf
    as (_ & _ & _ & _ & _ & _ & Hb' & Hd' & Hs' & _).
  assert (Hsign : 0 < step o * bps o \/ step o * bps o < 0) by nia.
  apply (IH st1 out1); [destruct Hsign; lia | | exact H].
  rewrite Hb', Hd', Hs'.
  replace ((stepIndex st + step o) * bps o)
    with (stepIndex st * bps o + step o * bps o) by ring.
  intros Hoff'. split; intros Hs; [specialize (Hpos Hs) | specialize (Hneg Hs)]; lia.
Qed.

Lemma transform_with_Err cap st chunk e :
  transform_with pf o cap st chunk = Err e -> thrown e.
Proof.
  unfold transform_with, call_frames. intros H.
  apply bind_Err in H as [H|([st1 out1] & _ & H)]; [|discriminate].
  apply frames_loop_Err in H; [exact H | lia |].
  intros Hoff. split; intros _; lia.
Qed.

End Exceptions.

Section ExceptionTheorems.

Variable pf : Platform.

Lemma orZ_nonzero x d : d <> 0 -> orZ x d <> 0.
Proof.
  intros Hd. unfold orZ. destruct x as [z|]; [|exact Hd].
  destruct (Z.eqb_spec z 0); [exact Hd | assumption].
Qed.

(** [buildOptions] never returns a zero [step] or a zero [bps], and the
    engine accepts [nfft]. *)
Lemma constructor_options user st :
  constructor pf user = Ok st ->
  step (options st) <> 0 /\ bps (options st) <> 0 /\ 2 <= nfft (options st).
Proof.
  intros H. apply constructor_inv in H as (Hb & Hf & _).
  apply constructor_Ok_inv in Hf as (k & Hk & Hn & _).
  destruct (pow2_bounds k Hk) as [[H2 _] Hhalf].
  assert (Hh : 1 <= nfft (options st) / 2).
  { rewrite Hn, Hhalf, Z.mul_comm, Z.div_mul by lia.
    pose proof (Z.pow_pos_nonneg 2 (k - 1)). lia. }
  unfold buildOptions in Hb.
  apply bind_Ok in Hb as (w & _ & Hb). apply bind_Ok in Hb as (e & _ & Hb).
  injection Hb as Hb. rewrite <- Hb in *. cbn [step bps nfft] in *.
  repeat split; [apply orZ_nonzero; lia | apply orZ_nonzero; lia | lia].
Qed.

Lemma reachable_options st :
  reachable pf st ->
  step (options st) <> 0 /\ bps (options st) <> 0 /\ 2 <= nfft (options st).
Proof.
  induction 1 as [user st Hc|st chunk Hr IH|st out st' out' Hr IH Hf|cap st Hr IH].
  - exact (constructor_options user st Hc).
  - exact IH.
  - apply process_frame_inv in Hf as (_ & _ & _ & _ & _ & Ho & _).
    now rewrite Ho.
  - unfold compact. destruct (_ <? _); exact IH.
Qed.

(** X7.  A call of a fingerprinter built by the constructor, in whatever
    state its stream has left it: the loop stops, and a call that does
    not return throws a [RangeError] or a [TypeError], nothing else. *)
Theorem transform_throws_only st chunk :
  reachable pf st ->
  match _transform pf st chunk with
  | Ok _ => True
  | Err e => e = RangeError \/ e = TypeError
  end.
Proof.
  intros Hr. destruct (reachable_options st Hr) as (Hstep & Hbps & Hn).
  unfold _transform.
  destruct (transform_with _ _ _ _ _) as [r|e] eqn:H; [exact I|].
  exact (transform_with_Err pf (options st) Hstep Hbps ltac:(lia)
           1000000 st chunk e H).
Qed.

End ExceptionTheorems.

(** ** What a fingerprinter built by the constructor does *)

Section Shipped.

Variable pf : Platform.

(** X25.  A fingerprinter built by the constructor, in every state its
    stream takes it through: the engine has no spectrum, no record of the
    history holds a peak, a frame completes only if the band holds no bin
    and then adds nothing to [tcodes] and [hcodes], and nothing is ever
    pushed downstream, whatever bytes are written and whether the calls
    return or throw. *)
Theorem constructed_fingerprinter_is_mute st :
  reachable pf st ->
  FFT.spectrum (fft st) = None
  /\ Forall no_peak (marks st)
  /\ (forall out st' out',
        process_frame pf (options st) st out = Ok (st', out') ->
        ifMax (options st) <= ifMin (options st) /\ out' = out)
  /\ (forall cap chunks, fst (run_with pf cap st chunks) = []).
Proof.
  intros Hr. pose proof (reachable_mute pf st Hr) as Hm.
  destruct Hm as [Hs Hp]. split; [exact Hs|]. split; [exact Hp|]. split.
  - intros out st' out' Hf.
    destruct (process_frame_mute pf _ _ _ _ _ (conj Hs Hp) Hf) as (_ & Ho & Hb & _).
    auto.
  - intros cap chunks. exact (run_mute pf cap chunks st (conj Hs Hp)).
Qed.

Lemma process_frame_on_band o st out :
  FFT.spectrum (fft st) = None ->
  ifMin o < ifMax o ->
  process_frame pf o st out
  = match window_data o st with
    | Ok _ => Err TypeError
    | Err e => Err e
    end.
Proof.
  intros Hs Hb. unfold process_frame.
  destruct (window_data o st) as [data|e] eqn:Hd.
  - now rewrite (analyse_throws pf o st data Hs Hb Hd).
  - unfold analyse. now rewrite Hd.
Qed.

(** X26.  A fingerprinter built by the constructor with a bin in its
    band, as with the default options: a frame throws, a [RangeError] if
    its samples cannot be read and a [TypeError] once they are, at the
    first read of the engine's spectrum.  So a call returns exactly when
    the buffer holds no complete frame, and then it has processed and
    pushed nothing. *)
Theorem band_frames_throw st chunk :
  reachable pf st ->
  ifMin (options st) < ifMax (options st) ->
  (forall out,
     process_frame pf (options st) st out
     = match window_data (options st) st with
       | Ok _ => Err TypeError
       | Err e => Err e
       end)
  /\ match _transform pf st chunk with
     | Ok (st', pushed) =>
         pushed = None /\ stepIndex st' = stepIndex st
         /\ ~ (stepIndex st + nfft (options st)) * bps (options st)
              < Z.of_nat (length (buffer st ++ chunk)) + bufferDelta st
     | Err e =>
         (e = RangeError \/ e = TypeError)
         /\ (stepIndex st + nfft (options st)) * bps (options st)
            < Z.of_nat (length (buffer st ++ chunk)) + bufferDelta st
     end.
Proof.
  intros Hr Hb. destruct (reachable_mute pf st Hr) as [Hs _].
  split; [intros out; exact (process_frame_on_band _ st out Hs Hb)|].
  unfold _transform, transform_with, call_frames. cbn [frames_loop].
  cbn [append_chunk stepIndex buffer bufferDelta].
  destruct (Z.ltb_spec ((stepIndex st + nfft (options st)) * bps (options st))
              (Z.of_nat (length (buffer st ++ chunk)) + bufferDelta st))
    as [Hc|Hc].
  - rewrite (process_frame_on_band _ (append_chunk st chunk) _ Hs Hb).
    destruct (window_data _ _) as [data|e] eqn:Hd; cbn [bind].
    + split; [now right | exact Hc].
    + split; [left; exact (window_data_Err _ _ _ Hd) | exact Hc].
  - cbn [bind]. repeat split; [|lia].
    unfold compact. now destruct (_ <? _).
Qed.

End Shipped.

(** ** Frames and timestamps *)

Section FrameCount.

Variable pf : Platform.
Variable o : CodegenOptions.

Lemma frames_loop_counted fuel st out st' out' k :
  counted o k st ->
  (k = 0 \/ ((k - 1) * step o + nfft o) * bps o
            < Z.of_nat (length (buffer st)) + bufferDelta st) ->
  frames_loop pf o fuel st out = Ok (st', out') ->
  exists k',
    counted o k' st'
    /\ (k' = 0 \/ ((k' - 1) * step o + nfft o) * bps o
                  < Z.of_nat (length (buffer st)) + bufferDelta st)
    /\ ~ (k' * step o + nfft o) * bps o
         < Z.of_nat (length (buffer st)) + bufferDelta st.
Proof.
  revert st out k. induction fuel as [|fuel IH]; intros st out k [Hk Hs] Hprev H;
    cbn [frames_loop] in H.
  - destruct (Z.ltb_spec ((stepIndex st + nfft o) * bps o)
                (Z.of_nat (length (buffer st)) + bufferDelta st));
      [discriminate|]. injection H as <- _.
    exists k. rewrite Hs in *. repeat split; auto; lia.
  - destruct (Z.ltb_spec ((stepIndex st + nfft o) * bps o)
                (Z.of_nat (length (buffer st)) + bufferDelta st)) as [Hlt|Hge].
    + apply bind_Ok in H as ([st1 out1] & Hf & H).
      apply process_frame_inv in Hf
        as (_ & _ & _ & _ & _ & _ & Hb & Hd & Hs1 & _).
      destruct (IH st1 out1 (k + 1)) as (k' & Hc & Hp & Hi); auto.
      * split; [lia|]. rewrite Hs1, Hs. lia.
      * right. rewrite Hb, Hd. replace (k + 1 - 1) with k by lia.
        rewrite <- Hs. exact Hlt.
      * exists k'. rewrite Hb, Hd in Hp, Hi. auto.
    + injection H as <- _. exists k. rewrite Hs in *. repeat split; auto; lia.
Qed.

Lemma transform_options cap st chunk st' pushed :
  transform_with pf o cap st chunk = Ok (st', pushed) ->
  options st' = options st.
Proof.
  unfold transform_with, call_frames. intros H.
  apply bind_Ok in H as ([st1 out1] & Hl & H). injection H as <- _.
  apply frames_loop_options in Hl. cbn in Hl.
  unfold compact. destruct (_ <? _); exact Hl.
Qed.

Lemma transform_between_calls T k st chunk st' pushed :
  between_calls o T k st ->
  transform_with pf o 1000000 st chunk = Ok (st', pushed) ->
  exists k', between_calls o (T + Z.of_nat (length chunk)) k' st'.
Proof.
  intros (Hc & Hprev & _ & HT) H.
  pose proof (transform_buffer pf o 1000000 st chunk st' pushed H)
    as Hbuf. cbv zeta in Hbuf. rewrite length_app in Hbuf.
  unfold transform_with, call_frames in H.
  apply bind_Ok in H as ([st1 out1] & Hl & H). injection H as <- _.
  assert (Hprev1 : k = 0 \/ ((k - 1) * step o + nfft o) * bps o
                            < Z.of_nat (length (buffer (append_chunk st chunk)))
                              + bufferDelta (append_chunk st chunk)).
  { cbn [append_chunk buffer bufferDelta]. rewrite length_app.
    destruct Hprev; [now left | right; lia]. }
  destruct (frames_loop_counted _ (append_chunk st chunk) _ _ _ k Hc Hprev1 Hl)
    as (k' & Hc' & Hp' & Hi').
  cbn [append_chunk buffer bufferDelta] in Hp', Hi'. rewrite length_app in Hp', Hi'.
  exists k'. unfold between_calls.
  assert (Hcs : counted o k' (compact 1000000 st1))
    by (unfold compact; destruct (_ <? _); exact Hc').
  split; [exact Hcs|]. split; [destruct Hp'; [now left | right; lia]|].
  split; [lia|].
  destruct (Z_lt_le_dec 1000000 (Z.of_nat (length (buffer st) + length chunk)))
    as [Hlong|Hshort].
  - destruct Hbuf as [Hbuf _]. destruct (Hbuf Hlong) as [-> ->].
    unfold Buffer_slice.
    destruct (Z.ltb_spec (Z.of_nat (length (buffer st) + length chunk) - 20000) 0);
      [lia|].
    rewrite length_skipn, length_app. lia.
  - destruct Hbuf as [_ Hbuf]. destruct (Hbuf Hshort) as [-> ->].
    rewrite length_app. lia.
Qed.

End FrameCount.

Section FrameCountRuns.

Variable pf : Platform.

Lemma run_between_calls chunks :
  forall T k st pushed st',
    between_calls (options st) T k st ->
    run pf st chunks = (pushed, Ok st') ->
    exists k',
      between_calls (options st) (T + Z.of_nat (length (concat chunks))) k' st'.
Proof.
  unfold run.
  induction chunks as [|chunk rest IH]; intros T k st pushed st' Hb H;
    cbn [run_with] in H.
  - injection H as _ <-. exists k. cbn. now rewrite Z.add_0_r.
  - destruct (transform_with _ _ _ _ _) as [[st1 p]|e] eqn:Ht; [|discriminate].
    destruct (run_with _ _ st1 rest) as [more fin] eqn:Hr.
    injection H as _ ->.
    destruct (transform_between_calls _ _ _ _ _ _ _ _ Hb Ht) as (k1 & Hb1).
    apply transform_options in Ht. rewrite <- Ht in Hb1.
    destruct (IH _ _ _ _ _ Hb1 Hr) as (k' & Hb').
    exists k'. rewrite Ht in Hb'. cbn [concat]. rewrite length_app.
    replace (T + Z.of_nat (length chunk + length (concat rest)))
      with (T + Z.of_nat (length chunk) + Z.of_nat (length (concat rest))) by lia.
    exact Hb'.
Qed.

(** X8.  How many frames a stream makes: after [T] bytes have been
    written, whatever the chunks, the frames processed are exactly those
    whose [nfft] samples end strictly before byte [T]: frame [j] covers
    samples [j * step] to [j * step + nfft - 1], and [stepIndex] is
    [step] times their number.  The bytes dropped and the bytes buffered
    add up to [T]. *)
Theorem frames_processed user st0 chunks pushed st :
  constructor pf user = Ok st0 ->
  1 <= bps (options st0) -> 1 <= step (options st0) ->
  run pf st0 chunks = (pushed, Ok st) ->
  let o := options st0 in
  let T := Z.of_nat (length (concat chunks)) in
  exists k,
    0 <= k
    /\ stepIndex st = k * step o
    /\ bufferDelta st + Z.of_nat (length (buffer st)) = T
    /\ (forall j, 0 <= j < k -> (j * step o + nfft o) * bps o < T)
    /\ ~ (k * step o + nfft o) * bps o < T.
Proof.
  intros Hc Hbps Hstep Hrun. cbv zeta.
  destruct (constructor_inv pf user st0 Hc) as (_ & Hf & Hb & Hd & Hs & _).
  destruct (constructor_Ok_inv pf _ _ Hf) as (e & He & Hn & _).
  destruct (pow2_bounds e He) as [[H2 _] _].
  assert (H0 : between_calls (options st0) 0 0 st0).
  { unfold between_calls, counted. rewrite Hb, Hd, Hs. cbn.
    repeat split; auto; try lia; nia. }
  destruct (run_between_calls chunks 0 0 st0 pushed st H0 Hrun)
    as (k & (Hk & Hks) & Hprev & Hidle & HT).
  exists k. rewrite Z.add_0_l in *.
  repeat split; auto; try lia.
  intros j Hj. destruct Hprev as [->|Hprev]; [lia|].
  assert ((j * step (options st0) + nfft (options st0)) * bps (options st0)
          <= ((k - 1) * step (options st0) + nfft (options st0)) * bps (options st0))
    by (apply Z.mul_le_mono_nonneg_r; [lia|]; nia).
  lia.
Qed.

End FrameCountRuns.

(** ** The buffer and the stream *)

Section BufferTail.

Variable pf : Platform.

Lemma transform_holds_tail o all st chunk st' pushed :
  holds_tail all st ->
  transform_with pf o 1000000 st chunk = Ok (st', pushed) ->
  holds_tail (all ++ chunk) st'.
Proof.
  intros (Hd & Hb & Hk) H.
  pose proof (transform_buffer pf o 1000000 st chunk st' pushed H)
    as Hbuf. cbv zeta in Hbuf.
  assert (Hcat : buffer st ++ chunk = skipn (Z.to_nat (bufferDelta st)) (all ++ chunk)).
  { rewrite skipn_app, <- Hb.
    replace (Z.to_nat (bufferDelta st) - length all)%nat with 0%nat by lia.
    reflexivity. }
  assert (Hlen : Z.of_nat (length (buffer st ++ chunk))
                 = Z.of_nat (length (all ++ chunk)) - bufferDelta st).
  { rewrite Hcat, length_skipn, !length_app. lia. }
  unfold holds_tail.
  destruct (Z_lt_le_dec 1000000 (Z.of_nat (length (buffer st ++ chunk))))
    as [Hlong|Hshort].
  - destruct Hbuf as [Hbuf _]. destruct (Hbuf Hlong) as [-> ->].
    unfold Buffer_slice.
    destruct (Z.ltb_spec (Z.of_nat (length (buffer st ++ chunk)) - 20000) 0); [lia|].
    split; [lia|]. split.
    + rewrite Hcat at 2. rewrite skipn_skipn. f_equal. lia.
    + intros _. rewrite length_skipn. lia.
  - destruct Hbuf as [_ Hbuf]. destruct (Hbuf Hshort) as [-> ->].
    split; [rewrite length_app; lia|]. split; [exact Hcat|].
    intros Hpos. specialize (Hk Hpos). rewrite length_app. lia.
Qed.

Lemma run_holds_tail chunks :
  forall all st pushed st',
    holds_tail all st ->
    run pf st chunks = (pushed, Ok st') ->
    holds_tail (all ++ concat chunks) st'.
Proof.
  unfold run.
  induction chunks as [|chunk rest IH]; intros all st pushed st' Hh H;
    cbn [run_with] in H.
  - injection H as _ <-. cbn. now rewrite app_nil_r.
  - destruct (transform_with _ _ _ _ _) as [[st1 p]|e] eqn:Ht; [|discriminate].
    destruct (run_with _ _ st1 rest) as [more fin] eqn:Hr.
    injection H as _ ->.
    pose proof (transform_holds_tail _ _ _ _ _ _ Hh Ht) as H1.
    specialize (IH _ _ _ _ H1 Hr). cbn [concat]. now rewrite app_assoc.
Qed.

(** X9.  Between two calls the buffer holds the bytes written so far from
    offset [bufferDelta] on, in order and without a gap, whatever the
    chunks; and once bytes have been dropped it holds at least the last
    20,000 of them. *)
Theorem buffer_holds_stream_tail user st0 chunks pushed st :
  constructor pf user = Ok st0 ->
  run pf st0 chunks = (pushed, Ok st) ->
  0 <= bufferDelta st <= Z.of_nat (length (concat chunks))
  /\ buffer st = skipn (Z.to_nat (bufferDelta st)) (concat chunks)
  /\ (0 < bufferDelta st -> 20000 <= Z.of_nat (length (buffer st))).
Proof.
  intros Hc Hrun.
  destruct (constructor_inv pf user st0 Hc) as (_ & _ & Hb & Hd & _).
  apply (run_holds_tail chunks [] st0 pushed st); [|exact Hrun].
  unfold holds_tail. rewrite Hb, Hd. cbn. repeat split; lia.
Qed.

End BufferTail.

Section Timestamps.

Variable pf : Platform.
Variable o : CodegenOptions.

Hypothesis Hstep : 1 <= step o.
Hypothesis Hprune : 0 <= pruningDt o.

Lemma js_round_div_multiple k b : 1 <= b -> js_round_div (k * b) b = k.
Proof.
  intros Hb. unfold js_round_div.
  destruct (Z.ltb_spec 0 b); [|lia].
  symmetry. apply Z.div_unique with (r := b); nia.
Qed.

Lemma analyse_record st marks1 thr engine :
  analyse pf o st = Ok (marks1, thr, engine) ->
  exists iL vL,
    marks1 = marks st ++ [ {| Mark.t := js_round_div (stepIndex st + step o) (step o);
                              Mark.i := iL; Mark.v := vL |} ].
Proof.
  intros H.
  apply analyse_inv in H as (? & ? & ? & ? & iL' & vL' & _ & _ & _ & _ & _ & ->).
  eauto.
Qed.

Lemma prune_mark_stamp thr age m : Mark.t (prune_mark pf o thr age m) = Mark.t m.
Proof.
  unfold prune_mark.
  apply Zfor_invariant with (P := fun m' => Mark.t m' = Mark.t m); [reflexivity|].
  intros j m' _ H. destruct (prune_test _ _ _ _ _ _); exact H.
Qed.

Lemma nth_error_cut {A : Type} (a : list A) n x :
  nth_error a n = Some x -> a = firstn n a ++ x :: skipn (S n) a.
Proof.
  revert n. induction a as [|y a IH]; intros [|n] H; cbn in *; try discriminate.
  - now injection H as ->.
  - f_equal. now apply IH.
Qed.

Lemma modify_map {A B : Type} (g : A -> B) (a : list A) i f :
  (forall x, g (f x) = g x) -> map g (modify a i f) = map g a.
Proof.
  intros Hf. unfold modify.
  destruct (nth_error a (Z.to_nat i)) as [x|] eqn:E; [|reflexivity].
  rewrite (nth_error_cut a _ x E) at 3.
  rewrite !map_app. cbn [map]. now rewrite Hf.
Qed.

Lemma prune_stamps marks thr :
  map Mark.t (prune pf o marks thr) = map Mark.t marks.
Proof.
  unfold prune.
  apply Zfor_invariant
    with (P := fun l => map Mark.t l = map Mark.t marks); [reflexivity|].
  intros i l _ <-. apply modify_map. intros m. apply prune_mark_stamp.
Qed.

Lemma map_seq_shift {B : Type} (f : nat -> B) c a m :
  map f (seq (a + c) m) = map (fun k => f (k + c)%nat) (seq a m).
Proof.
  revert a. induction m as [|m IH]; intros a; cbn; [reflexivity|].
  f_equal. apply (IH (S a)).
Qed.

Lemma skipn_Zrange c lo hi :
  skipn c (Zrange lo hi) = Zrange (Z.min (lo + Z.of_nat c) (Z.max lo hi)) hi.
Proof.
  unfold Zrange. rewrite skipn_map, skipn_seq.
  destruct (Z_lt_le_dec hi (lo + Z.of_nat c)).
  - replace (Z.to_nat (hi - lo) - c)%nat with 0%nat by lia.
    replace (Z.to_nat (hi - Z.min (lo + Z.of_nat c) (Z.max lo hi))) with 0%nat by lia.
    reflexivity.
  - replace (Z.min (lo + Z.of_nat c) (Z.max lo hi)) with (lo + Z.of_nat c) by lia.
    replace (Z.to_nat (hi - (lo + Z.of_nat c))) with (Z.to_nat (hi - lo) - c)%nat
      by lia.
    rewrite map_seq_shift. apply map_ext. intros a. lia.
Qed.

Lemma nth_error_Zrange lo hi n x :
  nth_error (Zrange lo hi) n = Some x -> x = lo + Z.of_nat n.
Proof.
  unfold Zrange. rewrite nth_error_map.
  destruct (nth_error (seq 0 (Z.to_nat (hi - lo))) n) as [a|] eqn:E; [|discriminate].
  intros [= <-].
  assert (Hn : (n < length (seq 0 (Z.to_nat (hi - lo))))%nat)
    by (apply nth_error_Some; congruence).
  rewrite length_seq in Hn.
  apply (nth_error_nth _ _ 0%nat) in E. rewrite seq_nth in E by exact Hn. lia.
Qed.

(** The generator for a frame: timestamps and hashes in equal numbers,
    every timestamp that of the anchor's record, at most [mppp] hashes
    for each anchor slot. *)
Lemma anchors_emit marks t0 m range out :
  exists nt nh,
    Zfor range (fun i out => pair_anchor o marks t0 m i out) out
    = codes_app out (nt, nh)
    /\ length nt = length nh
    /\ Forall (eq (Mark.t m)) nt
    /\ (1 <= mppp o -> Z.of_nat (length nh) <= Z.of_nat (length range) * mppp o).
Proof.
  revert out. induction range as [|i range IH]; intros out.
  - exists [], []. rewrite codes_app_nil_r. repeat split; auto. cbn. lia.
  - destruct (pair_anchor_emits o (fun _ => True) marks t0 m i)
      as (nt1 & nh1 & E1 & Hl1 & _ & Ht1 & Hc1); [auto|].
    destruct (IH (pair_anchor o marks t0 m i out)) as (nt2 & nh2 & E2 & Hl2 & Ht2 & Hc2).
    exists (nt1 ++ nt2), (nh1 ++ nh2).
    change (Zfor (i :: range) (fun i out => pair_anchor o marks t0 m i out) out)
      with (Zfor range (fun i out => pair_anchor o marks t0 m i out)
                 (pair_anchor o marks t0 m i out)).
    rewrite E2, pair_anchor_prefix, E1, codes_app_assoc.
    repeat split.
    + rewrite !length_app. lia.
    + apply Forall_app. auto.
    + intros Hm. rewrite length_app. cbn [length]. specialize (Hc1 Hm).
      specialize (Hc2 Hm). lia.
Qed.

Lemma generate_hashes_emits marks t0 out out' :
  generate_hashes o marks t0 out = Ok out' ->
  exists nt nh,
    out' = codes_app out (nt, nh)
    /\ length nt = length nh
    /\ (t0 < 0 -> nt = [])
    /\ (forall m, nth_error marks (Z.to_nat t0) = Some m ->
        Forall (eq (Mark.t m)) nt
        /\ (1 <= mppp o ->
            Z.of_nat (length nh) <= Z.of_nat (length (Mark.i m)) * mppp o)).
Proof.
  unfold generate_hashes. intros H.
  destruct (Z.leb_spec 0 t0).
  - destruct (nth_error marks (Z.to_nat t0)) as [m|] eqn:E; [|discriminate].
    injection H as <-.
    destruct (anchors_emit marks t0 m (Zrange 0 (Z.of_nat (length (Mark.i m)))) out)
      as (nt & nh & E' & Hl & Ht & Hc).
    exists nt, nh. split; [auto|]. split; [exact Hl|]. split; [lia|].
    intros m' Hm'. injection Hm' as <-. split; [exact Ht|].
    intros Hm. specialize (Hc Hm). rewrite Zrange_length in Hc. lia.
  - injection H as <-. exists [], []. rewrite codes_app_nil_r.
    split; [reflexivity|]. split; [reflexivity|]. split; [reflexivity|].
    intros m _. split; [constructor|]. intros Hm. cbn. nia.
Qed.

(** One more frame: the history is stamped with the frame numbers, and
    the timestamps the frame emits are all [k + 1 - pruningDt]. *)
Lemma process_frame_stamped k st out st' out' :
  stamped o k st ->
  process_frame pf o st out = Ok (st', out') ->
  stamped o (k + 1) st'
  /\ exists nt,
       fst out' = fst out ++ nt
       /\ Forall (eq (k + 1 - pruningDt o)) nt
       /\ (nt = [] \/ 1 <= k + 1 - pruningDt o).
Proof.
  intros ((Hk & Hs) & Hlen & Hst) H.
  apply process_frame_inv in H
    as (marks1 & thr & engine & Ha & Hg & _ & _ & _ & Hs' & Hm' & _).
  apply analyse_record in Ha as (iL & vL & ->).
  rewrite Hs in *.
  replace (k * step o + step o) with ((k + 1) * step o) in * by lia.
  rewrite js_round_div_multiple in * by exact Hstep.
  set (new := {| Mark.t := k + 1; Mark.i := iL; Mark.v := vL |}) in *.
  remember (Z.of_nat (length (marks st ++ [new]))) as nm eqn:Enm0.
  assert (Enm : nm = Z.of_nat (length (marks st)) + 1)
    by (rewrite Enm0, length_app; cbn; lia).
  assert (Hst1 : map Mark.t (prune pf o (marks st ++ [new]) thr)
                 = Zrange (k + 2 - nm) (k + 2)).
  { rewrite prune_stamps, map_app, Hst. cbn [map Mark.t new].
    replace (k + 2) with (k + 1 + 1) by lia.
    rewrite (Zrange_snoc (k + 1 + 1 - nm) (k + 1)) by lia. do 2 f_equal. lia. }
  split.
  - unfold stamped, counted. rewrite Hs', Hm'.
    rewrite length_skipn, prune_length.
    split; [split; lia|]. split; [lia|].
    rewrite <- skipn_map, Hst1, skipn_Zrange.
    f_equal; lia.
  - destruct (generate_hashes_emits _ _ _ _ Hg) as (nt & nh & -> & _ & Hneg & Hpos).
    exists nt. split; [reflexivity|].
    destruct (Z_lt_le_dec (nm - pruningDt o - 1) 0) as [Hlt|Hge].
    + rewrite (Hneg Hlt). split; [constructor | now left].
    + destruct (nth_error (prune pf o (marks st ++ [new]) thr)
                  (Z.to_nat (nm - pruningDt o - 1))) as [m|] eqn:E.
      * destruct (Hpos m eq_refl) as [Ht _].
        assert (Et : Mark.t m = k + 1 - pruningDt o).
        { apply (map_nth_error Mark.t) in E. rewrite Hst1 in E.
          apply nth_error_Zrange in E. lia. }
        rewrite <- Et. split; [exact Ht|]. right. lia.
      * apply nth_error_None in E. rewrite prune_length in E.
        unfold generate_hashes in Hg.
        destruct (Z.leb_spec 0 (nm - pruningDt o - 1)); [|lia].
        lia.
Qed.

End Timestamps.

Section TimestampRuns.

Variable pf : Platform.
Variable o : CodegenOptions.

Hypothesis Hstep : 1 <= step o.
Hypothesis Hprune : 0 <= pruningDt o.

Lemma StronglySorted_app (l1 l2 : list Z) :
  StronglySorted Z.le l1 -> StronglySorted Z.le l2 ->
  (forall x y, In x l1 -> In y l2 -> x <= y) ->
  StronglySorted Z.le (l1 ++ l2).
Proof.
  induction l1 as [|a l1 IH]; intros H1 H2 H; cbn; [exact H2|].
  inversion H1 as [|? ? Hs Hf]; subst. constructor.
  - apply IH; auto. intros x y Hx Hy. apply H; [now right | exact Hy].
  - apply Forall_app. split; [exact Hf|].
    apply Forall_forall. intros y Hy. apply H; [now left | exact Hy].
Qed.

Lemma StronglySorted_constant c (l : list Z) :
  Forall (eq c) l -> StronglySorted Z.le l.
Proof.
  induction 1 as [|x l <- Hl IH]; constructor; [exact IH|].
  apply Forall_forall. intros y Hy. rewrite Forall_forall in Hl.
  rewrite <- (Hl y Hy). lia.
Qed.

Lemma ordered_stamps_next k emitted nt :
  ordered_stamps (pruningDt o) k emitted ->
  Forall (eq (k + 1 - pruningDt o)) nt ->
  (nt = [] \/ 1 <= k + 1 - pruningDt o) ->
  ordered_stamps (pruningDt o) (k + 1) (emitted ++ nt).
Proof.
  intros [Hs Hb] Hnt Hone. split.
  - apply StronglySorted_app; [exact Hs | eapply StronglySorted_constant; eauto |].
    intros x y Hx Hy. rewrite Forall_forall in Hb, Hnt.
    rewrite <- (Hnt y Hy). specialize (Hb x Hx). lia.
  - apply Forall_app. split.
    + eapply Forall_impl; [|exact Hb]. cbn. intros; lia.
    + destruct Hone as [->|Hone]; [constructor|].
      eapply Forall_impl; [|exact Hnt]. cbn. intros a <-. lia.
Qed.

Lemma frames_loop_ordered fuel st out st' out' k pre :
  stamped o k st ->
  ordered_stamps (pruningDt o) k (pre ++ fst out) ->
  frames_loop pf o fuel st out = Ok (st', out') ->
  exists k',
    stamped o k' st' /\ ordered_stamps (pruningDt o) k' (pre ++ fst out').
Proof.
  revert st out k. induction fuel as [|fuel IH]; intros st out k Hs Ho H;
    cbn [frames_loop] in H.
  - destruct (_ <? _); [discriminate|]. injection H as <- <-. eauto.
  - destruct (_ <? _); [|injection H as <- <-; eauto].
    apply bind_Ok in H as ([st1 out1] & Hf & H).
    destruct (process_frame_stamped pf o Hstep Hprune k st out st1 out1
                Hs Hf)
      as (Hs1 & nt & E & Hnt & Hone).
    apply (IH st1 out1 (k + 1) Hs1); [|exact H].
    rewrite E, app_assoc. now apply ordered_stamps_next.
Qed.

Lemma transform_ordered cap st chunk st' pushed k pre :
  stamped o k st ->
  ordered_stamps (pruningDt o) k pre ->
  transform_with pf o cap st chunk = Ok (st', pushed) ->
  exists k',
    stamped o k' st'
    /\ ordered_stamps (pruningDt o) k'
         (pre ++ match pushed with Some b => tcodes b | None => [] end).
Proof.
  intros Hs Ho H. unfold transform_with, call_frames in H.
  apply bind_Ok in H as ([st1 out1] & Hl & H). injection H as <- <-.
  assert (Ho1 : ordered_stamps (pruningDt o) k (pre ++ fst (([], []) : codes)))
    by (cbn; now rewrite app_nil_r).
  destruct (frames_loop_ordered _ (append_chunk st chunk) _ _ _ k pre Hs Ho1 Hl)
    as (k' & Hs' & Ho').
  exists k'. split.
  - unfold compact. destruct (_ <? _); exact Hs'.
  - unfold pushed_of. destruct (Z.ltb_spec 0 (Z.of_nat (length (fst out1)))); [exact Ho'|].
    destruct (fst out1); [exact Ho' | cbn in *; lia].
Qed.

End TimestampRuns.

Section TimestampTheorem.

Variable pf : Platform.

Lemma run_ordered cap chunks :
  forall st k pre pushed final,
    1 <= step (options st) -> 0 <= pruningDt (options st) ->
    stamped (options st) k st ->
    ordered_stamps (pruningDt (options st)) k pre ->
    run_with pf cap st chunks = (pushed, final) ->
    exists k',
      ordered_stamps (pruningDt (options st)) k' (pre ++ all_tcodes pushed)
      /\ forall st', final = Ok st' -> stamped (options st) k' st'.
Proof.
  induction chunks as [|chunk rest IH]; intros st k pre pushed final Hstep Hp Hs Ho H;
    cbn [run_with] in H.
  - injection H as <- <-. exists k. cbn. rewrite app_nil_r. split; [exact Ho|].
    now intros st' [= <-].
  - destruct (transform_with _ _ _ _ _) as [[st1 p]|e] eqn:Ht.
    + destruct (run_with _ _ st1 rest) as [more fin] eqn:Hr.
      injection H as <- <-.
      destruct (transform_ordered pf (options st) Hstep Hp
                  cap st chunk st1 p k pre Hs Ho Ht) as (k1 & Hs1 & Ho1).
      pose proof (transform_options pf _ _ _ _ _ _ Ht) as Hopt.
      rewrite <- Hopt in Hs1, Ho1, Hstep, Hp.
      destruct (IH st1 k1 _ more fin Hstep Hp Hs1 Ho1 Hr) as (k' & Ho' & Hfin).
      rewrite Hopt in Ho', Hfin. exists k'. split; [|exact Hfin].
      destruct p as [b|]; cbn [all_tcodes flat_map] in *.
      * now rewrite app_assoc.
      * now rewrite app_nil_r in Ho'.
    + injection H as <- <-. exists k. cbn. rewrite app_nil_r.
      split; [exact Ho | discriminate].
Qed.

(** X11.  The history between two calls holds the records of the last
    frames processed, in order: their timestamps are consecutive frame
    numbers, the last one being the number of frames processed so far,
    [stepIndex / step]. *)
Theorem history_consecutive user st0 cap chunks pushed st :
  constructor pf user = Ok st0 ->
  1 <= step (options st0) -> 0 <= pruningDt (options st0) ->
  run_with pf cap st0 chunks = (pushed, Ok st) ->
  exists k,
    0 <= k
    /\ stepIndex st = k * step (options st0)
    /\ Z.of_nat (length (marks st)) <= k
    /\ map Mark.t (marks st)
       = Zrange (k + 1 - Z.of_nat (length (marks st))) (k + 1).
Proof.
  intros Hc Hstep Hp Hrun.
  destruct (constructor_inv pf user st0 Hc) as (_ & _ & _ & _ & Hs & Hm & _).
  assert (H0 : stamped (options st0) 0 st0).
  { unfold stamped, counted. rewrite Hs, Hm. cbn. repeat split; lia. }
  assert (O0 : ordered_stamps (pruningDt (options st0)) 0 [])
    by (split; constructor).
  destruct (run_ordered cap chunks st0 0 [] pushed (Ok st) Hstep Hp H0 O0 Hrun)
    as (k & _ & Hfin).
  destruct (Hfin st eq_refl) as ((Hk & Hks) & Hlen & Hts).
  exists k. auto.
Qed.

End TimestampTheorem.

(** ** Tables slot by slot *)

Lemma Forall2_firstn {A B : Type} (R : A -> B -> Prop) n a b :
  Forall2 R a b -> Forall2 R (firstn n a) (firstn n b).
Proof.
  intros H. revert n. induction H; intros [|n]; cbn; constructor; auto.
Qed.

Lemma Forall2_skipn {A B : Type} (R : A -> B -> Prop) n a b :
  Forall2 R a b -> Forall2 R (skipn n a) (skipn n b).
Proof.
  intros H. revert n. induction H; intros [|n]; cbn; auto.
Qed.

Lemma Forall2_repeat {A B : Type} (R : A -> B -> Prop) x y n :
  R x y -> Forall2 R (repeat x n) (repeat y n).
Proof. intros H. induction n; cbn; constructor; auto. Qed.

Lemma js_set_Forall2 {A B : Type} (R : A -> B -> Prop) d d' a b i x y :
  Forall2 R a b -> R d d' -> R x y ->
  Forall2 R (js_set d a i x) (js_set d' b i y).
Proof.
  intros Hab Hd Hxy. unfold js_set.
  rewrite <- (Forall2_length Hab).
  destruct (i <? 0); [exact Hab|].
  destruct (i <? Z.of_nat (length a)).
  - apply Forall2_app; [now apply Forall2_firstn|].
    constructor; [exact Hxy | now apply Forall2_skipn].
  - apply Forall2_app; [exact Hab|].
    apply Forall2_app; [now apply Forall2_repeat | now repeat constructor].
Qed.

Lemma js_get_Forall2 {A B : Type} (R : A -> B -> Prop) d d' a b i :
  Forall2 R a b -> R d d' -> R (js_get d a i) (js_get d' b i).
Proof.
  intros Hab Hd. unfold js_get. destruct (i <? 0); [exact Hd|].
  generalize (Z.to_nat i). intros n. revert n.
  induction Hab; intros [|n]; cbn; auto.
Qed.

(** ** The records of the history *)

Section RecordFacts.

Variable pf : Platform.
Variable o : CodegenOptions.

Lemma insert_peak_slots i x iL vL :
  ifMin o < i < ifMax o - 1 ->
  Forall2 (slot_ok o) iL vL ->
  Forall2 (slot_ok o) (fst (insert_peak o i x (iL, vL)))
                      (snd (insert_peak o i x (iL, vL))).
Proof.
  intros Hi H. unfold insert_peak.
  apply Zfor_invariant with
    (P := fun st : bool * (list binval * list float) =>
            Forall2 (slot_ok o) (fst (snd st)) (snd (snd st))); [exact H|].
  intros j [done [iL1 vL1]] _ H1. cbn [fst snd] in *.
  destruct done; [exact H1|].
  destruct (_ && _); [exact H1|].
  destruct (Zfor _ _ (iL1, vL1)) as [iL2 vL2] eqn:E. cbn [fst snd].
  assert (H2 : Forall2 (slot_ok o) (fst (iL2, vL2)) (snd (iL2, vL2))).
  { rewrite <- E.
    apply Zfor_invariant with
      (P := fun p : list binval * list float =>
              Forall2 (slot_ok o) (fst p) (snd p)); [exact H1|].
    intros k [iL3 vL3] _ H3. cbn [fst snd] in *.
    apply js_set_Forall2; [exact H3 | reflexivity|].
    apply js_get_Forall2; [exact H3 | reflexivity]. }
  apply js_set_Forall2; [exact H2 | reflexivity | exact Hi].
Qed.

Lemma insert_peak_length i x iL vL :
  Z.of_nat (length iL) = mnlm o -> length vL = length iL ->
  length (fst (insert_peak o i x (iL, vL))) = length iL
  /\ length (snd (insert_peak o i x (iL, vL))) = length iL.
Proof.
  intros Hn Hv. unfold insert_peak.
  apply Zfor_invariant with
    (P := fun st : bool * (list binval * list float) =>
            length (fst (snd st)) = length iL /\ length (snd (snd st)) = length iL);
    [cbn; auto|].
  intros j [done [iL1 vL1]] Hj [H1 H2]. cbn [fst snd] in *.
  apply Zrange_down_In in Hj.
  destruct done; [auto|]. destruct (_ && _); [auto|].
  destruct (Zfor _ _ (iL1, vL1)) as [iL2 vL2] eqn:E. cbn [fst snd].
  assert (H3 : length (fst (iL2, vL2)) = length iL
               /\ length (snd (iL2, vL2)) = length iL).
  { rewrite <- E.
    apply Zfor_invariant with
      (P := fun p : list binval * list float =>
              length (fst p) = length iL /\ length (snd p) = length iL);
      [cbn; auto|].
    intros k [iL3 vL3] Hk [H3 H4]. cbn [fst snd] in *.
    apply Zrange_down_In in Hk. unfold arr_set.
    rewrite !js_set_length_in by lia. auto. }
  cbn [fst snd] in H3. destruct H3 as [H3 H4]. unfold arr_set.
  rewrite !js_set_length_in by lia. auto.
Qed.

Lemma local_maxima_tables spectrum diff iL vL :
  local_maxima o spectrum diff = Ok (iL, vL) ->
  Forall2 (slot_ok o) iL vL /\ Z.of_nat (length iL) = mnlm o.
Proof.
  unfold local_maxima. intros H.
  apply bind_Ok in H as (len & Hlen & H). apply new_Array_Ok in Hlen as [-> Hm].
  injection H as H.
  assert (P : Forall2 (slot_ok o) (fst (iL, vL)) (snd (iL, vL))
              /\ length (fst (iL, vL)) = Z.to_nat (mnlm o)
              /\ length (snd (iL, vL)) = Z.to_nat (mnlm o)).
  { rewrite <- H.
    apply Zfor_invariant with
      (P := fun p : list binval * list float =>
              Forall2 (slot_ok o) (fst p) (snd p)
              /\ length (fst p) = Z.to_nat (mnlm o)
              /\ length (snd p) = Z.to_nat (mnlm o)).
    - cbn. rewrite !repeat_length. split; [|auto].
      apply Forall2_repeat. cbn [slot_ok]. apply js_gt_irrefl.
    - intros i [iL1 vL1] Hi (H1 & H2 & H3). cbn [fst snd] in *.
      apply Zrange_In in Hi.
      destruct (_ && _); [|auto].
      destruct (insert_peak_length i (arr_get spectrum i) iL1 vL1) as [H4 H5];
        [lia | congruence |].
      split; [apply insert_peak_slots; [lia | exact H1]|].
      split; congruence. }
  cbn [fst snd] in P. destruct P as (P1 & P2 & _). split; [exact P1 | lia].
Qed.

Lemma kept_prefix iL vL :
  Forall2 (slot_ok o) iL vL ->
  forall n,
    (forall j, (j < n)%nat -> (j < length vL)%nat ->
       js_gt (nth j vL PrimFloat.nan) PrimFloat.neg_infinity = true) ->
    Forall2 (slot_kept o) (firstn n iL) (firstn n vL).
Proof.
  induction 1 as [|b x iL vL Hbx H IH]; intros [|n] Hn; cbn; try constructor.
  - specialize (Hn 0%nat ltac:(lia) ltac:(cbn; lia)). cbn in Hn.
    destruct b; cbn in *; [congruence | exact Hbx | contradiction].
  - apply IH. intros j Hj Hl. apply (Hn (S j)); cbn; lia.
Qed.

Lemma update_threshold_kept (count : nat) :
  forall a spectrum iL vL thr iL' vL' thr',
    Z.to_nat (mnlm o - a) = count -> 0 <= a ->
    Forall2 (slot_ok o) iL vL -> Z.of_nat (length iL) = mnlm o ->
    (forall j, (j < Z.to_nat a)%nat -> (j < length vL)%nat ->
       js_gt (nth j vL PrimFloat.nan) PrimFloat.neg_infinity = true) ->
    update_threshold pf o (Zrange a (mnlm o)) spectrum iL vL thr
    = Ok (iL', vL', thr') ->
    Forall2 (slot_kept o) iL' vL' /\ Z.of_nat (length iL') <= mnlm o.
Proof.
  induction count as [|count IH];
    intros a spectrum iL vL thr iL' vL' thr' Hc Ha H2 Hn Hpre H.
  - rewrite Zrange_nil in H by lia. cbn in H. injection H as <- <- _.
    split; [|lia].
    pose proof (Forall2_length H2) as Hl.
    rewrite <- (firstn_all iL), <- (firstn_all vL), <- Hl.
    apply kept_prefix; [exact H2|]. intros j Hj. apply Hpre. lia.
  - rewrite Zrange_cons in H by lia. cbn [update_threshold] in H.
    destruct (js_gt (arr_get vL a) PrimFloat.neg_infinity) eqn:E.
    + apply bind_Ok in H as (thr1 & _ & H).
      apply (IH (a + 1) spectrum iL vL thr1 iL' vL' thr'); auto; try lia.
      intros j Hj Hl.
      destruct (Nat.eq_dec j (Z.to_nat a)) as [->|Hne]; [|apply Hpre; lia].
      unfold arr_get, js_get in E. destruct (Z.ltb_spec a 0); [lia | exact E].
    + injection H as <- <- _. unfold splice.
      pose proof (Forall2_length H2) as Hl.
      rewrite !skipn_all2 by lia. rewrite !app_nil_r.
      split; [apply kept_prefix; [exact H2 | exact Hpre]|].
      rewrite length_firstn. lia.
Qed.

Lemma js_set_Forall2_in {A B : Type} (R : A -> B -> Prop) d d' a b i x y :
  Forall2 R a b -> 0 <= i < Z.of_nat (length a) -> R x y ->
  Forall2 R (js_set d a i x) (js_set d' b i y).
Proof.
  intros H Hi Hxy. pose proof (Forall2_length H) as Hl. unfold js_set.
  destruct (Z.ltb_spec i 0); [lia|].
  destruct (Z.ltb_spec i (Z.of_nat (length a))); [|lia].
  destruct (Z.ltb_spec i (Z.of_nat (length b))); [|lia].
  apply Forall2_app; [now apply Forall2_firstn|].
  constructor; [exact Hxy | now apply Forall2_skipn].
Qed.

Lemma prune_mark_record_ok thr age m :
  record_ok o m -> record_ok o (prune_mark pf o thr age m).
Proof.
  intros [H2 Hn]. pose proof (Forall2_length H2) as Hl.
  cut (record_ok o (prune_mark pf o thr age m)
       /\ length (Mark.i (prune_mark pf o thr age m)) = length (Mark.i m));
    [tauto|].
  unfold prune_mark.
  apply Zfor_invariant with
    (P := fun m' => record_ok o m' /\ length (Mark.i m') = length (Mark.i m));
    [split; [split|]; auto|].
  intros j m' Hj [[H2' Hn'] Hl']. apply Zrange_In in Hj.
  destruct (prune_test _ _ _ _ _ _); [|split; [split|]; auto].
  unfold record_ok. cbn [Mark.i Mark.v]. unfold arr_set.
  rewrite js_set_length_in by lia.
  split; [split; [|exact Hn']|exact Hl'].
  apply js_set_Forall2_in; [exact H2' | lia | reflexivity].
Qed.

Lemma prune_record_ok marks thr :
  Forall (record_ok o) marks -> Forall (record_ok o) (prune pf o marks thr).
Proof.
  intros H. unfold prune.
  apply Zfor_invariant with (P := Forall (record_ok o)); [exact H|].
  intros i l _ Hl. apply modify_Forall; [exact Hl|].
  intros m. apply prune_mark_record_ok.
Qed.

(** X12.  The record of a frame, whatever the surface and the excess it
    is read from: the tables the threshold update leaves, from those of
    the scan for local maxima, have the same length, at most [mnlm], and
    each slot holds a bin strictly inside the band
    ([ifMin < bin < ifMax - 1]), never the initial [NaN].  Pruning keeps
    records so: a pruned slot holds the two sentinels. *)
Theorem frame_record_ok spectrum diff thr iL vL iL' vL' thr' t :
  local_maxima o spectrum diff = Ok (iL, vL) ->
  update_threshold pf o (Zrange 0 (mnlm o)) spectrum iL vL thr
  = Ok (iL', vL', thr') ->
  record_ok o {| Mark.t := t; Mark.i := iL'; Mark.v := vL' |}
  /\ forall marks thr2,
       Forall (record_ok o) marks -> Forall (record_ok o) (prune pf o marks thr2).
Proof.
  intros Hloc Hup. split; [|intros marks thr2; apply prune_record_ok].
  apply local_maxima_tables in Hloc as [H2 Hn].
  unfold record_ok. cbn [Mark.i Mark.v].
  apply (update_threshold_kept (Z.to_nat (mnlm o - 0)) 0 _ _ _ _ _ _ _ eq_refl
           ltac:(lia) H2 Hn) with (2 := Hup).
  intros j Hj. cbn in Hj. lia.
Qed.

End RecordFacts.

(** ** Hashes and the peaks they pair *)

Lemma js_get_In {A : Type} (d : A) l i x :
  js_get d l i = x -> x <> d -> In x l.
Proof.
  unfold js_get. intros H Hx. destruct (i <? 0); [congruence|].
  destruct (nth_in_or_default (Z.to_nat i) l d) as [Hin|Hd]; congruence.
Qed.

Section Landmarks.

Variable o : CodegenOptions.

Lemma anchors_landmarks marks t0 m range out :
  0 <= t0 -> nth_error marks (Z.to_nat t0) = Some m ->
  exists nt nh,
    Zfor range (fun i out => pair_anchor o marks t0 m i out) out
    = codes_app out (nt, nh)
    /\ length nt = length nh
    /\ Forall (eq (Mark.t m)) nt
    /\ Forall (landmark o marks t0 m) nh.
Proof.
  intros Ht0 Hm. revert out. induction range as [|i range IH]; intros out.
  - exists [], []. rewrite codes_app_nil_r. repeat split; auto.
  - destruct (pair_anchor_emits o (landmark o marks t0 m) marks t0 m i)
      as (nt1 & nh1 & E1 & Hl1 & HQ1 & Ht1 & _).
    { intros j k Hj Hk Htest.
      apply bin_test_inv in Htest as (kb & ka & Eb & Ea & Hne & Hdist).
      assert (Hlen : (Z.to_nat j < length marks)%nat).
      { assert (Hs : nth_error marks (Z.to_nat t0) <> None) by congruence.
        apply nth_error_Some in Hs. lia. }
      exists j, (nth (Z.to_nat j) marks m), ka, kb.
      split; [exact Hj|]. split; [now apply nth_error_nth'|].
      split; [apply (js_get_In NaNBin _ i); [exact Ea | discriminate]|].
      split; [apply (js_get_In NaNBin _ k); [exact Eb | discriminate]|].
      rewrite Eb, Ea. cbn [hash]. auto. }
    destruct (IH (pair_anchor o marks t0 m i out)) as (nt2 & nh2 & E2 & Hl2 & Ht2 & HQ2).
    exists (nt1 ++ nt2), (nh1 ++ nh2).
    change (Zfor (i :: range) (fun i out => pair_anchor o marks t0 m i out) out)
      with (Zfor range (fun i out => pair_anchor o marks t0 m i out)
                 (pair_anchor o marks t0 m i out)).
    rewrite E2, pair_anchor_prefix, E1, codes_app_assoc.
    repeat split.
    + rewrite !length_app. lia.
    + apply Forall_app. auto.
    + apply Forall_app. auto.
Qed.

(** X14.  The hashes generated for frame [t0] of the history: nothing
    when [t0 < 0]; otherwise as many timestamps as hashes, every timestamp
    that of the record of frame [t0], and every hash the packing of a peak
    of that record with a different peak, less than [windowDf] bins away,
    of a record at most [windowDt] frames earlier. *)
Theorem hashes_are_landmarks marks t0 out out' :
  generate_hashes o marks t0 out = Ok out' ->
  exists nt nh,
    out' = codes_app out (nt, nh)
    /\ length nt = length nh
    /\ (t0 < 0 -> nh = [])
    /\ forall m, 0 <= t0 -> nth_error marks (Z.to_nat t0) = Some m ->
         Forall (eq (Mark.t m)) nt /\ Forall (landmark o marks t0 m) nh.
Proof.
  unfold generate_hashes. intros H.
  destruct (Z.leb_spec 0 t0) as [Ht0|Ht0].
  - destruct (nth_error marks (Z.to_nat t0)) as [m|] eqn:E; [|discriminate].
    injection H as <-.
    destruct (anchors_landmarks marks t0 m
                (Zrange 0 (Z.of_nat (length (Mark.i m)))) out Ht0 E)
      as (nt & nh & E1 & Hl & Ht & HQ).
    exists nt, nh. split; [exact E1|]. split; [exact Hl|]. split; [lia|].
    intros m' _ [= <-]. auto.
  - injection H as <-. exists [], []. rewrite codes_app_nil_r.
    repeat split; auto; lia.
Qed.

End Landmarks.

(** ** The hashes of a frame, exactly *)

Section Pairing.

Variable o : CodegenOptions.

Lemma scanned_skip tc seen more st :
  fst (fst st) = true -> scanned o tc seen st -> scanned o tc (seen ++ more) st.
Proof.
  intros Hstop (Hh & Ht & Hn & Hs). rewrite Hstop in Hs.
  symmetry in Hs. apply Nat.leb_le in Hs.
  unfold scanned. rewrite Hstop, length_app.
  split; [|split; [exact Ht|split; [exact Hn|]]].
  - rewrite Hh, firstn_app.
    replace (fanout o - length seen)%nat with 0%nat by lia.
    cbn. now rewrite app_nil_r.
  - symmetry. apply Nat.leb_le. lia.
Qed.

Lemma pair_frame_scanned m m2 i delta range :
  forall st seen,
    scanned o (Mark.t m) seen st ->
    scanned o (Mark.t m)
      (seen ++ flat_map (fun k =>
                 let a := js_get NaNBin (Mark.i m) i in
                 let b := js_get NaNBin (Mark.i m2) k in
                 if bin_neq b a && bin_dist_lt b a (windowDf o)
                 then [hash o b a delta] else []) range)
      (Zfor range
            (fun k '(stop, nFingers, out) =>
               if (stop : bool) then (stop, nFingers, out)
               else
                 let a := js_get NaNBin (Mark.i m) i in
                 let b := js_get NaNBin (Mark.i m2) k in
                 if bin_neq b a && bin_dist_lt b a (windowDf o)
                 then (mppp o <=? nFingers + 1, nFingers + 1,
                       push_code out (Mark.t m) (hash o b a delta))
                 else (stop, nFingers, out))
            st).
Proof.
  induction range as [|k range IH]; intros st seen Hs.
  - cbn. now rewrite app_nil_r.
  - cbn [flat_map Zfor fold_left]. rewrite app_assoc.
    match goal with
    | |- scanned _ _ _ (fold_left ?f range ?s) =>
        change (fold_left f range s) with (Zfor range (fun k st => f st k) s)
    end.
    apply IH. destruct st as [[stop n] [nt nh]]. cbv zeta.
    destruct stop; [now apply scanned_skip|].
    destruct (bin_neq _ _ && bin_dist_lt _ _ _); [|now rewrite app_nil_r].
    destruct Hs as (Hh & Ht & Hn & Hstop). cbn [fst snd] in *.
    symmetry in Hstop. apply Nat.leb_gt in Hstop.
    rewrite firstn_all2 in Hh by lia. subst nh.
    unfold scanned, push_code. cbn [fst snd].
    rewrite !length_app. cbn [length].
    split; [|split; [|split]].
    + symmetry. apply firstn_all2. rewrite length_app. cbn. lia.
    + rewrite Ht, repeat_app. reflexivity.
    + lia.
    + rewrite Hn. unfold fanout.
      destruct (Z.leb_spec (mppp o) (Z.of_nat (length seen) + 1));
        symmetry; [apply Nat.leb_le | apply Nat.leb_gt]; lia.
Qed.

Lemma pair_anchor_scanned marks t0 m i range :
  forall st seen,
    scanned o (Mark.t m) seen st ->
    scanned o (Mark.t m)
      (seen ++ flat_map (fun j => pairs_with o m (nth (Z.to_nat j) marks m) i (t0 - j))
                        range)
      (Zfor range
            (fun j (st : bool * Z * codes) =>
               if fst (fst st) then st
               else pair_frame o m (nth (Z.to_nat j) marks m) i (t0 - j) st)
            st).
Proof.
  induction range as [|j range IH]; intros st seen Hs.
  - cbn. now rewrite app_nil_r.
  - cbn [flat_map Zfor fold_left]. rewrite app_assoc.
    match goal with
    | |- scanned _ _ _ (fold_left ?f range ?s) =>
        change (fold_left f range s) with (Zfor range (fun k st => f st k) s)
    end.
    apply IH. destruct (fst (fst st)) eqn:Hstop; [now apply scanned_skip|].
    unfold pair_frame, pairs_with. now apply pair_frame_scanned.
Qed.

Lemma pair_anchor_exact marks t0 m i :
  pair_anchor o marks t0 m i ([], [])
  = (repeat (Mark.t m) (length (firstn (fanout o) (candidates o marks t0 m i))),
     firstn (fanout o) (candidates o marks t0 m i)).
Proof.
  unfold pair_anchor.
  destruct (pair_anchor_scanned marks t0 m i
              (Zrange_down t0 (Z.max 0 (t0 - windowDt o)))
              (false, 0, ([], [])) [])
    as (Hh & Ht & _).
  { unfold scanned, fanout. cbn. repeat split.
    - now rewrite firstn_nil.
    - symmetry. apply Nat.leb_gt. lia. }
  cbn [app] in Hh, Ht. fold (candidates o marks t0 m i) in Hh, Ht.
  destruct (snd (Zfor _ _ _)) as [nt nh]. cbn [fst snd] in Hh, Ht.
  now rewrite Ht, Hh.
Qed.

(** X15.  The hashes generated for frame [t0] of the history, exactly: for
    each slot of its record in turn, the pairs that pass the test, met by
    scanning the records from frame [t0] back to frame [t0 - windowDt] and
    the slots of each in order, cut after [mppp] of them (after one when
    [mppp < 1]); each with the timestamp of the record. *)
Theorem generate_hashes_exact marks t0 m out :
  0 <= t0 -> nth_error marks (Z.to_nat t0) = Some m ->
  generate_hashes o marks t0 out
  = Ok (fst out
        ++ flat_map (fun i => repeat (Mark.t m)
                                (length (firstn (fanout o) (candidates o marks t0 m i))))
                    (Zrange 0 (Z.of_nat (length (Mark.i m)))),
        snd out
        ++ flat_map (fun i => firstn (fanout o) (candidates o marks t0 m i))
                    (Zrange 0 (Z.of_nat (length (Mark.i m))))).
Proof.
  intros Ht0 Hm. unfold generate_hashes.
  destruct (Z.leb_spec 0 t0); [|lia]. rewrite Hm. f_equal.
  generalize (Zrange 0 (Z.of_nat (length (Mark.i m)))). intros range.
  revert out. induction range as [|i range IH]; intros out.
  - cbn. rewrite !app_nil_r. now destruct out.
  - change (Zfor (i :: range) (fun i out => pair_anchor o marks t0 m i out) out)
      with (Zfor range (fun i out => pair_anchor o marks t0 m i out)
                 (pair_anchor o marks t0 m i out)).
    rewrite IH, pair_anchor_prefix, pair_anchor_exact.
    unfold codes_app. cbn [fst snd flat_map]. now rewrite !app_assoc.
Qed.

End Pairing.

(** ** Pruning and the records that have emitted their hashes *)

Section Settled.

Variable pf : Platform.
Variable o : CodegenOptions.

(** X16.  Pruning leaves the records of the frames up to
    [t0 = nm - pruningDt - 1] as they are: the record whose hashes are
    generated next, and the earlier ones it is paired with, can no longer
    be pruned. *)
Theorem prune_spares_settled marks thr (k : nat) :
  Z.of_nat k <= Z.of_nat (length marks) - pruningDt o - 1 ->
  nth_error (prune pf o marks thr) k = nth_error marks k.
Proof.
  intros Hk. unfold prune.
  rewrite (prune_loop_nth_error pf o thr (Z.of_nat (length marks)) _
             (Z.to_nat (Z.of_nat (length marks) - 1
                        - Z.max (Z.of_nat (length marks) - pruningDt o - 1 + 1) 0 + 1)))
    by lia.
  destruct (Z.leb_spec (Z.max (Z.of_nat (length marks) - pruningDt o - 1 + 1) 0)
              (Z.of_nat k)); [lia|].
  cbn [andb]. now destruct (nth_error marks k).
Qed.

End Settled.

(** ** The threshold *)

Section ThresholdLength.

Variable pf : Platform.

Lemma foldM_invariant {A S : Type} (P : S -> Prop) (f : S -> A -> res S) l :
  (forall s a s', In a l -> P s -> f s a = Ok s' -> P s') ->
  forall s s', P s -> foldM f l s = Ok s' -> P s'.
Proof.
  induction l as [|a l IH]; intros Hf s s' Hs H; cbn [foldM] in H.
  - now injection H as <-.
  - apply bind_Ok in H as (s1 & H1 & H).
    apply (IH (fun s a s' Ha => Hf s a s' (or_intror Ha)) s1 s'); [|exact H].
    eapply Hf; eauto. now left.
Qed.

Lemma raise_threshold_length o spectrum b thr thr' :
  0 <= ifMin o -> ifMax o <= Z.of_nat (length thr) ->
  raise_threshold pf o spectrum b thr = Ok thr' -> length thr' = length thr.
Proof.
  intros Hmin Hmax H. unfold raise_threshold in H.
  apply (foldM_invariant (fun t => length t = length thr)) in H; auto.
  intros s j s' Hj Hs Hf. apply Zrange_In in Hj.
  apply bind_Ok in Hf as (e & _ & Hf). injection Hf as <-.
  unfold arr_set. rewrite js_set_length_in; [exact Hs | lia].
Qed.

Lemma update_threshold_length o slots spectrum iL vL thr iL' vL' thr' :
  0 <= ifMin o -> ifMax o <= Z.of_nat (length thr) ->
  update_threshold pf o slots spectrum iL vL thr = Ok (iL', vL', thr') ->
  length thr' = length thr.
Proof.
  intros Hmin. revert thr.
  induction slots as [|s slots IH]; intros thr Hmax H; cbn [update_threshold] in H.
  - now injection H as _ _ <-.
  - destruct (js_gt _ _).
    + apply bind_Ok in H as (thr1 & H1 & H).
      apply raise_threshold_length in H1; auto.
      apply IH in H; [congruence | lia].
    + now injection H as _ _ <-.
Qed.

(** X17.  The threshold of a fingerprinter built by the constructor, in
    every state its stream takes it through: no mask ever raises it, so
    that it holds [nfft] entries, all equal, [-3] with [maskDecayLog]
    added once for each frame processed. *)
Theorem threshold_keeps_length st :
  reachable pf st ->
  Z.of_nat (length (threshold st)) = nfft (options st)
  /\ exists k : nat,
       stepIndex st = Z.of_nat k * step (options st)
       /\ threshold st
          = repeat (Nat.iter k (fun x => (x + maskDecayLog (options st))%float)
                             (-3)%float)
                   (Z.to_nat (nfft (options st))).
Proof.
  intros Hr.
  assert (Hn : 0 <= nfft (options st)) by (destruct (reachable_options pf st Hr); lia).
  cut (exists k : nat,
         stepIndex st = Z.of_nat k * step (options st)
         /\ threshold st
            = repeat (Nat.iter k (fun x => (x + maskDecayLog (options st))%float)
                               (-3)%float)
                     (Z.to_nat (nfft (options st)))).
  { intros (k & Hs & Ht). split; [|now exists k].
    rewrite Ht, repeat_length. lia. }
  clear Hn.
  induction Hr as [user st Hc | st chunk Hr IH | st out st' out' Hr IH Hf
                  | cap st Hr IH].
  - apply constructor_inv in Hc as (_ & _ & _ & _ & Hs & _ & Ht).
    exists 0%nat. rewrite Hs, Ht. split; [lia | reflexivity].
  - exact IH.
  - destruct IH as (k & Hs & Ht).
    destruct (process_frame_mute pf _ _ _ _ _ (reachable_mute pf st Hr) Hf)
      as (_ & _ & _ & Ht').
    apply process_frame_inv in Hf as (_ & _ & _ & _ & _ & Ho & _ & _ & Hs' & _).
    exists (S k). rewrite Ho, Hs', Hs, Ht', Ht, map_repeat.
    split; [lia | reflexivity].
  - unfold compact. destruct (_ <? _); exact IH.
Qed.

End ThresholdLength.

(** ** The threshold from frame to frame *)

Lemma SFcompare_refl a : a <> S754_nan -> SFcompare a a = Some Eq.
Proof.
  destruct a as [s|s| |s m e]; intros H; cbn; try reflexivity; try congruence.
  - destruct s; reflexivity.
  - destruct s; rewrite Z.compare_refl, Pos.compare_cont_refl; reflexivity.
Qed.

Lemma SFleb_ltb_trans a b c :
  SFleb a b = true -> SFltb b c = true -> SFleb a c = true.
Proof.
  unfold SFleb, SFltb.
  destruct a as [sa|sa| |sa ma ea], b as [sb|sb| |sb mb eb], c as [sc|sc| |sc mc ec];
    cbn; try discriminate; try reflexivity;
    repeat match goal with s : bool |- _ => destruct s end;
    cbn; try discriminate; try reflexivity.
  - destruct (Z.compare_spec ea eb), (Z.compare_spec eb ec), (Z.compare_spec ea ec);
      subst; try lia; try discriminate; try reflexivity;
      rewrite ?Pos.compare_cont_spec; cbn [Pos.switch_Eq];
      destruct (Pos.compare_spec ma mb), (Pos.compare_spec mb mc),
        (Pos.compare_spec ma mc); subst; cbn; try lia; try discriminate;
        try reflexivity.
  - destruct (Z.compare_spec ea eb), (Z.compare_spec eb ec), (Z.compare_spec ea ec);
      subst; try lia; try discriminate; try reflexivity;
      rewrite ?Pos.compare_cont_spec; cbn [Pos.switch_Eq];
      destruct (Pos.compare_spec ma mb), (Pos.compare_spec mb mc),
        (Pos.compare_spec ma mc); subst; cbn; try lia; try discriminate;
        try reflexivity.
Qed.

Lemma is_nan_SF x : PrimFloat.is_nan x = true <-> Prim2SF x = S754_nan.
Proof.
  unfold PrimFloat.is_nan. rewrite FloatAxioms.eqb_spec. unfold SFeqb.
  split.
  - destruct (Prim2SF x) as [s|s| |s m e] eqn:E; [| |reflexivity|];
      rewrite SFcompare_refl by discriminate; discriminate.
  - intros ->. reflexivity.
Qed.

Lemma raised_refl x : raised x x.
Proof.
  unfold raised. destruct (PrimFloat.is_nan x) eqn:E; [now left | right].
  rewrite FloatAxioms.leb_spec. unfold SFleb. rewrite SFcompare_refl; [reflexivity|].
  intros H. apply is_nan_SF in H. congruence.
Qed.

Lemma raised_max x c y : raised x c -> raised x (Math_max c y).
Proof.
  unfold raised, Math_max. intros H.
  destruct (PrimFloat.is_nan c) eqn:Ec; cbn [orb]; [now left|].
  destruct (PrimFloat.is_nan y) eqn:Ey; [now left|].
  destruct H as [H|H]; [discriminate|].
  destruct (PrimFloat.ltb c y) eqn:E1.
  { right. rewrite FloatAxioms.leb_spec in *. rewrite FloatAxioms.ltb_spec in E1.
    exact (SFleb_ltb_trans _ _ _ H E1). }
  destruct (PrimFloat.ltb y c) eqn:E2; [now right|].
  destruct (PrimFloat.is_zero c) eqn:Ez; [|now right].
  right.
  assert (Nc : Prim2SF c <> S754_nan)
    by (intros N; apply is_nan_SF in N; congruence).
  assert (Ny : Prim2SF y <> S754_nan)
    by (intros N; apply is_nan_SF in N; congruence).
  unfold PrimFloat.is_zero in Ez.
  rewrite FloatAxioms.eqb_spec in Ez.
  rewrite FloatAxioms.ltb_spec in E1, E2.
  rewrite FloatAxioms.leb_spec in *. rewrite FloatAxioms.add_spec.
  revert H E1 E2 Ez Nc Ny. unfold SFeqb, SFltb, SFleb.
  change (Prim2SF PrimFloat.zero) with (S754_zero false).
  destruct (Prim2SF x) as [sx|sx| |sx mx ex], (Prim2SF c) as [sc|sc| |sc mc ec],
    (Prim2SF y) as [sy|sy| |sy my ey];
    cbn; try discriminate; try congruence;
    repeat match goal with s : bool |- _ => destruct s end;
    cbn; try discriminate; try congruence.
Qed.

Lemma js_get_set_same_any {A : Type} (d : A) a i x :
  0 <= i -> js_get d (js_set d a i x) i = x.
Proof.
  intros H. destruct (Z_lt_le_dec i (Z.of_nat (length a))) as [Hin|Hout];
    [apply js_get_set_same; lia|].
  unfold js_get, js_set.
  destruct (Z.ltb_spec i 0); [lia|].
  destruct (Z.ltb_spec i (Z.of_nat (length a))); [lia|].
  rewrite app_nth2 by lia. rewrite app_nth2 by (rewrite repeat_length; lia).
  rewrite repeat_length.
  replace (Z.to_nat i - length a - (Z.to_nat i - length a))%nat with 0%nat by lia.
  reflexivity.
Qed.

Lemma js_get_set_other_any {A : Type} (d : A) a i j x :
  i <> j -> js_get d (js_set d a i x) j = js_get d a j.
Proof.
  intros Hij.
  destruct (Z_lt_le_dec i 0) as [Hneg|Hpos].
  { unfold js_set. destruct (Z.ltb_spec i 0); [reflexivity | lia]. }
  destruct (Z_lt_le_dec i (Z.of_nat (length a))) as [Hin|Hout];
    [apply js_get_set_other; lia|].
  unfold js_get, js_set.
  destruct (Z.ltb_spec j 0); [reflexivity|].
  destruct (Z.ltb_spec i 0); [lia|].
  destruct (Z.ltb_spec i (Z.of_nat (length a))); [lia|].
  destruct (Z_lt_le_dec j (Z.of_nat (length a))) as [Hj|Hj].
  - rewrite app_nth1 by lia. reflexivity.
  - rewrite app_nth2 by lia. rewrite (nth_overflow a) by lia.
    destruct (Z_lt_le_dec j i) as [Hlt|Hgt].
    + rewrite app_nth1 by (rewrite repeat_length; lia). apply nth_repeat.
    + rewrite app_nth2 by (rewrite repeat_length; lia). rewrite repeat_length.
      apply nth_overflow. cbn. lia.
Qed.

Section ThresholdRaised.

Variable pf : Platform.
Variable o : CodegenOptions.

Lemma raise_threshold_raised (base : Z -> float) spectrum b thr thr' :
  raise_threshold pf o spectrum b thr = Ok thr' ->
  (forall m, raised_in o (base m) m (arr_get thr m)) ->
  forall m, raised_in o (base m) m (arr_get thr' m).
Proof.
  unfold raise_threshold. intros H H0.
  apply (foldM_invariant
           (fun t => forall m, raised_in o (base m) m (arr_get t m)) _ _)
    with (3 := H); [|exact H0].
  intros s j s' Hin Hs Hj. apply Zrange_In in Hin.
  apply bind_Ok in Hj as (e & _ & Hj). injection Hj as <-.
  intros m. unfold arr_set, arr_get.
  destruct (Z.eq_dec j m) as [->|Hne].
  - destruct (Z_lt_le_dec m 0) as [Hneg|Hpos].
    + unfold js_set. destruct (Z.ltb_spec m 0); [apply Hs | lia].
    + rewrite js_get_set_same_any by exact Hpos.
      split; [apply raised_max, Hs | intros Hout; lia].
  - rewrite js_get_set_other_any by exact Hne. apply Hs.
Qed.

Lemma update_threshold_raised_from (base : Z -> float) slots spectrum iL vL :
  forall thr iL' vL' thr',
    update_threshold pf o slots spectrum iL vL thr = Ok (iL', vL', thr') ->
    (forall m, raised_in o (base m) m (arr_get thr m)) ->
    forall m, raised_in o (base m) m (arr_get thr' m).
Proof.
  induction slots as [|i slots IH]; intros thr iL' vL' thr' H H0;
    cbn [update_threshold] in H.
  - injection H as _ _ <-. exact H0.
  - destruct (js_gt _ _).
    + apply bind_Ok in H as (thr1 & H1 & H).
      apply (IH thr1 iL' vL' thr' H).
      exact (raise_threshold_raised base _ _ _ _ H1 H0).
    + injection H as _ _ <-. exact H0.
Qed.

(** X18.  What the masks of the peaks of a frame do to the threshold,
    whatever the surface and the tables of peaks: they raise entries of
    the band and lower none (an entry becomes NaN or stays at least what
    it was), the entries outside the band are left as they are, and the
    array keeps its length when the band lies within it. *)
Theorem masks_raise_threshold slots spectrum iL vL thr iL' vL' thr' :
  update_threshold pf o slots spectrum iL vL thr = Ok (iL', vL', thr') ->
  (forall j,
     raised (arr_get thr j) (arr_get thr' j)
     /\ (~ ifMin o <= j < ifMax o -> arr_get thr' j = arr_get thr j))
  /\ (0 <= ifMin o -> ifMax o <= Z.of_nat (length thr) ->
      length thr' = length thr).
Proof.
  intros Hup. split;
    [|intros Hmin Hmax; exact (update_threshold_length pf o _ _ _ _ _ _ _ _
                                 Hmin Hmax Hup)].
  cut (forall m, raised_in o (arr_get thr m) m (arr_get thr' m)); [auto|].
  apply (update_threshold_raised_from (fun j => arr_get thr j)
           _ _ _ _ _ _ _ _ Hup).
  intros m. split; [apply raised_refl | reflexivity].
Qed.

End ThresholdRaised.

(** ** Comparisons of numbers *)

Lemma SFcompare_asym x y : SFcompare x y = Some Lt -> SFcompare y x = Some Gt.
Proof.
  destruct x as [sx|sx| |sx mx ex], y as [sy|sy| |sy my ey]; cbn;
    try discriminate; try (destruct sx, sy; cbn; congruence);
    try (destruct sx; cbn; congruence); try (destruct sy; cbn; congruence).
  pose proof (Pos.compare_antisym mx my) as A. unfold Pos.compare in A.
  destruct sx, sy; try congruence;
    rewrite (Z.compare_antisym ex ey);
    destruct (ex ?= ey)%Z eqn:E; cbn; try congruence;
    rewrite A; destruct (Pos.compare_cont Eq mx my); cbn; congruence.
Qed.

Lemma js_gt_asym x y : js_gt x y = true -> js_gt y x = false.
Proof.
  unfold js_gt. rewrite !FloatAxioms.ltb_spec. unfold SFltb.
  destruct (SFcompare (Prim2SF y) (Prim2SF x)) as [[| |]|] eqn:E; try discriminate.
  intros _. now rewrite (SFcompare_asym _ _ E).
Qed.

(** ** The record of a frame *)

Section InsertionFacts.

Variable o : CodegenOptions.

Lemma shift_spec {A : Type} (d : A) lo (count : nat) :
  forall hi (v : list A),
    Z.to_nat (hi - lo + 1) = count -> 1 <= lo -> hi < Z.of_nat (length v) ->
    let v' := Zfor (Zrange_down hi lo)
                   (fun k v => js_set d v k (js_get d v (k - 1))) v in
    length v' = length v
    /\ forall m, 0 <= m < Z.of_nat (length v) ->
         js_get d v' m
         = if (lo <=? m) && (m <=? hi) then js_get d v (m - 1) else js_get d v m.
Proof.
  induction count as [|count IH]; intros hi v Hc Hlo Hhi; cbv zeta.
  - rewrite Zrange_down_nil by lia. cbn. split; [reflexivity|].
    intros m Hm. destruct (Z.leb_spec lo m), (Z.leb_spec m hi); try lia; reflexivity.
  - rewrite Zrange_down_cons by lia. cbn [Zfor fold_left].
    change (fold_left _ (Zrange_down (hi - 1) lo) ?s)
      with (Zfor (Zrange_down (hi - 1) lo)
                 (fun k v => js_set d v k (js_get d v (k - 1))) s).
    assert (Hl1 : length (js_set d v hi (js_get d v (hi - 1))) = length v)
      by (apply js_set_length_in; lia).
    destruct (IH (hi - 1) (js_set d v hi (js_get d v (hi - 1)))) as [L P];
      [lia | lia | rewrite Hl1; lia |].
    split; [congruence|].
    intros m Hm. rewrite P by (rewrite Hl1; lia).
    destruct (Z.leb_spec lo m), (Z.leb_spec m (hi - 1)), (Z.leb_spec m hi);
      try lia; cbn [andb].
    + rewrite js_get_set_other by lia. reflexivity.
    + assert (m = hi) by lia. subst m. rewrite js_get_set_same by lia. reflexivity.
    + rewrite js_get_set_other by lia. reflexivity.
    + rewrite js_get_set_other by lia. reflexivity.
Qed.

Lemma shift_fst range (iL : list binval) (vL : list float) :
  fst (Zfor range
            (fun k '(iL, vL) =>
               (js_set NaNBin iL k (js_get NaNBin iL (k - 1)),
                arr_set vL k (arr_get vL (k - 1))))
            (iL, vL))
  = Zfor range (fun k v => js_set NaNBin v k (js_get NaNBin v (k - 1))) iL.
Proof.
  symmetry.
  apply (Zfor_commute (@fst (list binval) (list float)) range
           (fun k '(iL, vL) =>
              (js_set NaNBin iL k (js_get NaNBin iL (k - 1)),
               arr_set vL k (arr_get vL (k - 1))))
           (fun k v => js_set NaNBin v k (js_get NaNBin v (k - 1))) (iL, vL)).
  intros k [a b] _. reflexivity.
Qed.

Lemma shift_snd range (iL : list binval) (vL : list float) :
  snd (Zfor range
            (fun k '(iL, vL) =>
               (js_set NaNBin iL k (js_get NaNBin iL (k - 1)),
                arr_set vL k (arr_get vL (k - 1))))
            (iL, vL))
  = Zfor range (fun k v => arr_set v k (arr_get v (k - 1))) vL.
Proof.
  symmetry.
  apply (Zfor_commute (@snd (list binval) (list float)) range
           (fun k '(iL, vL) =>
              (js_set NaNBin iL k (js_get NaNBin iL (k - 1)),
               arr_set vL k (arr_get vL (k - 1))))
           (fun k v => arr_set v k (arr_get v (k - 1))) (iL, vL)).
  intros k [a b] _. reflexivity.
Qed.

Lemma done_stays (i : Z) (x : float) range s :
  Zfor range
       (fun j '(done, (iLocMax, vLocMax)) =>
          if (done : bool) then (done, (iLocMax, vLocMax))
          else if (1 <=? j) && js_gt x (arr_get vLocMax (j - 1))
               then (false, (iLocMax, vLocMax))
               else
                 let '(iL, vL) :=
                   Zfor (Zrange_down (mnlm o - 1) (j + 1))
                        (fun k '(iL, vL) =>
                           (js_set NaNBin iL k (js_get NaNBin iL (k - 1)),
                            arr_set vL k (arr_get vL (k - 1))))
                        (iLocMax, vLocMax) in
                 (true, (js_set NaNBin iL j (Bin i), arr_set vL j x)))
       (true, s)
  = (true, s).
Proof.
  induction range as [|j range IH]; [reflexivity|].
  cbn [Zfor fold_left]. destruct s as [iL vL]. exact IH.
Qed.

Lemma insert_scan i x (count : nat) :
  forall hi iL vL,
    Z.to_nat (hi + 1) = count -> 0 <= hi < mnlm o ->
    Z.of_nat (length vL) = mnlm o -> length iL = length vL ->
    (forall m, hi <= m -> m + 1 < Z.of_nat (length vL) ->
       js_gt x (arr_get vL m) = true) ->
    exists p,
      0 <= p <= hi
      /\ placed_at NaNBin (Bin i) p iL
           (fst (snd (Zfor (Zrange_down hi 0)
                (fun j '(done, (iLocMax, vLocMax)) =>
                   if (done : bool) then (done, (iLocMax, vLocMax))
                   else if (1 <=? j) && js_gt x (arr_get vLocMax (j - 1))
                        then (false, (iLocMax, vLocMax))
                        else
                          let '(iL, vL) :=
                            Zfor (Zrange_down (mnlm o - 1) (j + 1))
                                 (fun k '(iL, vL) =>
                                    (js_set NaNBin iL k (js_get NaNBin iL (k - 1)),
                                     arr_set vL k (arr_get vL (k - 1))))
                                 (iLocMax, vLocMax) in
                          (true, (js_set NaNBin iL j (Bin i), arr_set vL j x)))
                (false, (iL, vL)))))
      /\ placed x p vL
           (snd (snd (Zfor (Zrange_down hi 0)
                (fun j '(done, (iLocMax, vLocMax)) =>
                   if (done : bool) then (done, (iLocMax, vLocMax))
                   else if (1 <=? j) && js_gt x (arr_get vLocMax (j - 1))
                        then (false, (iLocMax, vLocMax))
                        else
                          let '(iL, vL) :=
                            Zfor (Zrange_down (mnlm o - 1) (j + 1))
                                 (fun k '(iL, vL) =>
                                    (js_set NaNBin iL k (js_get NaNBin iL (k - 1)),
                                     arr_set vL k (arr_get vL (k - 1))))
                                 (iLocMax, vLocMax) in
                          (true, (js_set NaNBin iL j (Bin i), arr_set vL j x)))
                (false, (iL, vL))))).
Proof.
  induction count as [|count IH]; intros hi iL vL Hc Hhi Hn Hi Habove; [lia|].
  rewrite Zrange_down_cons by lia. cbn [Zfor fold_left].
  match goal with
  | |- context [fold_left ?f (Zrange_down (hi - 1) 0) ?s] =>
      change (fold_left f (Zrange_down (hi - 1) 0) s)
        with (Zfor (Zrange_down (hi - 1) 0) (fun j st => f st j) s)
  end.
  destruct ((1 <=? hi) && js_gt x (arr_get vL (hi - 1))) eqn:Et.
  - apply andb_true_iff in Et as [E1 E2]. apply Z.leb_le in E1.
    destruct (IH (hi - 1) iL vL) as (p & Hp & Hpl); try lia.
    + intros m Hm Hm'. destruct (Z.eq_dec m (hi - 1)) as [->|]; [exact E2|].
      apply Habove; lia.
    + exists p. split; [lia | exact Hpl].
  - destruct (Zfor (Zrange_down (mnlm o - 1) (hi + 1)) _ (iL, vL)) as [iL1 vL1] eqn:Es.
    pose proof (shift_snd (Zrange_down (mnlm o - 1) (hi + 1)) iL vL) as Hs.
    rewrite Es in Hs. cbn [snd] in Hs.
    pose proof (shift_fst (Zrange_down (mnlm o - 1) (hi + 1)) iL vL) as Hf.
    rewrite Es in Hf. cbn [fst] in Hf.
    destruct (shift_spec PrimFloat.nan (hi + 1)
                (Z.to_nat (mnlm o - 1 - (hi + 1) + 1))
                (mnlm o - 1) vL eq_refl ltac:(lia) ltac:(lia)) as [L P].
    destruct (shift_spec NaNBin (hi + 1)
                (Z.to_nat (mnlm o - 1 - (hi + 1) + 1))
                (mnlm o - 1) iL eq_refl ltac:(lia) ltac:(lia)) as [Li Pi].
    change (Zfor (Zrange_down (mnlm o - 1) (hi + 1))
              (fun k v => js_set PrimFloat.nan v k (js_get PrimFloat.nan v (k - 1))) vL)
      with (Zfor (Zrange_down (mnlm o - 1) (hi + 1))
              (fun k v => arr_set v k (arr_get v (k - 1))) vL) in L, P.
    rewrite <- Hs in L, P. rewrite <- Hf in Li, Pi.
    rewrite (done_stays i x). cbn [fst snd].
    exists hi. split; [lia|]. split.
    { unfold placed_at. split; [rewrite js_set_length_in; lia|].
      intros m Hm.
      destruct (Z.ltb_spec m hi).
      + rewrite js_get_set_other by lia. rewrite Pi by lia.
        destruct (Z.leb_spec (hi + 1) m); [lia | reflexivity].
      + destruct (Z.eqb_spec m hi) as [->|Hne].
        * rewrite js_get_set_same by lia. reflexivity.
        * rewrite js_get_set_other by lia. rewrite Pi by lia.
          destruct (Z.leb_spec (hi + 1) m), (Z.leb_spec m (mnlm o - 1));
            try lia; reflexivity. }
    unfold placed.
    split; [unfold arr_set; rewrite js_set_length_in; lia|].
    split.
    { apply andb_false_iff in Et as [E|E]; [left; apply Z.leb_gt in E; lia | now right]. }
    split; [exact Habove|].
    intros m Hm. unfold arr_set, arr_get.
    destruct (Z.ltb_spec m hi).
    + rewrite js_get_set_other by lia. rewrite P by lia.
      destruct (Z.leb_spec (hi + 1) m); [lia | reflexivity].
    + destruct (Z.eqb_spec m hi) as [->|Hne].
      * rewrite js_get_set_same by lia. reflexivity.
      * rewrite js_get_set_other by lia. rewrite P by lia.
        destruct (Z.leb_spec (hi + 1) m), (Z.leb_spec m (mnlm o - 1));
          try lia; reflexivity.
Qed.

Lemma placed_descending x p v v' :
  0 <= p -> descending v -> placed x p v v' -> descending v'.
Proof.
  intros Hp Hd (Hl & Hbefore & Hafter & Hget) j Hj Hj'. rewrite Hl in Hj'.
  rewrite !Hget by lia.
  destruct (Z.ltb_spec (j + 1) p), (Z.ltb_spec j p); try lia.
  - apply Hd; lia.
  - destruct (Z.eqb_spec (j + 1) p) as [E|E].
    + destruct Hbefore as [->|Hb]; [lia|]. now replace (p - 1) with j in Hb by lia.
    + lia.
  - destruct (Z.eqb_spec (j + 1) p) as [E|E]; [lia|].
    destruct (Z.eqb_spec j p) as [->|E'].
    + replace (p + 1 - 1) with p by lia. apply js_gt_asym, Hafter; lia.
    + replace (j + 1 - 1) with (j - 1 + 1) by lia. apply Hd; lia.
Qed.

End InsertionFacts.

Section LocalMaximaFacts.

Variable o : CodegenOptions.

Lemma insert_peak_Forall2 (R : binval -> float -> Prop) i x iL vL :
  R NaNBin PrimFloat.nan -> R (Bin i) x ->
  Forall2 R iL vL ->
  Forall2 R (fst (insert_peak o i x (iL, vL))) (snd (insert_peak o i x (iL, vL))).
Proof.
  intros Hd Hi H. unfold insert_peak.
  apply Zfor_invariant with
    (P := fun st : bool * (list binval * list float) =>
            Forall2 R (fst (snd st)) (snd (snd st))); [exact H|].
  intros j [done [iL1 vL1]] _ H1. cbn [fst snd] in *.
  destruct done; [exact H1|].
  destruct (_ && _); [exact H1|].
  destruct (Zfor _ _ (iL1, vL1)) as [iL2 vL2] eqn:E. cbn [fst snd].
  assert (H2 : Forall2 R (fst (iL2, vL2)) (snd (iL2, vL2))).
  { rewrite <- E.
    apply Zfor_invariant with
      (P := fun p : list binval * list float => Forall2 R (fst p) (snd p));
      [exact H1|].
    intros k [iL3 vL3] _ H3. cbn [fst snd] in *.
    apply js_set_Forall2; [exact H3 | exact Hd|].
    apply js_get_Forall2; [exact H3 | exact Hd]. }
  apply js_set_Forall2; [exact H2 | exact Hd | exact Hi].
Qed.

Lemma insert_peak_descending i x iL vL :
  Z.of_nat (length vL) = mnlm o -> length iL = length vL -> descending vL ->
  descending (snd (insert_peak o i x (iL, vL))).
Proof.
  intros Hn Hi Hd. unfold insert_peak.
  destruct (Z.eq_dec (mnlm o) 0) as [E|E].
  - rewrite E. cbn. exact Hd.
  - destruct (insert_scan o i x (Z.to_nat (mnlm o - 1 + 1)) (mnlm o - 1) iL vL
                eq_refl ltac:(lia) Hn Hi) as (p & Hp & _ & Hpl).
    + intros m Hm Hm'. lia.
    + apply (placed_descending x p vL); [lia | exact Hd | exact Hpl].
Qed.

Lemma repeat_descending x n : descending (repeat x n).
Proof.
  intros j Hj Hl. rewrite repeat_length in Hl.
  rewrite !arr_get_repeat by lia. apply js_gt_irrefl.
Qed.

Lemma local_maxima_peak_of spectrum diff iL vL :
  local_maxima o spectrum diff = Ok (iL, vL) ->
  Forall2 (peak_of spectrum diff) iL vL.
Proof.
  unfold local_maxima. intros H.
  apply bind_Ok in H as (len & _ & H). injection H as H.
  change (Forall2 (peak_of spectrum diff) (fst (iL, vL)) (snd (iL, vL))).
  rewrite <- H.
  apply Zfor_invariant with
    (P := fun p : list binval * list float =>
            Forall2 (peak_of spectrum diff) (fst p) (snd p)).
  - cbn [fst snd]. apply Forall2_repeat. exact I.
  - intros i [iL1 vL1] _ H3. cbn [fst snd] in *.
    destruct (js_gt (arr_get diff i) (arr_get diff (i - 1))) eqn:Ea;
      [|cbn [andb]; auto].
    destruct (js_gt (arr_get diff i) (arr_get diff (i + 1))) eqn:Eb;
      [|cbn [andb]; auto].
    destruct (js_gt (arr_get spectrum i) (arr_get vL1 (mnlm o - 1)));
      [|cbn [andb]; auto].
    cbn [andb]. apply insert_peak_Forall2; [exact I | cbn; auto | exact H3].
Qed.

(** X19.  The table of local maxima of a frame: [mnlm] magnitudes of
    which none is greater than the one before it; each slot that holds a
    bin holds the value of the surface at that bin, and the excess over
    the threshold there is strictly greater than at both neighbours. *)
Theorem local_maxima_sorted spectrum diff iL vL :
  local_maxima o spectrum diff = Ok (iL, vL) ->
  Z.of_nat (length vL) = mnlm o
  /\ descending vL
  /\ Forall2 (peak_of spectrum diff) iL vL.
Proof.
  intros Hloc. pose proof (local_maxima_peak_of _ _ _ _ Hloc) as Hp.
  revert Hloc. unfold local_maxima. intros H.
  apply bind_Ok in H as (len & Hlen & H). apply new_Array_Ok in Hlen as [-> Hm].
  injection H as H.
  cut (Z.of_nat (length (snd (iL, vL))) = mnlm o
       /\ length (fst (iL, vL)) = length (snd (iL, vL))
       /\ descending (snd (iL, vL)));
    [cbn [fst snd]; tauto|].
  rewrite <- H.
  apply Zfor_invariant with
    (P := fun p : list binval * list float =>
            Z.of_nat (length (snd p)) = mnlm o
            /\ length (fst p) = length (snd p)
            /\ descending (snd p)).
  - cbn [fst snd]. rewrite !repeat_length.
    split; [lia|]. split; [reflexivity | apply repeat_descending].
  - intros i [iL1 vL1] _ (H1 & H2 & H3). cbn [fst snd] in *.
    destruct (_ && _); [|auto].
    destruct (insert_peak_length o i (arr_get spectrum i) iL1 vL1) as [H4 H5];
      [lia | congruence |].
    split; [lia|]. split; [congruence | now apply insert_peak_descending].
Qed.

End LocalMaximaFacts.

(** ** Peaks and the threshold *)

Lemma SFltb_not_nan a b :
  SFltb a b = true -> a <> S754_nan /\ b <> S754_nan.
Proof.
  unfold SFltb. destruct a, b; cbn; try discriminate; split; discriminate.
Qed.

Lemma SFleb_ltb_ltb a b c :
  SFleb a b = true -> SFltb b c = true -> SFltb a c = true.
Proof.
  unfold SFleb, SFltb.
  destruct a as [sa|sa| |sa ma ea], b as [sb|sb| |sb mb eb], c as [sc|sc| |sc mc ec];
    cbn; try discriminate; try reflexivity;
    repeat match goal with s : bool |- _ => destruct s end;
    cbn; try discriminate; try reflexivity.
  - destruct (Z.compare_spec ea eb), (Z.compare_spec eb ec), (Z.compare_spec ea ec);
      subst; try lia; try discriminate; try reflexivity;
      rewrite ?Pos.compare_cont_spec; cbn [Pos.switch_Eq];
      destruct (Pos.compare_spec ma mb), (Pos.compare_spec mb mc),
        (Pos.compare_spec ma mc); subst; cbn; try lia; try discriminate;
        try reflexivity.
  - destruct (Z.compare_spec ea eb), (Z.compare_spec eb ec), (Z.compare_spec ea ec);
      subst; try lia; try discriminate; try reflexivity;
      rewrite ?Pos.compare_cont_spec; cbn [Pos.switch_Eq];
      destruct (Pos.compare_spec ma mb), (Pos.compare_spec mb mc),
        (Pos.compare_spec ma mc); subst; cbn; try lia; try discriminate;
        try reflexivity.
Qed.

(** [Math.max(e, 0)], when it is a number, is at least [0]. *)
Lemma Math_max_zero_le e :
  PrimFloat.is_nan (Math_max e 0) = false ->
  PrimFloat.leb 0 (Math_max e 0) = true.
Proof.
  unfold Math_max.
  destruct (PrimFloat.is_nan e || PrimFloat.is_nan 0) eqn:En; [discriminate|].
  intros _. apply orb_false_iff in En as [En _].
  assert (Ne : Prim2SF e <> S754_nan)
    by (intros N; apply is_nan_SF in N; congruence).
  destruct (PrimFloat.ltb e 0) eqn:E1; [reflexivity|].
  destruct (PrimFloat.ltb 0 e) eqn:E2.
  { rewrite FloatAxioms.leb_spec. rewrite FloatAxioms.ltb_spec in E2.
    revert E2. unfold SFltb, SFleb. destruct (SFcompare _ _) as [[| |]|];
      try discriminate; reflexivity. }
  rewrite FloatAxioms.ltb_spec in E1, E2.
  destruct (PrimFloat.is_zero e) eqn:Ez.
  - unfold PrimFloat.is_zero in Ez. rewrite FloatAxioms.eqb_spec in Ez.
    rewrite FloatAxioms.leb_spec, FloatAxioms.add_spec.
    revert Ez. unfold SFeqb, SFleb.
    change (Prim2SF PrimFloat.zero) with (S754_zero false).
    change (Prim2SF 0) with (S754_zero false).
    destruct (Prim2SF e) as [s|s| |s m x]; cbn; try discriminate;
      destruct s; cbn; try discriminate; reflexivity.
  - rewrite FloatAxioms.leb_spec. revert E1 E2 Ne. unfold SFltb, SFleb.
    change (Prim2SF 0) with (S754_zero false).
    destruct (Prim2SF e) as [s|s| |s m x]; cbn; try discriminate; try congruence;
      destruct s; cbn; try discriminate; reflexivity.
Qed.

(** [Math.max(e, 0) > 0] only when [e > 0]. *)
Lemma Math_max_zero_pos e :
  PrimFloat.ltb 0 (Math_max e 0) = true -> PrimFloat.ltb 0 e = true.
Proof.
  unfold Math_max.
  destruct (PrimFloat.is_nan e || PrimFloat.is_nan 0); [discriminate|].
  destruct (PrimFloat.ltb e 0); [discriminate|].
  destruct (PrimFloat.ltb 0 e) eqn:E2; [reflexivity|].
  destruct (PrimFloat.is_zero e) eqn:Ez; [|congruence].
  unfold PrimFloat.is_zero in Ez. rewrite FloatAxioms.eqb_spec in Ez.
  rewrite FloatAxioms.ltb_spec, FloatAxioms.add_spec.
  revert Ez. unfold SFeqb, SFltb.
  change (Prim2SF PrimFloat.zero) with (S754_zero false).
  change (Prim2SF 0) with (S754_zero false).
  destruct (Prim2SF e) as [s|s| |s m x]; cbn; try discriminate;
    destruct s; cbn; discriminate.
Qed.

Lemma arr_get_blank n m : arr_get (repeat PrimFloat.nan n) m = PrimFloat.nan.
Proof.
  unfold arr_get, js_get. destruct (m <? 0); [reflexivity|].
  destruct (Nat.lt_ge_cases (Z.to_nat m) n) as [Hlt|Hge].
  - apply nth_repeat_lt. exact Hlt.
  - apply nth_overflow. now rewrite repeat_length.
Qed.

Lemma Forall2_Forall_l {A B : Type} (R : A -> B -> Prop) (P : A -> Prop) l l' :
  (forall a b, R a b -> P a) -> Forall2 R l l' -> Forall P l.
Proof. intros H. induction 1; constructor; eauto. Qed.

Section PeaksAbove.

Variable pf : Platform.
Variable o : CodegenOptions.

Lemma positive_diff_entries spectrum thr diff :
  positive_diff pf o spectrum thr = Ok diff ->
  forall m, excess_at pf spectrum thr m (arr_get diff m).
Proof.
  unfold positive_diff. intros H.
  apply bind_Ok in H as (len & _ & H). injection H as <-.
  apply Zfor_invariant with
    (P := fun d => forall m, excess_at pf spectrum thr m (arr_get d m)).
  - intros m. right. rewrite arr_get_blank. reflexivity.
  - intros i d _ Hd m. unfold arr_set, arr_get.
    destruct (Z.eq_dec i m) as [->|Hne].
    + destruct (Z_lt_le_dec m 0) as [Hneg|Hpos].
      * unfold js_set. destruct (Z.ltb_spec m 0); [apply Hd | lia].
      * rewrite js_get_set_same_any by exact Hpos. now left.
    + rewrite js_get_set_other_any by exact Hne. apply Hd.
Qed.

(** X20.  Every local maximum kept for a frame stands strictly above the
    threshold: at its bin [k],
    [Math.log(Math.max(1e-6, spectrum[k])) - threshold[k] > 0]. *)
Theorem peaks_exceed_threshold spectrum thr diff iL vL :
  positive_diff pf o spectrum thr = Ok diff ->
  local_maxima o spectrum diff = Ok (iL, vL) ->
  Forall (above_threshold pf spectrum thr) iL.
Proof.
  intros Hd Hl.
  pose proof (positive_diff_entries spectrum thr diff Hd) as He.
  pose proof (local_maxima_peak_of o spectrum diff iL vL Hl) as Hp.
  apply (Forall2_Forall_l (peak_of spectrum diff)) with (2 := Hp).
  intros b x; destruct b as [|k|]; cbn; try exact (fun _ => I).
  intros (_ & Hgt & _). unfold js_gt in *.
  pose proof Hgt as Hnn. rewrite FloatAxioms.ltb_spec in Hnn.
  apply SFltb_not_nan in Hnn as [N1 N2].
  destruct (He k) as [Ek|Ek]; [|apply is_nan_SF in Ek; contradiction].
  destruct (He (k - 1)) as [Ek1|Ek1]; [|apply is_nan_SF in Ek1; contradiction].
  apply Math_max_zero_pos. rewrite <- Ek.
  assert (H0 : PrimFloat.leb 0 (arr_get diff (k - 1)) = true).
  { rewrite Ek1. apply Math_max_zero_le. rewrite <- Ek1.
    destruct (PrimFloat.is_nan _) eqn:E; [|reflexivity].
    apply is_nan_SF in E. contradiction. }
  rewrite FloatAxioms.ltb_spec in *. rewrite FloatAxioms.leb_spec in H0.
  exact (SFleb_ltb_ltb _ _ _ H0 Hgt).
Qed.

End PeaksAbove.

(** ** Distinct bins *)

Lemma Zfor_indexed {T : Type} (P : Z -> T -> Prop) lo (n : nat)
  (body : Z -> T -> T) s :
  P lo s ->
  (forall i s, lo <= i < lo + Z.of_nat n -> P i s -> P (i + 1) (body i s)) ->
  P (lo + Z.of_nat n) (Zfor (Zrange lo (lo + Z.of_nat n)) body s).
Proof.
  intros H0. induction n as [|n IH]; intros Hstep.
  - rewrite Z.add_0_r, Zrange_nil by lia. exact H0.
  - replace (lo + Z.of_nat (S n)) with (lo + Z.of_nat n + 1) by lia.
    rewrite Zrange_snoc, Zfor_app by lia.
    apply (Hstep (lo + Z.of_nat n)); [lia|].
    apply IH. intros i s' Hi. apply Hstep. lia.
Qed.

Lemma placed_at_list {A : Type} (d x : A) p l l' :
  0 <= p < Z.of_nat (length l) ->
  placed_at d x p l l' ->
  l' = firstn (Z.to_nat p) l
       ++ x :: firstn (length l - Z.to_nat p - 1) (skipn (Z.to_nat p) l).
Proof.
  intros Hp [Hl Hget].
  apply (nth_ext _ _ d d).
  - rewrite Hl, length_app. cbn [length].
    rewrite !length_firstn, length_skipn. lia.
  - intros n Hn. rewrite Hl in Hn.
    specialize (Hget (Z.of_nat n) ltac:(lia)). unfold js_get in Hget.
    destruct (Z.ltb_spec (Z.of_nat n) 0); [lia|].
    rewrite Nat2Z.id in Hget. rewrite Hget.
    destruct (Z.ltb_spec (Z.of_nat n) p).
    + rewrite app_nth1 by (rewrite length_firstn; lia).
      rewrite nth_firstn.
      destruct (Nat.ltb_spec n (Z.to_nat p)); [reflexivity | lia].
    + rewrite app_nth2 by (rewrite length_firstn; lia).
      rewrite length_firstn.
      replace (Nat.min (Z.to_nat p) (length l)) with (Z.to_nat p) by lia.
      destruct (Z.eqb_spec (Z.of_nat n) p) as [E|E].
      * replace (n - Z.to_nat p)%nat with 0%nat by lia. reflexivity.
      * destruct (Z.ltb_spec (Z.of_nat n - 1) 0); [lia|].
        replace (n - Z.to_nat p)%nat with (S (n - Z.to_nat p - 1)) by lia.
        cbn [nth]. rewrite nth_firstn.
        destruct (Nat.ltb_spec (n - Z.to_nat p - 1) (length l - Z.to_nat p - 1));
          [|lia].
        rewrite nth_skipn. f_equal. lia.
Qed.

Lemma bins_of_app l1 l2 : bins_of (l1 ++ l2) = bins_of l1 ++ bins_of l2.
Proof. unfold bins_of. apply flat_map_app. Qed.

Lemma bins_of_blank n : bins_of (repeat NaNBin n) = [].
Proof. induction n as [|n IH]; cbn; auto. Qed.

Section DistinctBins.

Variable o : CodegenOptions.

Lemma insert_peak_bins i x iL vL :
  Z.of_nat (length vL) = mnlm o -> length iL = length vL ->
  Forall (fun k => k < i) (bins_of iL) -> NoDup (bins_of iL) ->
  Forall (fun k => k < i + 1) (bins_of (fst (insert_peak o i x (iL, vL))))
  /\ NoDup (bins_of (fst (insert_peak o i x (iL, vL)))).
Proof.
  intros Hn Hi Hlt Hnd. unfold insert_peak.
  destruct (Z.eq_dec (mnlm o) 0) as [E|E].
  { rewrite E. cbn. split; [|exact Hnd].
    eapply Forall_impl; [|exact Hlt]. cbn. intros; lia. }
  destruct (insert_scan o i x (Z.to_nat (mnlm o - 1 + 1)) (mnlm o - 1) iL vL
              eq_refl ltac:(lia) Hn Hi) as (p & Hp & Hpl & _);
    [intros m Hm Hm'; lia|].
  apply placed_at_list in Hpl; [|lia]. rewrite Hpl.
  set (A := firstn (Z.to_nat p) iL) in *.
  set (B := firstn (length iL - Z.to_nat p - 1) (skipn (Z.to_nat p) iL)) in *.
  assert (Hsplit : iL = A ++ B ++ skipn (length iL - Z.to_nat p - 1)
                                        (skipn (Z.to_nat p) iL)).
  { unfold A, B. now rewrite firstn_skipn, firstn_skipn. }
  rewrite Hsplit, !bins_of_app in Hlt, Hnd.
  rewrite app_assoc in Hlt, Hnd.
  apply Forall_app in Hlt as [Hlt _]. apply NoDup_app_remove_r in Hnd.
  change (A ++ Bin i :: B) with (A ++ [Bin i] ++ B).
  rewrite !bins_of_app. cbn [bins_of flat_map app].
  split.
  - apply Forall_app in Hlt as [HA HB].
    apply Forall_app. split; [eapply Forall_impl; [|exact HA]; cbn; intros; lia|].
    constructor; [lia|]. eapply Forall_impl; [|exact HB]. cbn. intros; lia.
  - apply NoDup_Add with (a := i) (l := bins_of A ++ bins_of B).
    + apply Add_app.
    + split; [exact Hnd|].
      intros Hin. rewrite Forall_forall in Hlt. specialize (Hlt i Hin). lia.
Qed.

Lemma local_maxima_bins spectrum diff iL vL :
  local_maxima o spectrum diff = Ok (iL, vL) -> NoDup (bins_of iL).
Proof.
  unfold local_maxima. intros H.
  apply bind_Ok in H as (len & Hlen & H). apply new_Array_Ok in Hlen as [-> Hm].
  injection H as H.
  destruct (Z_le_gt_dec (ifMax o - 1) (ifMin o + 1)) as [Hempty|Hband].
  { rewrite Zrange_nil in H by lia. cbn in H. injection H as <- _.
    rewrite bins_of_blank. constructor. }
  cut (Z.of_nat (length (snd (iL, vL))) = mnlm o
       /\ length (fst (iL, vL)) = length (snd (iL, vL))
       /\ Forall (fun k => k < ifMax o - 1) (bins_of (fst (iL, vL)))
       /\ NoDup (bins_of (fst (iL, vL)))); [cbn [fst snd]; tauto|].
  rewrite <- H.
  replace (ifMax o - 1)
    with (ifMin o + 1 + Z.of_nat (Z.to_nat (ifMax o - 1 - (ifMin o + 1)))) by lia.
  apply (Zfor_indexed
           (fun i (p : list binval * list float) =>
              Z.of_nat (length (snd p)) = mnlm o
              /\ length (fst p) = length (snd p)
              /\ Forall (fun k => k < i) (bins_of (fst p))
              /\ NoDup (bins_of (fst p)))).
  - cbn [fst snd]. rewrite !repeat_length. split; [lia|]. split; [reflexivity|].
    rewrite bins_of_blank. split; constructor.
  - intros i [iL1 vL1] _ (H1 & H2 & H3 & H4). cbn [fst snd] in *.
    destruct (_ && _).
    + destruct (insert_peak_length o i (arr_get spectrum i) iL1 vL1) as [H5 H6];
        [lia | congruence |].
      destruct (insert_peak_bins i (arr_get spectrum i) iL1 vL1 H1 H2 H3 H4)
        as [H7 H8].
      repeat split; auto; try lia; congruence.
    + repeat split; auto. eapply Forall_impl; [|exact H3]. cbn. intros; lia.
Qed.

End DistinctBins.

Lemma NoDup_remove_middle {A : Type} (l1 m l2 : list A) :
  NoDup (l1 ++ m ++ l2) -> NoDup (l1 ++ l2).
Proof.
  induction m as [|a m IH]; cbn; [auto|].
  intros H. apply IH. exact (NoDup_remove_1 _ _ _ H).
Qed.

Lemma bins_of_cut a b l :
  (a <= b)%nat -> NoDup (bins_of l) -> NoDup (bins_of (firstn a l ++ skipn b l)).
Proof.
  intros Hab H.
  rewrite <- (firstn_skipn a l) in H at 1.
  rewrite <- (firstn_skipn (b - a) (skipn a l)) in H.
  rewrite skipn_skipn in H. replace (b - a + a)%nat with b in H by lia.
  rewrite !bins_of_app in H. rewrite bins_of_app.
  exact (NoDup_remove_middle _ _ _ H).
Qed.

Lemma bins_of_pruned l j :
  NoDup (bins_of l) -> NoDup (bins_of (js_set NaNBin l j NegInfBin)).
Proof.
  intros H. unfold js_set.
  destruct (j <? 0); [exact H|].
  destruct (j <? Z.of_nat (length l)).
  - change (NegInfBin :: skipn (S (Z.to_nat j)) l)
      with ([NegInfBin] ++ skipn (S (Z.to_nat j)) l).
    rewrite !bins_of_app. cbn [bins_of flat_map app].
    rewrite <- bins_of_app. apply bins_of_cut; [lia | exact H].
  - rewrite !bins_of_app, bins_of_blank. cbn. now rewrite app_nil_r.
Qed.

Section DistinctHistory.

Variable pf : Platform.
Variable o : CodegenOptions.

Lemma update_threshold_bins slots spectrum iL vL :
  forall thr iL' vL' thr',
    update_threshold pf o slots spectrum iL vL thr = Ok (iL', vL', thr') ->
    NoDup (bins_of iL) -> NoDup (bins_of iL').
Proof.
  induction slots as [|i slots IH]; intros thr iL' vL' thr' H Hn;
    cbn [update_threshold] in H.
  - injection H as <- _ _. exact Hn.
  - destruct (js_gt _ _).
    + apply bind_Ok in H as (thr1 & _ & H). exact (IH _ _ _ _ H Hn).
    + injection H as <- _ _. unfold splice. apply bins_of_cut; [lia | exact Hn].
Qed.

Lemma prune_mark_bins thr age m :
  NoDup (bins_of (Mark.i m)) ->
  NoDup (bins_of (Mark.i (prune_mark pf o thr age m))).
Proof.
  intros H. unfold prune_mark.
  apply Zfor_invariant with (P := fun m' => NoDup (bins_of (Mark.i m')));
    [exact H|].
  intros j m' _ Hm'. destruct (prune_test _ _ _ _ _ _); [|exact Hm'].
  cbn [Mark.i]. now apply bins_of_pruned.
Qed.

(** X21.  The record of a frame lists no bin twice, whatever the
    surface and the excess it is read from: the bins that the threshold
    update leaves, from the table of the scan for local maxima, are
    distinct; and pruning keeps the bins of every record distinct. *)
Theorem frame_bins_distinct spectrum diff thr iL vL iL' vL' thr' :
  local_maxima o spectrum diff = Ok (iL, vL) ->
  update_threshold pf o (Zrange 0 (mnlm o)) spectrum iL vL thr
  = Ok (iL', vL', thr') ->
  NoDup (bins_of iL')
  /\ forall marks thr2,
       Forall (fun m => NoDup (bins_of (Mark.i m))) marks ->
       Forall (fun m => NoDup (bins_of (Mark.i m))) (prune pf o marks thr2).
Proof.
  intros Hloc Hup. split.
  - apply (update_threshold_bins _ _ _ _ _ _ _ _ Hup).
    exact (local_maxima_bins o spectrum diff iL vL Hloc).
  - intros marks thr2 Hm. unfold prune.
    apply Zfor_invariant with
      (P := Forall (fun m => NoDup (bins_of (Mark.i m)))); [exact Hm|].
    intros i l _ Hl. apply modify_Forall; [exact Hl|].
    intros m. apply prune_mark_bins.
Qed.

End DistinctHistory.

(** ** The bit-reversal permutation *)

Lemma to_int32_small z : - 2 ^ 31 <= z < 2 ^ 31 -> to_int32 z = z.
Proof. intros H. unfold to_int32. rewrite Z.mod_small; lia. Qed.

Lemma to_uint32_small z : 0 <= z < 2 ^ 32 -> to_uint32 z = z.
Proof. intros H. unfold to_uint32. now rewrite Z.mod_small. Qed.

Lemma lor_shifted_bit y x : 0 <= y -> Z.lor (Z.shiftl y 1) (Z.land x 1) = 2 * y + x mod 2.
Proof.
  intros Hy. rewrite Z.shiftl_mul_pow2 by lia.
  change (Z.land x 1) with (Z.land x (Z.ones 1)). rewrite Z.land_ones by lia.
  assert (E : Z.land (y * 2 ^ 1) (x mod 2 ^ 1) = 0).
  { apply Z.bits_inj'. intros i Hi. rewrite Z.land_spec, Z.bits_0.
    destruct (Z.eq_dec i 0) as [->|Hne].
    - change (2 ^ 1) with 2. rewrite Z.mul_comm, Z.testbit_even_0. reflexivity.
    - rewrite (Z.mod_pow2_bits_high x 1 i) by lia. apply andb_false_r. }
  rewrite <- Z.lxor_lor, <- Z.add_nocarry_lxor by exact E.
  change (2 ^ 1) with 2. lia.
Qed.

Lemma reverse_loop range :
  forall y x,
    0 <= y -> 0 <= x < 2 ^ 32 ->
    (y + 1) * 2 ^ Z.of_nat (length range) <= 2 ^ 31 ->
    Zfor range
         (fun (_ : Z) '(y, x) =>
            (to_int32 (Z.lor (to_int32 (Z.shiftl y 1)) (Z.land x 1)),
             Z.shiftr (to_uint32 x) 1))
         (y, x)
    = (reverse_steps (length range) y x, x / 2 ^ Z.of_nat (length range)).
Proof.
  induction range as [|i range IH]; intros y x Hy Hx Hb.
  - cbn. now rewrite Z.div_1_r.
  - cbn [Zfor fold_left length reverse_steps].
    change (fold_left _ range ?s) with
      (Zfor range
         (fun (_ : Z) '(y, x) =>
            (to_int32 (Z.lor (to_int32 (Z.shiftl y 1)) (Z.land x 1)),
             Z.shiftr (to_uint32 x) 1)) s).
    cbn [length] in Hb. rewrite Nat2Z.inj_succ, Z.pow_succ_r in Hb by lia.
    assert (Hp : 1 <= 2 ^ Z.of_nat (length range))
      by (pose proof (Z.pow_pos_nonneg 2 (Z.of_nat (length range))); lia).
    assert (Hm : 0 <= x mod 2 < 2) by (apply Z.mod_pos_bound; lia).
    rewrite (to_int32_small (Z.shiftl y 1))
      by (rewrite Z.shiftl_mul_pow2 by lia; change (2 ^ 1) with 2; nia).
    rewrite lor_shifted_bit by exact Hy.
    rewrite to_int32_small by nia.
    rewrite to_uint32_small by exact Hx.
    rewrite Z.shiftr_div_pow2 by lia. change (2 ^ 1) with 2.
    rewrite IH.
    + f_equal. rewrite Nat2Z.inj_succ, Z.pow_succ_r by lia.
      rewrite Z.div_div by lia. reflexivity.
    + lia.
    + split; [apply Z.div_pos; lia|]. apply Z.div_lt_upper_bound; lia.
    + nia.
Qed.

Lemma reverse_steps_bits k :
  forall y x i,
    0 <= y -> 0 <= i ->
    Z.testbit (reverse_steps k y x) i
    = if i <? Z.of_nat k then Z.testbit x (Z.of_nat k - 1 - i)
      else Z.testbit y (i - Z.of_nat k).
Proof.
  induction k as [|k IH]; intros y x i Hy Hi.
  - cbn [reverse_steps]. destruct (Z.ltb_spec i (Z.of_nat 0)); [lia|].
    f_equal. lia.
  - cbn [reverse_steps].
    assert (Hm : 0 <= x mod 2 < 2) by (apply Z.mod_pos_bound; lia).
    rewrite IH by lia.
    assert (Eb : x mod 2 = Z.b2z (Z.testbit x 0)) by (symmetry; apply Z.bit0_mod).
    destruct (Z.ltb_spec i (Z.of_nat k)); destruct (Z.ltb_spec i (Z.of_nat (S k)));
      try lia.
    + replace (Z.of_nat (S k) - 1 - i) with (Z.succ (Z.of_nat k - 1 - i)) by lia.
      rewrite <- (Z.div2_bits x) by lia. now rewrite ?Z.div2_div.
    + replace (i - Z.of_nat k) with 0 by lia.
      replace (Z.of_nat (S k) - 1 - i) with 0 by lia.
      rewrite Eb. apply Z.testbit_0_r.
    + replace (i - Z.of_nat k) with (Z.succ (i - Z.of_nat (S k))) by lia.
      rewrite Eb. apply Z.testbit_succ_r. lia.
Qed.

Lemma reverse_steps_nonneg k : forall y x, 0 <= y -> 0 <= x -> 0 <= reverse_steps k y x.
Proof.
  induction k as [|k IH]; intros y x Hy Hx; cbn [reverse_steps]; [exact Hy|].
  pose proof (Z.mod_pos_bound x 2 ltac:(lia)).
  apply IH; [lia | apply Z.div_pos; lia].
Qed.

Lemma bits_above_false x n i : 0 <= x < 2 ^ n -> n <= i -> Z.testbit x i = false.
Proof.
  intros Hx Hi. destruct (Z_le_gt_dec 0 n) as [Hn|Hn].
  - rewrite <- (Z.mod_small x (2 ^ n)) by exact Hx.
    apply Z.mod_pow2_bits_high. lia.
  - rewrite Z.pow_neg_r in Hx by lia. lia.
Qed.

Lemma below_pow2 r n :
  0 <= r -> 0 <= n -> (forall i, n <= i -> Z.testbit r i = false) -> r < 2 ^ n.
Proof.
  intros Hr Hn H. destruct (Z.eq_dec r 0) as [->|Hne].
  - apply Z.pow_pos_nonneg; lia.
  - apply Z.log2_lt_pow2; [lia|].
    destruct (Z_lt_le_dec (Z.log2 r) n) as [|Hge]; [assumption|].
    specialize (H _ Hge). rewrite Z.bit_log2 in H by lia. discriminate.
Qed.

Lemma reverseBits_steps x bits :
  0 <= bits <= 31 -> 0 <= x < 2 ^ bits ->
  FFT.reverseBits x bits = reverse_steps (Z.to_nat bits) 0 x.
Proof.
  intros Hb Hx. unfold FFT.reverseBits.
  assert (Hp : 2 ^ bits <= 2 ^ 31) by (apply Z.pow_le_mono_r; lia).
  rewrite reverse_loop.
  - cbn [fst]. now rewrite Zrange_length, Z.sub_0_r.
  - lia.
  - lia.
  - rewrite Zrange_length, Z.sub_0_r, Z2Nat.id by lia. lia.
Qed.

Lemma reverseBits_bit x bits i :
  0 <= bits <= 31 -> 0 <= x < 2 ^ bits -> 0 <= i ->
  Z.testbit (FFT.reverseBits x bits) i
  = if i <? bits then Z.testbit x (bits - 1 - i) else false.
Proof.
  intros Hb Hx Hi. rewrite reverseBits_steps, reverse_steps_bits by lia.
  rewrite Z2Nat.id by lia. destruct (i <? bits); [reflexivity|].
  apply Z.bits_0.
Qed.

Lemma reverseBits_range x bits :
  0 <= bits <= 31 -> 0 <= x < 2 ^ bits ->
  0 <= FFT.reverseBits x bits < 2 ^ bits.
Proof.
  intros Hb Hx. split.
  - rewrite reverseBits_steps by lia. apply reverse_steps_nonneg; lia.
  - apply below_pow2; [|lia|].
    + rewrite reverseBits_steps by lia. apply reverse_steps_nonneg; lia.
    + intros i Hi. rewrite reverseBits_bit by lia.
      destruct (Z.ltb_spec i bits); [lia | reflexivity].
Qed.

Lemma reverseBits_twice x bits :
  0 <= bits <= 31 -> 0 <= x < 2 ^ bits ->
  FFT.reverseBits (FFT.reverseBits x bits) bits = x.
Proof.
  intros Hb Hx. apply Z.bits_inj'. intros i Hi.
  rewrite reverseBits_bit by (auto using reverseBits_range).
  destruct (Z.ltb_spec i bits).
  - rewrite reverseBits_bit by lia.
    destruct (Z.ltb_spec (bits - 1 - i) bits); [|lia]. f_equal. lia.
  - symmetry. apply (bits_above_false x bits); lia.
Qed.

(** X22.  [reverseBits(x, bits)], for [bits <= 31] and [x] below
    [2^bits]: bit [i] of the result is bit [bits - 1 - i] of [x]; the
    result is below [2^bits]; reversing twice gives [x] back. *)
Theorem reverseBits_involutive x bits :
  0 <= bits <= 31 -> 0 <= x < 2 ^ bits ->
  (forall i, 0 <= i < bits ->
     Z.testbit (FFT.reverseBits x bits) i = Z.testbit x (bits - 1 - i))
  /\ 0 <= FFT.reverseBits x bits < 2 ^ bits
  /\ FFT.reverseBits (FFT.reverseBits x bits) bits = x.
Proof.
  intros Hb Hx. split; [|split].
  - intros i Hi. rewrite reverseBits_bit by lia.
    destruct (Z.ltb_spec i bits); [reflexivity | lia].
  - now apply reverseBits_range.
  - now apply reverseBits_twice.
Qed.

Section PermuteFacts.

Variable levels : Z.
Hypothesis Hlevels : 0 <= levels <= 31.

Local Abbreviation size := (2 ^ levels).
Local Abbreviation rev i := (FFT.reverseBits i levels).

Lemma rev_range m : 0 <= m < size -> 0 <= rev m < size.
Proof. intros H. now apply reverseBits_range. Qed.

Lemma rev_rev m : 0 <= m < size -> rev (rev m) = m.
Proof. intros H. now apply reverseBits_twice. Qed.

Lemma swap_length a i j :
  0 <= i < Z.of_nat (length a) -> 0 <= j < Z.of_nat (length a) ->
  length (FFT.swap a i j) = length a.
Proof.
  intros Hi Hj. unfold FFT.swap, arr_set.
  rewrite !js_set_length_in; rewrite ?js_set_length_in; auto.
Qed.

Lemma swap_get a i j m :
  0 <= i < Z.of_nat (length a) -> 0 <= j < Z.of_nat (length a) -> i <> j ->
  arr_get (FFT.swap a i j) m
  = if m =? i then arr_get a j else if m =? j then arr_get a i else arr_get a m.
Proof.
  intros Hi Hj Hne. unfold FFT.swap, arr_set, arr_get.
  destruct (Z.eqb_spec m i) as [->|Hmi].
  - rewrite js_get_set_other by (rewrite ?js_set_length_in; auto).
    now rewrite js_get_set_same.
  - destruct (Z.eqb_spec m j) as [->|Hmj].
    + now rewrite js_get_set_same by (rewrite ?js_set_length_in; auto).
    + rewrite js_get_set_other by (rewrite ?js_set_length_in; auto).
      now rewrite js_get_set_other.
Qed.

Lemma permuted_next k a0 a :
  Z.of_nat (length a0) = size -> 0 <= k < size ->
  permuted_upto levels k a0 a ->
  permuted_upto levels (k + 1) a0 (if rev k >? k then FFT.swap a k (rev k) else a).
Proof.
  intros Hn Hk [Hl H].
  pose proof (rev_range k Hk) as Hj. pose proof (rev_rev k Hk) as Hjj.
  destruct (Z.gtb_spec (rev k) k) as [Hgt|Hle].
  - split; [rewrite swap_length; lia|].
    intros m Hm. rewrite swap_get by lia.
    pose proof (rev_range m Hm) as Hrm. pose proof (rev_rev m Hm) as Hrr.
    destruct (Z.eqb_spec m k) as [->|Hmk].
    + rewrite (H (rev k) Hj), Hjj.
      destruct (Z.ltb_spec (rev k) k); [lia|].
      destruct (Z.ltb_spec k k); [lia|]. cbn [orb].
      destruct (Z.ltb_spec k (k + 1)); [reflexivity | lia].
    + destruct (Z.eqb_spec m (rev k)) as [->|Hmj].
      * rewrite (H k Hk), Hjj.
        destruct (Z.ltb_spec k k); [lia|].
        destruct (Z.ltb_spec (rev k) k); [lia|]. cbn [orb].
        destruct (Z.ltb_spec (rev k) (k + 1)); [lia|].
        destruct (Z.ltb_spec k (k + 1)); [reflexivity | lia].
      * rewrite (H m Hm).
        assert (rev m <> k) by (intros E; apply Hmj; rewrite <- E; auto).
        destruct (Z.ltb_spec m k), (Z.ltb_spec m (k + 1)),
          (Z.ltb_spec (rev m) k), (Z.ltb_spec (rev m) (k + 1));
          try lia; reflexivity.
  - split; [exact Hl|].
    intros m Hm. rewrite (H m Hm).
    pose proof (rev_range m Hm) as Hrm. pose proof (rev_rev m Hm) as Hrr.
    destruct (Z.ltb_spec m k), (Z.ltb_spec m (k + 1)),
      (Z.ltb_spec (rev m) k), (Z.ltb_spec (rev m) (k + 1));
      try lia; try reflexivity; cbn [orb].
    + assert (m = k) by lia. subst m. f_equal. lia.
    + assert (m = k) by lia. subst m. lia.
    + assert (rev m = k) by lia.
      assert (m = rev k) by congruence. lia.
Qed.

Lemma permute_prefix (this : FFT.FFTNayuki) real imag (k : nat) :
  FFT.levels this = levels ->
  Z.of_nat (length real) = size -> Z.of_nat (length imag) = size ->
  Z.of_nat k <= size ->
  permuted_upto levels (Z.of_nat k) real
    (fst (Zfor (Zrange 0 (Z.of_nat k))
               (fun i '(real, imag) =>
                  let j := FFT.reverseBits i (FFT.levels this) in
                  if j >? i then (FFT.swap real i j, FFT.swap imag i j)
                  else (real, imag))
               (real, imag)))
  /\ permuted_upto levels (Z.of_nat k) imag
       (snd (Zfor (Zrange 0 (Z.of_nat k))
                  (fun i '(real, imag) =>
                     let j := FFT.reverseBits i (FFT.levels this) in
                     if j >? i then (FFT.swap real i j, FFT.swap imag i j)
                     else (real, imag))
                  (real, imag))).
Proof.
  intros Hlv Hr Hi. induction k as [|k IH]; intros Hk.
  - cbn. split; (split; [reflexivity|]); intros m Hm;
      destruct (Z.ltb_spec m 0), (Z.ltb_spec (rev m) 0);
      pose proof (rev_range m Hm); try lia; reflexivity.
  - rewrite Nat2Z.inj_succ, <- Z.add_1_r, Zrange_snoc, Zfor_app by lia.
    destruct IH as [IH1 IH2]; [lia|].
    destruct (Zfor (Zrange 0 (Z.of_nat k)) _ (real, imag)) as [re im].
    cbn [fst snd] in *. cbn [Zfor fold_left]. rewrite Hlv. fold (rev (Z.of_nat k)).
    assert (Hk' : 0 <= Z.of_nat k < size) by lia.
    pose proof (permuted_next (Z.of_nat k) real re Hr Hk' IH1) as N1.
    pose proof (permuted_next (Z.of_nat k) imag im Hi Hk' IH2) as N2.
    destruct (rev (Z.of_nat k) >? Z.of_nat k); cbn [fst snd]; auto.
Qed.

End PermuteFacts.

Lemma nth_error_Zrange_at lo hi k :
  nth_error (Zrange lo hi) k
  = if (k <? Z.to_nat (hi - lo))%nat then Some (lo + Z.of_nat k) else None.
Proof.
  unfold Zrange. rewrite nth_error_map.
  destruct (Nat.ltb_spec k (Z.to_nat (hi - lo))) as [Hlt|Hge].
  - destruct (nth_error (seq 0 (Z.to_nat (hi - lo))) k) as [a|] eqn:E.
    + apply (nth_error_nth _ _ 0%nat) in E. rewrite seq_nth in E by exact Hlt.
      cbn. do 2 f_equal. lia.
    + apply nth_error_None in E. rewrite length_seq in E. lia.
  - replace (nth_error (seq 0 (Z.to_nat (hi - lo))) k) with (@None nat);
      [reflexivity|].
    symmetry. apply nth_error_None. now rewrite length_seq.
Qed.

(** An array is the table of its elements. *)
Lemma arr_tabulate (a : list float) (f : Z -> float) n :
  Z.of_nat (length a) = n ->
  (forall m, 0 <= m < n -> arr_get a m = f m) ->
  a = map f (Zrange 0 n).
Proof.
  intros Hl H. apply nth_error_ext. intros k.
  rewrite nth_error_map, nth_error_Zrange_at.
  destruct (Nat.ltb_spec k (Z.to_nat (n - 0))) as [Hlt|Hge]; cbn [option_map].
  - replace (0 + Z.of_nat k) with (Z.of_nat k) by lia.
    rewrite <- (H (Z.of_nat k)) by lia. unfold arr_get, js_get.
    destruct (Z.ltb_spec (Z.of_nat k) 0); [lia|]. rewrite Nat2Z.id.
    apply nth_error_nth'. lia.
  - apply nth_error_None. lia.
Qed.

Lemma arr_get_tabulate (f : Z -> float) n j :
  0 <= j < n -> arr_get (map f (Zrange 0 n)) j = f j.
Proof.
  intros Hj. unfold arr_get, js_get. destruct (Z.ltb_spec j 0); [lia|].
  apply nth_error_nth. rewrite nth_error_map, nth_error_Zrange_at.
  destruct (Nat.ltb_spec (Z.to_nat j) (Z.to_nat (n - 0))); [|lia].
  cbn. do 2 f_equal. lia.
Qed.

Section PermuteTheorem.

Variable pf : Platform.

Lemma permute_tables n this real imag :
  FFT.constructor pf n = Ok this ->
  Z.of_nat (length real) = n -> Z.of_nat (length imag) = n ->
  FFT.permute this (real, imag)
  = (map (fun i => arr_get real (FFT.reverseBits i (FFT.levels this))) (Zrange 0 n),
     map (fun i => arr_get imag (FFT.reverseBits i (FFT.levels this))) (Zrange 0 n)).
Proof.
  intros Hc Hr Hi.
  destruct (constructor_Ok_inv pf n this Hc) as (k & Hk & Hn & Hn' & Hlv & _).
  assert (Hlevels : 0 <= k <= 31) by lia.
  assert (Hpos : 0 < 2 ^ k) by (apply Z.pow_pos_nonneg; lia).
  unfold FFT.permute. rewrite Hn'.
  destruct (permute_prefix k Hlevels this real imag (Z.to_nat n) Hlv)
    as [[L1 P1] [L2 P2]]; try lia.
  rewrite Z2Nat.id in * by lia.
  destruct (Zfor (Zrange 0 n) _ (real, imag)) as [re' im']. cbn [fst snd] in *.
  rewrite Hlv.
  f_equal; apply arr_tabulate; try lia; intros m Hm.
  - rewrite P1 by lia. destruct (Z.ltb_spec m n); [reflexivity | lia].
  - rewrite P2 by lia. destruct (Z.ltb_spec m n); [reflexivity | lia].
Qed.

(** X23.  The first stage of [forward], on two arrays of the size of the
    engine: it puts at index [i] the element found at the bit-reversed
    index; the lengths are unchanged, and doing it twice restores both
    arrays. *)
Theorem permute_bit_reversal n this real imag :
  FFT.constructor pf n = Ok this ->
  Z.of_nat (length real) = n -> Z.of_nat (length imag) = n ->
  FFT.permute this (real, imag)
  = (map (fun i => arr_get real (FFT.reverseBits i (FFT.levels this))) (Zrange 0 n),
     map (fun i => arr_get imag (FFT.reverseBits i (FFT.levels this))) (Zrange 0 n))
  /\ FFT.permute this (FFT.permute this (real, imag)) = (real, imag).
Proof.
  intros Hc Hr Hi.
  destruct (constructor_Ok_inv pf n this Hc) as (k & Hk & Hn & Hn' & Hlv & _).
  assert (Hlevels : 0 <= k <= 31) by lia.
  assert (Hpos : 0 < 2 ^ k) by (apply Z.pow_pos_nonneg; lia).
  split; [now apply permute_tables|].
  rewrite (permute_tables n this real imag Hc Hr Hi), (permute_tables n this)
    by (auto; rewrite length_map, Zrange_length; lia).
  rewrite Hlv.
  f_equal; symmetry; apply arr_tabulate; auto; intros m Hm;
    pose proof (reverseBits_range m k Hlevels ltac:(lia)) as Hrange;
    pose proof (reverseBits_twice m k Hlevels ltac:(lia)) as Hrr;
    rewrite arr_get_tabulate by lia; now rewrite Hrr.
Qed.

End PermuteTheorem.

(** ** The butterflies *)

Lemma Zrange_by_In lo hi stride i :
  0 < stride -> In i (Zrange_by lo hi stride) ->
  exists q, 0 <= q /\ i = lo + stride * q /\ i < hi.
Proof.
  intros Hs H. unfold Zrange_by in H. apply in_map_iff in H as (k & <- & Hk).
  apply in_seq in Hk. exists (Z.of_nat k). split; [lia|]. split; [reflexivity|].
  destruct Hk as [_ Hk]. cbn in Hk.
  assert (Hq : Z.of_nat k < (hi - lo + stride - 1) / stride) by lia.
  assert (Hd : stride * ((hi - lo + stride - 1) / stride) <= hi - lo + stride - 1)
    by (apply Z.mul_div_le; lia).
  nia.
Qed.

Section ButterflyFacts.

Variable this : FFT.FFTNayuki.
Variable k : Z.
Hypothesis Hk : 1 <= k <= 30.
Hypothesis Hn : FFT.n this = 2 ^ k.

Lemma butterfly_lengths j halfsize kk real imag :
  0 <= j -> 0 < halfsize -> j + halfsize < Z.of_nat (length real) ->
  length imag = length real ->
  length (fst (FFT.butterfly this j kk halfsize (real, imag))) = length real
  /\ length (snd (FFT.butterfly this j kk halfsize (real, imag))) = length real.
Proof.
  intros Hj Hh Hl Hi. unfold FFT.butterfly. cbn [fst snd]. unfold arr_set.
  rewrite !js_set_length_in; rewrite ?js_set_length_in; auto; lia.
Qed.

Lemma stage_lengths s real imag :
  1 <= s <= k -> Z.of_nat (length real) = 2 ^ k -> length imag = length real ->
  length (fst (FFT.stage this (2 ^ s) (real, imag))) = length real
  /\ length (snd (FFT.stage this (2 ^ s) (real, imag))) = length real.
Proof.
  intros Hs Hr Hi. unfold FFT.stage. rewrite Hn.
  assert (Hhalf : 2 ^ s = 2 * 2 ^ (s - 1)).
  { replace s with (1 + (s - 1)) at 1 by lia. rewrite Z.pow_add_r by lia. reflexivity. }
  assert (Hh : 2 ^ s / 2 = 2 ^ (s - 1))
    by (rewrite Hhalf, Z.mul_comm, Z.div_mul; lia).
  assert (Hp : 0 < 2 ^ (s - 1)) by (apply Z.pow_pos_nonneg; lia).
  assert (Hdiv : 2 ^ k = 2 ^ s * 2 ^ (k - s))
    by (rewrite <- Z.pow_add_r by lia; f_equal; lia).
  assert (Hc : 0 < 2 ^ (k - s)) by (apply Z.pow_pos_nonneg; lia).
  rewrite Hh.
  apply Zfor_invariant with
    (P := fun p : list float * list float =>
            length (fst p) = length real /\ length (snd p) = length real);
    [cbn; auto|].
  intros i [re im] Hin [H1 H2]. cbn [fst snd] in *.
  apply Zrange_by_In in Hin as (q & Hq & -> & Hlt); [|lia]. rewrite Z.add_0_l in *.
  assert (Hq' : q < 2 ^ (k - s)) by nia.
  apply Zfor_invariant with
    (P := fun p : list float * list float =>
            length (fst p) = length real /\ length (snd p) = length real);
    [cbn; auto|].
  intros j [re1 im1] Hj [H3 H4]. cbn [fst snd] in *. apply Zrange_In in Hj.
  assert (Hl : j + 2 ^ (s - 1) < Z.of_nat (length re1)) by (rewrite H3, Hr; nia).
  destruct (butterfly_lengths j (2 ^ (s - 1))
              ((j - 2 ^ s * q) * (2 ^ k / 2 ^ s)) re1 im1
              ltac:(nia) Hp Hl ltac:(congruence)) as [H5 H6].
  split; congruence.
Qed.

End ButterflyFacts.

Section ForwardTheorem.

Variable pf : Platform.

(** X24.  [forward] works in place: on two arrays of the size of the
    engine it neither lengthens nor shortens either of them, and it leaves
    the engine as it was. *)
Theorem forward_keeps_lengths n this real imag :
  FFT.constructor pf n = Ok this ->
  Z.of_nat (length real) = n -> Z.of_nat (length imag) = n ->
  fst (FFT.forward this real imag) = this
  /\ Z.of_nat (length (fst (snd (FFT.forward this real imag)))) = n
  /\ Z.of_nat (length (snd (snd (FFT.forward this real imag)))) = n.
Proof.
  intros Hc Hr Hi.
  destruct (constructor_Ok_inv pf n this Hc) as (k & Hk & Hn & Hn' & Hlv & _).
  split; [reflexivity|].
  unfold FFT.forward. cbn [fst snd].
  rewrite (permute_tables pf n this real imag Hc Hr Hi).
  set (start := (map _ (Zrange 0 n), map _ (Zrange 0 n))).
  enough (P : length (fst (Zfor (FFT.sizes (FFT.n this))
                                (fun size ri => FFT.stage this size ri) start))
              = Z.to_nat n
              /\ length (snd (Zfor (FFT.sizes (FFT.n this))
                                   (fun size ri => FFT.stage this size ri) start))
                 = Z.to_nat n) by lia.
  apply Zfor_invariant with
    (P := fun p : list float * list float =>
            length (fst p) = Z.to_nat n /\ length (snd p) = Z.to_nat n).
  - unfold start. cbn [fst snd]. rewrite !length_map, Zrange_length.
    split; f_equal; lia.
  - intros size [re im] Hin [H1 H2]. cbn [fst snd] in *.
    unfold FFT.sizes in Hin. apply in_map_iff in Hin as (s & <- & Hs).
    apply Zrange_In in Hs. rewrite Hn', Hn, Z.log2_pow2 in Hs by lia.
    assert (Hs' : 1 <= s <= k) by lia.
    assert (Hre : Z.of_nat (length re) = 2 ^ k) by lia.
    assert (Him : length im = length re) by congruence.
    assert (Hnk : FFT.n this = 2 ^ k) by congruence.
    destruct (stage_lengths this k Hk Hnk s re im Hs' Hre Him) as [H3 H4].
    split; congruence.
Qed.

End ForwardTheorem.

(** ** The further properties on concrete runs *)

(** X2 on the demonstration options, which give neither table. *)
Lemma default_tables_witness :
  match constructor Reference.platform Reference.demo_options with
  | Ok st =>
      Z.of_nat (length (hwin (options st))) = nfft (options st)
      /\ Z.of_nat (length (eww (options st))) = nfft (options st) / 2
      /\ Forall (fun row => Z.of_nat (length row) = nfft (options st) / 2)
                (eww (options st))
  | Err _ => False
  end.
Proof.
  destruct (constructor Reference.platform Reference.demo_options)
    as [st|e] eqn:E0; [|vm_compute in E0; discriminate].
  destruct (default_tables Reference.platform Reference.demo_options st E0)
    as [H1 H2].
  split; [exact (H1 eq_refl) | exact (H2 eq_refl)].
Defined.

(** X3 on bins 3 and 5, two frames apart, for frames of 16 samples. *)
Lemma hash_round_trip_witness :
  bin_earlier Reference.small_config (hash Reference.small_config (Bin 3) (Bin 5) 2) = 3
  /\ bin_later Reference.small_config (hash Reference.small_config (Bin 3) (Bin 5) 2) = 5
  /\ frameDelta Reference.small_config (hash Reference.small_config (Bin 3) (Bin 5) 2) = 2.
Proof.
  apply (hash_round_trip Reference.small_config 3 5 2);
    change (nfft Reference.small_config / 2) with 8; lia.
Defined.

(** X5 on a first call with the demonstration signal, for the
    configuration whose band holds no bin. *)
Lemma call_leaves_bounded_buffer_witness :
  match constructor Reference.platform Reference.bandless_options with
  | Ok st0 =>
      match _transform Reference.platform st0
                       Reference.demo_signal
      with
      | Ok (st', _) =>
          Z.of_nat (length (buffer st')) <= 1000000
          /\ Z.of_nat (length (buffer st')) + bufferDelta st'
             <= (stepIndex st' + nfft (options st0)) * bps (options st0)
      | Err _ => False
      end
  | Err _ => False
  end.
Proof.
  destruct (constructor Reference.platform Reference.bandless_options)
    as [st0|e] eqn:E0; [|vm_compute in E0; discriminate].
  destruct (_transform _ st0 _) as [[st' pushed]|e] eqn:T.
  - exact (call_leaves_bounded_buffer Reference.platform st0 Reference.demo_signal st' pushed T).
  - vm_compute in E0. injection E0 as <-. revert T. vm_compute. discriminate.
Defined.

(** X6 after a first call with 100 bytes of the demonstration signal,
    for the same configuration. *)
Lemma empty_write_is_noop_witness :
  match constructor Reference.platform Reference.bandless_options with
  | Ok st0 =>
      match _transform Reference.platform st0
                       (firstn 100 Reference.demo_signal)
      with
      | Ok (st', _) =>
          _transform Reference.platform st' []
          = Ok (st', None)
      | Err _ => False
      end
  | Err _ => False
  end.
Proof.
  destruct (constructor Reference.platform Reference.bandless_options)
    as [st0|e] eqn:E0; [|vm_compute in E0; discriminate].
  destruct (_transform _ st0 _) as [[st' pushed]|e] eqn:T.
  - exact (empty_write_is_noop Reference.platform
             st0 (firstn 100 Reference.demo_signal) st' pushed T).
  - vm_compute in E0. injection E0 as <-. revert T. vm_compute. discriminate.
Defined.

(** X7 on a call that throws: the demonstration signal with the first
    configuration, whose band holds the bins 0 to 7. *)
Lemma transform_throws_only_witness :
  match constructor Reference.platform Reference.demo_options with
  | Ok st0 =>
      match _transform Reference.platform st0 Reference.demo_signal with
      | Ok _ => False
      | Err e => e = RangeError \/ e = TypeError
      end
  | Err _ => False
  end.
Proof.
  destruct (constructor Reference.platform Reference.demo_options)
    as [st0|e] eqn:E0; [|revert E0; vm_compute; discriminate].
  pose proof (transform_throws_only Reference.platform st0 Reference.demo_signal
                (@reach_new _ _ _ E0)) as H.
  destruct (_transform _ st0 _) as [r|e] eqn:T; [|exact H].
  vm_compute in E0. injection E0 as <-. revert T. vm_compute. discriminate.
Defined.

(** X8 on the demonstration signal, fed in two chunks to the
    fingerprinter whose band holds no bin. *)
Lemma frames_processed_witness :
  match constructor Reference.platform Reference.bandless_options with
  | Ok st0 =>
      match run Reference.platform st0
                [firstn 100 Reference.demo_signal;
                 skipn 100 Reference.demo_signal]
      with
      | (_, Ok st) =>
          let o := options st0 in
          let T := Z.of_nat (length (concat [firstn 100 Reference.demo_signal;
                                             skipn 100 Reference.demo_signal])) in
          exists k,
            0 <= k
            /\ stepIndex st = k * step o
            /\ bufferDelta st + Z.of_nat (length (buffer st)) = T
            /\ (forall j, 0 <= j < k -> (j * step o + nfft o) * bps o < T)
            /\ ~ (k * step o + nfft o) * bps o < T
      | (_, Err _) => False
      end
  | Err _ => False
  end.
Proof.
  destruct (constructor Reference.platform Reference.bandless_options)
    as [st0|e] eqn:E0; [|vm_compute in E0; discriminate].
  destruct (run _ st0 _) as [pushed [st|e]] eqn:R.
  - apply (frames_processed Reference.platform
             Reference.bandless_options st0
             [firstn 100 Reference.demo_signal; skipn 100 Reference.demo_signal]
             pushed st E0); [| | exact R];
      vm_compute in E0; injection E0 as <-; vm_compute; discriminate.
  - vm_compute in E0. injection E0 as <-. revert R. vm_compute. discriminate.
Defined.

(** X9 on the same run. *)
Lemma buffer_holds_stream_tail_witness :
  match constructor Reference.platform Reference.bandless_options with
  | Ok st0 =>
      match run Reference.platform st0
                [firstn 100 Reference.demo_signal;
                 skipn 100 Reference.demo_signal]
      with
      | (_, Ok st) =>
          0 <= bufferDelta st
            <= Z.of_nat (length (concat [firstn 100 Reference.demo_signal;
                                         skipn 100 Reference.demo_signal]))
          /\ buffer st
             = skipn (Z.to_nat (bufferDelta st))
                     (concat [firstn 100 Reference.demo_signal;
                              skipn 100 Reference.demo_signal])
          /\ (0 < bufferDelta st -> 20000 <= Z.of_nat (length (buffer st)))
      | (_, Err _) => False
      end
  | Err _ => False
  end.
Proof.
  destruct (constructor Reference.platform Reference.bandless_options)
    as [st0|e] eqn:E0; [|vm_compute in E0; discriminate].
  destruct (run _ st0 _) as [pushed [st|e]] eqn:R.
  - exact (buffer_holds_stream_tail Reference.platform Reference.bandless_options st0
             [firstn 100 Reference.demo_signal; skipn 100 Reference.demo_signal]
             pushed st E0 R).
  - vm_compute in E0. injection E0 as <-. revert R. vm_compute. discriminate.
Defined.

(** X11 on the state after the demonstration signal, for the same
    configuration: 26 frames, and the records of frames 24 to 26. *)
Lemma history_consecutive_witness :
  match constructor Reference.platform Reference.bandless_options with
  | Ok st0 =>
      match run Reference.platform st0
                [Reference.demo_signal]
      with
      | (_, Ok st) =>
          exists k,
            0 <= k
            /\ stepIndex st = k * step (options st0)
            /\ Z.of_nat (length (marks st)) <= k
            /\ map Mark.t (marks st)
               = Zrange (k + 1 - Z.of_nat (length (marks st))) (k + 1)
      | (_, Err _) => False
      end
  | Err _ => False
  end.
Proof.
  destruct (constructor Reference.platform Reference.bandless_options)
    as [st0|e] eqn:E0; [|vm_compute in E0; discriminate].
  destruct (run _ st0 _) as [pushed [st|e]] eqn:R.
  - apply (history_consecutive Reference.platform
             Reference.bandless_options st0 1000000 [Reference.demo_signal]
             pushed st E0); [| | exact R];
      vm_compute in E0; injection E0 as <-; vm_compute; discriminate.
  - vm_compute in E0. injection E0 as <-. revert R. vm_compute. discriminate.
Defined.

(** X12 on a surface with peaks at bins 1, 3 and 5, over the threshold
    of the small configuration. *)
Lemma frame_record_ok_witness :
  match local_maxima Reference.small_config sample_surface sample_excess with
  | Ok (iL, vL) =>
      match update_threshold Reference.platform Reference.small_config
              (Zrange 0 (mnlm Reference.small_config)) sample_surface iL vL
              Reference.small_threshold
      with
      | Ok (iL', vL', _) =>
          record_ok Reference.small_config
                    {| Mark.t := 1; Mark.i := iL'; Mark.v := vL' |}
          /\ forall marks thr2,
               Forall (record_ok Reference.small_config) marks ->
               Forall (record_ok Reference.small_config)
                      (prune Reference.platform Reference.small_config marks thr2)
      | Err _ => False
      end
  | Err _ => False
  end.
Proof.
  destruct (local_maxima _ _ _) as [[iL vL]|e] eqn:L;
    [|revert L; vm_compute; discriminate].
  destruct (update_threshold _ _ _ _ _ _ _) as [[[iL' vL'] thr']|e] eqn:U.
  - exact (frame_record_ok Reference.platform Reference.small_config
             sample_surface sample_excess Reference.small_threshold
             iL vL iL' vL' thr' 1 L U).
  - vm_compute in L. injection L as <- <-. revert U. vm_compute. discriminate.
Defined.

(** X14 on the second record of a short history. *)
Lemma hashes_are_landmarks_witness :
  match generate_hashes Reference.small_config Reference.small_marks 1 ([], []) with
  | Ok out' =>
      exists nt nh,
        out' = codes_app ([], []) (nt, nh)
        /\ length nt = length nh
        /\ (1 < 0 -> nh = [])
        /\ forall m, 0 <= 1 ->
             nth_error Reference.small_marks (Z.to_nat 1) = Some m ->
             Forall (eq (Mark.t m)) nt
             /\ Forall (landmark Reference.small_config Reference.small_marks 1 m) nh
  | Err _ => False
  end.
Proof.
  destruct (generate_hashes _ _ _ _) as [out'|e] eqn:G.
  - exact (hashes_are_landmarks Reference.small_config Reference.small_marks 1
             ([], []) out' G).
  - revert G. vm_compute. discriminate.
Defined.

(** X15 on the same record: four candidates for each of its three slots,
    cut after three. *)
Lemma generate_hashes_exact_witness :
  generate_hashes Reference.small_config Reference.small_marks 1 ([], [])
  = Ok (fst (@nil Z, @nil Z)
        ++ flat_map (fun i =>
                       repeat (Mark.t second_record)
                         (length (firstn (fanout Reference.small_config)
                                    (candidates Reference.small_config
                                       Reference.small_marks 1 second_record i))))
                    (Zrange 0 (Z.of_nat (length (Mark.i second_record)))),
        snd (@nil Z, @nil Z)
        ++ flat_map (fun i =>
                       firstn (fanout Reference.small_config)
                         (candidates Reference.small_config
                            Reference.small_marks 1 second_record i))
                    (Zrange 0 (Z.of_nat (length (Mark.i second_record))))).
Proof.
  apply (generate_hashes_exact Reference.small_config Reference.small_marks 1
           second_record ([], [])); [lia | reflexivity].
Defined.

(** X16 on the first of the two records of a short history, for a
    pruning delay of one frame. *)
Lemma prune_spares_settled_witness :
  nth_error (prune Reference.platform Reference.small_config
                   Reference.small_marks Reference.small_threshold) 0
  = nth_error Reference.small_marks 0.
Proof.
  apply (prune_spares_settled Reference.platform Reference.small_config
           Reference.small_marks Reference.small_threshold 0).
  cbn. lia.
Defined.

(** X17 on the state after the demonstration signal, for the
    configuration whose band holds no bin. *)
Lemma threshold_keeps_length_witness :
  match constructor Reference.platform Reference.bandless_options with
  | Ok st0 =>
      match run Reference.platform st0 [Reference.demo_signal] with
      | (_, Ok st) =>
          Z.of_nat (length (threshold st)) = nfft (options st)
          /\ exists k : nat,
               stepIndex st = Z.of_nat k * step (options st)
               /\ threshold st
                  = repeat (Nat.iter k
                              (fun x => (x + maskDecayLog (options st))%float)
                              (-3)%float)
                           (Z.to_nat (nfft (options st)))
      | (_, Err _) => False
      end
  | Err _ => False
  end.
Proof.
  destruct (constructor Reference.platform Reference.bandless_options)
    as [st0|e] eqn:E0; [|revert E0; vm_compute; discriminate].
  destruct (run _ st0 _) as [pushed [st|e]] eqn:R.
  - destruct (run_with_reachable _ _ _ _ _ _ R (@reach_new _ _ _ E0)) as [Hr _].
    exact (threshold_keeps_length Reference.platform st Hr).
  - vm_compute in E0. injection E0 as <-. revert R. vm_compute. discriminate.
Defined.

(** X18 on the peaks of the same surface: masks at bins 3, 5 and 1. *)
Lemma masks_raise_threshold_witness :
  match local_maxima Reference.small_config sample_surface sample_excess with
  | Ok (iL, vL) =>
      match update_threshold Reference.platform Reference.small_config
              (Zrange 0 (mnlm Reference.small_config)) sample_surface iL vL
              Reference.small_threshold
      with
      | Ok (_, _, thr') =>
          (forall j,
             raised (arr_get Reference.small_threshold j) (arr_get thr' j)
             /\ (~ ifMin Reference.small_config <= j < ifMax Reference.small_config ->
                 arr_get thr' j = arr_get Reference.small_threshold j))
          /\ (0 <= ifMin Reference.small_config ->
              ifMax Reference.small_config
              <= Z.of_nat (length Reference.small_threshold) ->
              length thr' = length Reference.small_threshold)
      | Err _ => False
      end
  | Err _ => False
  end.
Proof.
  destruct (local_maxima _ _ _) as [[iL vL]|e] eqn:L;
    [|revert L; vm_compute; discriminate].
  destruct (update_threshold _ _ _ _ _ _ _) as [[[iL' vL'] thr']|e] eqn:U.
  - exact (masks_raise_threshold Reference.platform Reference.small_config
             (Zrange 0 (mnlm Reference.small_config)) sample_surface
             iL vL Reference.small_threshold iL' vL' thr' U).
  - vm_compute in L. injection L as <- <-. revert U. vm_compute. discriminate.
Defined.

(** X19 on a surface with peaks at bins 1, 3 and 5. *)
Lemma local_maxima_sorted_witness :
  match local_maxima Reference.small_config sample_surface sample_excess with
  | Ok (iL, vL) =>
      Z.of_nat (length vL) = mnlm Reference.small_config
      /\ descending vL
      /\ Forall2 (peak_of sample_surface sample_excess) iL vL
  | Err _ => False
  end.
Proof.
  destruct (local_maxima _ _ _) as [[iL vL]|e] eqn:L.
  - exact (local_maxima_sorted Reference.small_config sample_surface
             sample_excess iL vL L).
  - revert L. vm_compute. discriminate.
Defined.

(** X20 on the same surface, over the threshold of the small
    configuration. *)
Lemma peaks_exceed_threshold_witness :
  match positive_diff Reference.platform Reference.small_config
                      sample_surface Reference.small_threshold
  with
  | Ok diff =>
      match local_maxima Reference.small_config sample_surface diff with
      | Ok (iL, _) =>
          Forall (above_threshold Reference.platform sample_surface
                                  Reference.small_threshold) iL
      | Err _ => False
      end
  | Err _ => False
  end.
Proof.
  destruct (positive_diff _ _ _ _) as [diff|e] eqn:D;
    [|revert D; vm_compute; discriminate].
  destruct (local_maxima _ _ _) as [[iL vL]|e] eqn:L.
  - exact (peaks_exceed_threshold Reference.platform Reference.small_config
             sample_surface Reference.small_threshold diff iL vL D L).
  - revert L. unfold local_maxima, new_Array. cbn. discriminate.
Defined.

(** X21 on the same surface and threshold. *)
Lemma frame_bins_distinct_witness :
  match local_maxima Reference.small_config sample_surface sample_excess with
  | Ok (iL, vL) =>
      match update_threshold Reference.platform Reference.small_config
              (Zrange 0 (mnlm Reference.small_config)) sample_surface iL vL
              Reference.small_threshold
      with
      | Ok (iL', _, _) =>
          NoDup (bins_of iL')
          /\ forall marks thr2,
               Forall (fun m => NoDup (bins_of (Mark.i m))) marks ->
               Forall (fun m => NoDup (bins_of (Mark.i m)))
                      (prune Reference.platform Reference.small_config marks thr2)
      | Err _ => False
      end
  | Err _ => False
  end.
Proof.
  destruct (local_maxima _ _ _) as [[iL vL]|e] eqn:L;
    [|revert L; vm_compute; discriminate].
  destruct (update_threshold _ _ _ _ _ _ _) as [[[iL' vL'] thr']|e] eqn:U.
  - exact (frame_bins_distinct Reference.platform Reference.small_config
             sample_surface sample_excess Reference.small_threshold
             iL vL iL' vL' thr' L U).
  - vm_compute in L. injection L as <- <-. revert U. vm_compute. discriminate.
Defined.

(** X22 on the four bits of [6]. *)
Lemma reverseBits_involutive_witness :
  (forall i, 0 <= i < 4 ->
     Z.testbit (FFT.reverseBits 6 4) i = Z.testbit 6 (4 - 1 - i))
  /\ 0 <= FFT.reverseBits 6 4 < 2 ^ 4
  /\ FFT.reverseBits (FFT.reverseBits 6 4) 4 = 6.
Proof.
  apply (reverseBits_involutive 6 4); lia.
Defined.

(** X23 on two arrays of eight numbers. *)
Lemma permute_bit_reversal_witness :
  match FFT.constructor Reference.platform 8 with
  | Ok this =>
      FFT.permute this (sample_real, sample_imag)
      = (map (fun i => arr_get sample_real (FFT.reverseBits i (FFT.levels this)))
             (Zrange 0 8),
         map (fun i => arr_get sample_imag (FFT.reverseBits i (FFT.levels this)))
             (Zrange 0 8))
      /\ FFT.permute this (FFT.permute this (sample_real, sample_imag))
         = (sample_real, sample_imag)
  | Err _ => False
  end.
Proof.
  destruct (FFT.constructor Reference.platform 8) as [this|e] eqn:E0;
    [|vm_compute in E0; discriminate].
  exact (permute_bit_reversal Reference.platform 8 this sample_real sample_imag
           E0 eq_refl eq_refl).
Defined.

(** X24 on two arrays of eight numbers. *)
Lemma forward_keeps_lengths_witness :
  match FFT.constructor Reference.platform 8 with
  | Ok this =>
      fst (FFT.forward this sample_real sample_imag) = this
      /\ Z.of_nat (length (fst (snd (FFT.forward this sample_real sample_imag)))) = 8
      /\ Z.of_nat (length (snd (snd (FFT.forward this sample_real sample_imag)))) = 8
  | Err _ => False
  end.
Proof.
  destruct (FFT.constructor Reference.platform 8) as [this|e] eqn:E0;
    [|vm_compute in E0; discriminate].
  exact (forward_keeps_lengths Reference.platform 8 this sample_real sample_imag
           E0 eq_refl eq_refl).
Defined.

(** X25 on the state after the demonstration signal, for the
    configuration whose band holds no bin: 26 frames have completed. *)
Lemma constructed_fingerprinter_is_mute_witness :
  match constructor Reference.platform Reference.bandless_options with
  | Ok st0 =>
      match run Reference.platform st0 [Reference.demo_signal] with
      | (_, Ok st) =>
          FFT.spectrum (fft st) = None
          /\ Forall no_peak (marks st)
          /\ (forall out st' out',
                process_frame Reference.platform (options st) st out
                = Ok (st', out') ->
                ifMax (options st) <= ifMin (options st) /\ out' = out)
          /\ (forall cap chunks,
                fst (run_with Reference.platform cap st chunks) = [])
      | (_, Err _) => False
      end
  | Err _ => False
  end.
Proof.
  destruct (constructor Reference.platform Reference.bandless_options)
    as [st0|e] eqn:E0; [|revert E0; vm_compute; discriminate].
  destruct (run _ st0 _) as [pushed [st|e]] eqn:R.
  - destruct (run_with_reachable _ _ _ _ _ _ R (@reach_new _ _ _ E0)) as [Hr _].
    exact (constructed_fingerprinter_is_mute Reference.platform st Hr).
  - vm_compute in E0. injection E0 as <-. revert R. vm_compute. discriminate.
Defined.

(** X26 on the first call of a fingerprinter built with the first
    configuration, whose band holds the bins 0 to 7, on the
    demonstration signal. *)
Lemma band_frames_throw_witness :
  match constructor Reference.platform Reference.demo_options with
  | Ok st0 =>
      (forall out,
         process_frame Reference.platform (options st0) st0 out
         = match window_data (options st0) st0 with
           | Ok _ => Err TypeError
           | Err e => Err e
           end)
      /\ match _transform Reference.platform st0 Reference.demo_signal with
         | Ok (st', pushed) =>
             pushed = None /\ stepIndex st' = stepIndex st0
             /\ ~ (stepIndex st0 + nfft (options st0)) * bps (options st0)
                  < Z.of_nat (length (buffer st0 ++ Reference.demo_signal))
                    + bufferDelta st0
         | Err e =>
             (e = RangeError \/ e = TypeError)
             /\ (stepIndex st0 + nfft (options st0)) * bps (options st0)
                < Z.of_nat (length (buffer st0 ++ Reference.demo_signal))
                  + bufferDelta st0
         end
  | Err _ => False
  end.
Proof.
  destruct (constructor Reference.platform Reference.demo_options)
    as [st0|e] eqn:E0; [|revert E0; vm_compute; discriminate].
  apply (band_frames_throw Reference.platform st0 Reference.demo_signal
           (@reach_new _ _ _ E0)).
  vm_compute in E0. injection E0 as <-. vm_compute. reflexivity.
Defined.
